(** * Lifelong Planning A* on a grid: a shallow embedding of
      [main/algorithms/LPAStar.py] and [main/testing/RP.py]

    The development follows the two Python files function by function.
    Python values are represented as the code uses them:

    - a node object is named by a natural number; its immutable attributes
      (position, neighbour list, the [been_checked] flag) live in a record
      [Nodes], its mutable state tag in a map [node -> State];
    - the dictionaries [g] and [rhs] are finite maps [gmap node cost]; a
      subscript on a missing key raises [KeyError];
    - a cost is a Python [int] or [float("inf")];
    - exceptions are values of the error monad [result]. *)

From Stdlib Require Import ZArith QArith Lia.
From stdpp Require Import base option list gmap strings.

Local Open Scope Z_scope.

(** ** Exceptions and the error monad *)

Inductive exn : Type :=
  | KeyError
  | ValueError
  | IndexError
  | TypeError
  | ZeroDivisionError.

Inductive result (A : Type) : Type :=
  | Ok (a : A)
  | Raise (e : exn).
Arguments Ok {A} a.
Arguments Raise {A} e.

Definition bind {A B : Type} (m : result A) (k : A -> result B) : result B :=
  match m with
  | Ok a => k a
  | Raise e => Raise e
  end.

Notation "'do' x <- m ; k" := (bind m (fun x => k))
  (at level 10, x pattern, m at level 100, k at level 200).

Definition is_Ok {A : Type} (m : result A) : Prop := exists a, m = Ok a.

(** ** Costs: a Python [int] or [float("inf")] *)

Inductive cost : Type :=
  | Num (n : Z)
  | Inf.

#[export] Instance cost_eq_dec : EqDecision cost.
Proof. solve_decision. Defined.

(** [a < b] on costs. *)
Definition cost_ltb (a b : cost) : bool :=
  match a, b with
  | Num x, Num y => x <? y
  | Num _, Inf => true
  | Inf, _ => false
  end.

(** [a != b] on costs. *)
Definition cost_neqb (a b : cost) : bool := negb (bool_decide (a = b)).

(** Python's [min(a, b)]: the second argument only when it is strictly
    smaller. *)
Definition cost_min (a b : cost) : cost := if cost_ltb b a then b else a.

(** [c + k] for an integer [k]. *)
Definition cost_add (c : cost) (k : Z) : cost :=
  match c with
  | Num n => Num (n + k)
  | Inf => Inf
  end.

(** ** Node objects *)

Definition node : Type := nat.

(** Modelled from the spec: the [Node] class is not among the sources.  The
    spec (section 3) gives a node one mutually exclusive state tag out of six
    and (section 6) the queries and mutators on it. *)
Inductive State : Type :=
  | Unchecked
  | Checked
  | Start
  | End
  | Path
  | Barrier.

#[export] Instance State_eq_dec : EqDecision State.
Proof. solve_decision. Defined.

Definition is_checked (s : State) : bool := bool_decide (s = Checked).
Definition is_unchecked (s : State) : bool := bool_decide (s = Unchecked).
Definition is_start (s : State) : bool := bool_decide (s = Start).
Definition is_end (s : State) : bool := bool_decide (s = End).

(** The attributes of the node objects that no function of the two files
    writes: [get_pos()], [neighbors] and [been_checked]. *)
Record Nodes : Type := mkNodes {
  get_pos : node -> Z * Z;
  neighbors : node -> list node;
  been_checked : node -> bool
}.

(** The state tags of all node objects. *)
Definition states : Type := node -> State.

Definition set_state (st : states) (n : node) (s : State) : states :=
  fun m => if decide (m = n) then s else st m.

(** Modelled from the spec: [Node.check], [Node.uncheck] and [Node.make_path]
    are not among the sources; section 6 of the spec lists them as the
    mutators that set the tag to Checked, Unchecked and Path. *)
Definition check_node (st : states) (n : node) : states := set_state st n Checked.
Definition uncheck (st : states) (n : node) : states := set_state st n Unchecked.
Definition make_path (st : states) (n : node) : states := set_state st n Path.

(** ** [main/testing/RP.py] *)

Module RP.

(** [matrix[i][j]] on a list of lists. *)
Definition index2 (matrix : list (list Z)) (i j : nat) : result Z :=
  match matrix !! i with
  | Some row => match row !! j with
                | Some v => Ok v
                | None => Raise IndexError
                end
  | None => Raise IndexError
  end.

Definition determinant_2x2 (matrix : list (list Z)) : result Z :=
  do a <- index2 matrix 0 0;
  do d <- index2 matrix 1 1;
  do b <- index2 matrix 0 1;
  do c <- index2 matrix 1 0;
  Ok (a * d - b * c).

Definition covariance_matrix (point1 point2 : Z * Z) : list (list Z) :=
  let '(x1, y1) := point1 in
  let '(x2, y2) := point2 in
  let cov_x_x := (x1 - x2) ^ 2 in
  let cov_y_y := (y1 - y2) ^ 2 in
  let cov_x_y := (x1 - x2) * (y1 - y2) in
  [[cov_x_x; cov_x_y]; [cov_x_y; cov_y_y]].

(** The literal [1e-10] denotes the double
    7737125245533627 / 2^86; Python compares an [int] with a [float] by
    their exact values. *)
Definition epsilon : Q := Qmake 7737125245533627 (2 ^ 86).

Definition int_lt_float (z : Z) (q : Q) : bool :=
  negb (Qle_bool q (inject_Z z)).

(** What [mahalanobis] returns: [float("inf")], or [math.sqrt(result)].  The
    sum under the root is kept as an exact rational; the rounding of the
    float operations is not represented. *)
Inductive distance : Type :=
  | DInf
  | DSqrt (radicand : Q).

(** One round of [result += d * d / matrix[i][i]]. *)
Definition mahalanobis_term (matrix : list (list Z)) (acc : Q) (i : nat) (d : Z)
  : result Q :=
  do m <- index2 matrix i i;
  if decide (m = 0) then Raise ZeroDivisionError
  else Ok (Qplus acc (Qdiv (inject_Z (d * d)) (inject_Z m))).

Fixpoint mahalanobis_sum (matrix : list (list Z)) (acc : Q) (i : nat)
    (diff : list Z) : result Q :=
  match diff with
  | [] => Ok acc
  | d :: rest =>
      do acc' <- mahalanobis_term matrix acc i d;
      mahalanobis_sum matrix acc' (S i) rest
  end.

Definition mahalanobis (W : Nodes) (node1 node2 : node) : result distance :=
  let matrix := covariance_matrix (get_pos W node1) (get_pos W node2) in
  do det <- determinant_2x2 matrix;
  if int_lt_float det epsilon then Ok DInf
  else
    let '(x1, y1) := get_pos W node1 in
    let '(x2, y2) := get_pos W node2 in
    let diff := [x1 - x2; y1 - y2] in
    do r <- mahalanobis_sum matrix (inject_Z 0) 0 diff;
    Ok (DSqrt r).

Definition chebyshev (W : Nodes) (node1 node2 : node) : Z :=
  let '(x1, y1) := get_pos W node1 in
  let '(x2, y2) := get_pos W node2 in
  Z.max (Z.abs (x1 - x2)) (Z.abs (y1 - y2)).

Definition manhattan (W : Nodes) (node1 node2 : node) : Z :=
  let '(x1, y1) := get_pos W node1 in
  let '(x2, y2) := get_pos W node2 in
  Z.abs (x1 - x2) + Z.abs (y1 - y2).

(** The loop of [d_manhattan]: one is taken off for every neighbour that is
    neither checked nor unchecked. *)
Definition blocked_step (st : states) (blocked_penalty : Z) (n : node) : Z :=
  if negb (is_checked (st n)) && negb (is_unchecked (st n))
  then blocked_penalty - 1
  else blocked_penalty.

Definition d_manhattan (W : Nodes) (st : states) (node1 node2 : node) : Z :=
  let '(x1, y1) := get_pos W node1 in
  let '(x2, y2) := get_pos W node2 in
  let blocked_penalty :=
    fold_left (blocked_step st) (neighbors W node1)
              (Z.of_nat (length (neighbors W node1))) in
  Z.abs (x1 - x2) + Z.abs (y1 - y2) + blocked_penalty.

(** [heuristic("manhattan", node1, node2)]: the ["manhattan"] case of the
    dispatch, which is also its default case. *)
Definition heuristic_manhattan (W : Nodes) (node1 node2 : node) : Z :=
  manhattan W node1 node2.

(** [check(current)] takes exactly one positional argument; a call with any
    other number of arguments raises [TypeError] before the body runs. *)
Definition check (args : list node) (st : states) : result states :=
  match args with
  | [current] =>
      if negb (is_start (st current)) && negb (is_end (st current))
      then Ok (check_node st current)
      else Ok st
  | _ => Raise TypeError
  end.

(** *** [minkowski]

    The exponent [p] is an [int] or a [float].  Float values and the two
    operations that produce them ([**] and the quotient of [/]) are kept
    abstract; what [/] does on a zero divisor is Python's. *)
Section Minkowski.

Variable float : Type.
(** [f == 0], true of both signed zeros. *)
Variable float_is_zero : float -> bool.

Inductive number : Type :=
  | Int (z : Z)
  | Float (f : float).

(** [a ** b]; it can raise (zero to a negative power). *)
Variable pow : number -> number -> result number.
(** [a + b]. *)
Variable add : number -> number -> number.
(** The quotient [a / b] for a nonzero [b]. *)
Variable quotient : number -> number -> float.

Definition is_zero (p : number) : bool :=
  match p with
  | Int z => z =? 0
  | Float f => float_is_zero f
  end.

Definition truediv (a b : number) : result number :=
  if is_zero b then Raise ZeroDivisionError else Ok (Float (quotient a b)).

Definition minkowski (W : Nodes) (node1 node2 : node) (p : number)
  : result number :=
  let '(x1, y1) := get_pos W node1 in
  let '(x2, y2) := get_pos W node2 in
  do d1 <- pow (Int (Z.abs (x1 - x2))) p;
  do d2 <- pow (Int (Z.abs (y1 - y2))) p;
  do e <- truediv (Int 1) p;
  pow (add d1 d2) e.

End Minkowski.

Arguments Int {float} z.
Arguments Float {float} f.

(** *** [get_unvisited_nodes]

    [Q] is a first-in first-out [Queue], here the list of the nodes still to
    be taken out; [neighbor not in Q_hash] is membership in a list. *)

(** The [for neighbor in current.neighbors] loop. *)
Fixpoint enqueue_new (nbrs : list node) (Q Q_hash : list node)
  : list node * list node :=
  match nbrs with
  | [] => (Q, Q_hash)
  | neighbor :: rest =>
      if decide (neighbor ∈ Q_hash) then enqueue_new rest Q Q_hash
      else enqueue_new rest (Q ++ [neighbor]) (Q_hash ++ [neighbor])
  end.

(** The [while not Q.empty()] loop, cut off after [fuel] rounds ([None]). *)
Fixpoint unvisited_loop (fuel : nat) (W : Nodes) (Q Q_hash : list node)
  : option (list node) :=
  match fuel with
  | O => None
  | S fuel' =>
      match Q with
      | [] => Some Q_hash
      | current :: Q' =>
          let '(Q'', Q_hash') := enqueue_new (neighbors W current) Q' Q_hash in
          unvisited_loop fuel' W Q'' Q_hash'
      end
  end.

Definition get_unvisited_nodes (fuel : nat) (W : Nodes) (start : node)
  : option (list node) :=
  unvisited_loop fuel W [start] [start].

(** [b] is on the neighbour list of [a]. *)
Definition edge (W : Nodes) (a b : node) : Prop := b ∈ neighbors W a.

(** What the loop of [get_unvisited_nodes] keeps true of the queue and of
    [Q_hash]. *)
Record walk_ok (W : Nodes) (start : node) (Q Q_hash : list node) : Prop := {
  walk_nodup : NoDup Q_hash;
  walk_first : exists rest, Q_hash = start :: rest;
  walk_queue : forall x, x ∈ Q -> x ∈ Q_hash;
  walk_sound : forall x, x ∈ Q_hash -> rtc (edge W) start x;
  walk_closed : forall x y, x ∈ Q_hash -> x ∉ Q -> edge W x y -> y ∈ Q_hash
}.

(** *** [count_path] and [thread_count_path]

    [came_from] is a dictionary from nodes to nodes.  Both loops are cut off
    after [fuel] rounds ([None]). *)

Fixpoint count_path_from (fuel : nat) (came_from : gmap node node)
    (st : states) (current : node) (num_nodes_path : Z) : option Z :=
  match fuel with
  | O => None
  | S fuel' =>
      match came_from !! current with
      | None => Some num_nodes_path
      | Some previous =>
          if negb (is_start (st previous))
          then count_path_from fuel' came_from st previous (num_nodes_path + 1)
          else Some num_nodes_path
      end
  end.

Definition count_path (fuel : nat) (came_from : gmap node node) (st : states)
    (current : node) : option Z :=
  count_path_from fuel came_from st current 0.

(** One round of the loop of [count_path] that moves on: [b] is the entry
    of [a] in [came_from] and is not the start node. *)
Definition link (came_from : gmap node node) (st : states) (a b : node) : Prop :=
  came_from !! a = Some b /\ is_start (st b) = false.

(** The loop of [count_path] ends at [a]: [a] is no key of [came_from], or
    its entry is the start node. *)
Definition stops (came_from : gmap node node) (st : states) (a : node) : Prop :=
  came_from !! a = None
  \/ exists p, came_from !! a = Some p /\ is_start (st p) = true.

(** [thread_count_path(path_size, came_from, current, target)] returns
    nothing; the result here is the list [path_size] as the call leaves it.
    [path_size[0] += 1] raises [IndexError] on an empty list. *)
Fixpoint thread_count_path (fuel : nat) (path_size : list Z)
    (came_from : gmap node node) (current target : node)
  : option (result (list Z)) :=
  match fuel with
  | O => None
  | S fuel' =>
      match came_from !! current with
      | None => Some (Ok path_size)
      | Some previous =>
          if decide (previous <> target) then
            match path_size with
            | [] => Some (Raise IndexError)
            | size :: rest =>
                thread_count_path fuel' ((size + 1) :: rest) came_from
                                  previous target
            end
          else Some (Ok path_size)
      end
  end.

(** *** [euclidean] and the dispatch [heuristic]

    As for [minkowski], float values and the operations that produce them
    are kept abstract. *)
Section Heuristic.

Variable float : Type.
Variable float_is_zero : float -> bool.
Variable pow : number float -> number float -> result (number float).
Variable add : number float -> number float -> number float.
Variable quotient : number float -> number float -> float.
(** [math.sqrt] of an [int]; it can raise (an [int] too large for a
    float). *)
Variable sqrt : Z -> result float.

Definition euclidean (W : Nodes) (node1 node2 : node) : result float :=
  let '(x1, y1) := get_pos W node1 in
  let '(x2, y2) := get_pos W node2 in
  sqrt ((x1 - x2) ^ 2 + (y1 - y2) ^ 2).

(** What the six heuristics return: an [int], a float, or the result of
    [mahalanobis]. *)
Inductive hvalue : Type :=
  | HInt (z : Z)
  | HFloat (f : float)
  | HNumber (x : number float)
  | HDistance (d : distance).

(** [heuristic(type, node1, node2, *args)]; [args[0]] raises [IndexError]
    when no further argument was passed. *)
Definition heuristic (W : Nodes) (st : states) (type : string)
    (node1 node2 : node) (args : list (number float)) : result hvalue :=
  if decide (type = "chebyshev"%string) then Ok (HInt (chebyshev W node1 node2))
  else if decide (type = "d_manhattan"%string)
  then Ok (HInt (d_manhattan W st node1 node2))
  else if decide (type = "euclidean"%string)
  then do f <- euclidean W node1 node2; Ok (HFloat f)
  else if decide (type = "manhattan"%string)
  then Ok (HInt (manhattan W node1 node2))
  else if decide (type = "minkowski"%string) then
    match args with
    | [] => Raise IndexError
    | p :: _ =>
        do x <- minkowski float float_is_zero pow add quotient W node1 node2 p;
        Ok (HNumber x)
    end
  else if decide (type = "mahalanobis"%string)
  then do d <- mahalanobis W node1 node2; Ok (HDistance d)
  else Ok (HInt (manhattan W node1 node2)).

End Heuristic.

Arguments HInt {float} z.
Arguments HFloat {float} f.
Arguments HNumber {float} x.
Arguments HDistance {float} d.

End RP.

(** ** Keys and the open list *)

(** A key is the pair built by [calc_key]. *)
Definition key : Type := cost * cost.

(** [a < b] on two-element tuples: decided by the first components unless
    they are equal. *)
Definition key_ltb (a b : key) : bool :=
  if bool_decide (a.1 = b.1) then cost_ltb a.2 b.2 else cost_ltb a.1 b.1.

(** An element [(key, node)] of the open list. *)
Definition entry : Type := key * node.

(** The three functions of Python's [heapq] module that the engine calls, on
    a list of entries.  [heappop] gives [None] on the empty list, where
    Python raises [IndexError].  [is_heap] is the layout invariant under
    which [heappop] returns a smallest item.  Two entries with equal keys are
    ordered by comparing the node objects, which is up to the [Node] class;
    the interface therefore fixes the popped entry only up to such ties. *)
Class HeapQ : Type := {
  heapify : list entry -> list entry;
  heappush : list entry -> entry -> list entry;
  heappop : list entry -> option (entry * list entry);
  is_heap : list entry -> Prop
}.

(** The documented contract of [heapq]. *)
Class HeapQLaws (H : HeapQ) : Prop := {
  heapify_perm : forall l, heapify l ≡ₚ l;
  heapify_heap : forall l, is_heap (heapify l);
  heappush_perm : forall l x, heappush l x ≡ₚ x :: l;
  heappush_heap : forall l x, is_heap l -> is_heap (heappush l x);
  heappop_some : forall l, l <> [] -> exists x l', heappop l = Some (x, l');
  heappop_perm : forall l x l', heappop l = Some (x, l') -> l ≡ₚ x :: l';
  heappop_heap : forall l x l', is_heap l -> heappop l = Some (x, l') -> is_heap l';
  heappop_min : forall l x l',
    is_heap l -> heappop l = Some (x, l') ->
    forall y, y ∈ l' -> key_ltb y.1 x.1 = false;
  is_heap_singleton : forall x, is_heap [x]
}.

(** A reference implementation of the interface: the list is kept in
    insertion order and [heappop] takes out the leftmost entry of least
    key. *)
Module Scan.

Fixpoint least (best : entry) (l : list entry) : entry :=
  match l with
  | [] => best
  | x :: rest => if key_ltb x.1 best.1 then least x rest else least best rest
  end.

Fixpoint remove_first (x : entry) (l : list entry) : list entry :=
  match l with
  | [] => []
  | y :: rest => if decide (y = x) then rest else y :: remove_first x rest
  end.

Definition pop (l : list entry) : option (entry * list entry) :=
  match l with
  | [] => None
  | x :: rest => let m := least x rest in Some (m, remove_first m l)
  end.

Definition heapq : HeapQ := {|
  heapify := fun l => l;
  heappush := fun l x => l ++ [x];
  heappop := pop;
  is_heap := fun _ => True
|}.

End Scan.

(** ** [main/algorithms/LPAStar.py] *)

Module LPAStar.

(** A dictionary from node objects to costs. *)
Abbreviation dict := (gmap node cost).

(** [d[k]]. *)
Definition get (d : dict) (k : node) : result cost :=
  match d !! k with
  | Some v => Ok v
  | None => Raise KeyError
  end.

(** The [Grid] object: its rows of nodes and the two distinguished nodes. *)
Record Grid : Type := mkGrid {
  grid : list (list node);
  start : node;
  end_ : node
}.

Definition get_checked_neighbors (W : Nodes) (st : states) (n : node) : list node :=
  filter (fun neighbor => is_checked (st neighbor) || is_start (st neighbor))
         (neighbors W n).

(** [min(l, key=lambda x: costs[x])]: the first element of least cost;
    [ValueError] on an empty list. *)
Fixpoint min_from (costs : dict) (best : node) (cbest : cost) (l : list node)
  : result node :=
  match l with
  | [] => Ok best
  | x :: rest =>
      do c <- get costs x;
      if cost_ltb c cbest then min_from costs x c rest
      else min_from costs best cbest rest
  end.

Definition min_by_cost (costs : dict) (l : list node) : result node :=
  match l with
  | [] => Raise ValueError
  | x :: rest => do c <- get costs x; min_from costs x c rest
  end.

(** How a call of [reconstruct_path] ends; [OutOfFuel] is the model's own:
    the [while] loop was cut off after [fuel] rounds. *)
Inductive status : Type :=
  | Returned
  | Raised (e : exn)
  | OutOfFuel.

(** [reconstruct_path(current, costs, draw)]; [draw] has no effect on the
    modelled state.  The result is the state tags left behind, also when an
    exception leaves the function. *)
Fixpoint reconstruct_path (fuel : nat) (W : Nodes) (current : node)
    (costs : dict) (st : states) : states * status :=
  match fuel with
  | O => (st, OutOfFuel)
  | S fuel' =>
      if is_start (st current) then (st, Returned)
      else
        match min_by_cost costs (get_checked_neighbors W st current) with
        | Raise e => (st, Raised e)
        | Ok current' =>
            if is_start (st current') then (st, Returned)
            else reconstruct_path fuel' W current' costs (make_path st current')
        end
  end.

(** One full round of the loop of [reconstruct_path]: from the current node
    and tags [a] to the node picked and the tags with it marked as Path. *)
Definition path_round (W : Nodes) (costs : dict) (a b : node * states) : Prop :=
  is_start (a.2 a.1) = false
  /\ min_by_cost costs (get_checked_neighbors W a.2 a.1) = Ok b.1
  /\ is_start (a.2 b.1) = false
  /\ b.2 = make_path a.2 b.1.

(** Modelled from the spec: [heuristic] is imported from the module [RP] of
    the package [main/algorithms], which is not among the sources.  Section
    4.1 of the spec gives its kind ["manhattan"] as |dx| + |dy|, which is
    what [heuristic("manhattan", ...)] of [main/testing/RP.py] returns. *)
Definition heuristic_manhattan (W : Nodes) (node1 node2 : node) : Z :=
  RP.heuristic_manhattan W node1 node2.

(** [calc_key(end, node, g, rhs)]. *)
Definition calc_key (W : Nodes) (end_ : node) (n : node) (g rhs : dict)
  : result key :=
  do gn <- get g n;
  do rn <- get rhs n;
  Ok (cost_add (cost_min gn rn) (heuristic_manhattan W n end_),
      cost_min gn rn).

(** The condition under which [update_vertex] lets a neighbour contribute. *)
Definition counted (W : Nodes) (st : states) (neighbor : node) : bool :=
  is_checked (st neighbor) || is_start (st neighbor)
  || is_unchecked (st neighbor)
  || (is_end (st neighbor) && been_checked W neighbor).

(** The tags that count whatever [been_checked] is. *)
Definition open_tag (s : State) : bool :=
  is_checked s || is_start s || is_unchecked s.

(** The [for] loop of [update_vertex]. *)
Fixpoint relax (W : Nodes) (st : states) (g : dict) (n : node)
    (nbrs : list node) (rhs : dict) : result dict :=
  match nbrs with
  | [] => Ok rhs
  | neighbor :: rest =>
      if counted W st neighbor then
        do r <- get rhs n;
        do gn <- get g neighbor;
        relax W st g n rest (<[n := cost_min r (cost_add gn 1)]> rhs)
      else relax W st g n rest rhs
  end.

(** The value that the loop [relax] leaves in [rhs[n]] when it starts from
    [acc]: the same loop on the one dictionary cell it touches. *)
Fixpoint relax_value (W : Nodes) (st : states) (g : dict)
    (nbrs : list node) (acc : cost) : result cost :=
  match nbrs with
  | [] => Ok acc
  | neighbor :: rest =>
      if counted W st neighbor then
        do gn <- get g neighbor;
        relax_value W st g rest (cost_min acc (cost_add gn 1))
      else relax_value W st g rest acc
  end.

(** The one-step lookahead of a node: what [update_vertex] stores in
    [rhs[n]]. *)
Definition lookahead (W : Nodes) (st : states) (g : dict) (n : node)
  : result cost :=
  relax_value W st g (neighbors W n) Inf.

(** The key of a node whose two costs are [gn] and [rn]. *)
Definition key_of (W : Nodes) (end_ : node) (n : node) (gn rn : cost) : key :=
  (cost_add (cost_min gn rn) (heuristic_manhattan W n end_), cost_min gn rn).

(** [if not neighbor.is_start() and not neighbor.is_end() and not
    neighbor.is_checked(): neighbor.uncheck()]. *)
Definition reopened (st : states) (n : node) : states :=
  if negb (is_start (st n)) && negb (is_end (st n)) && negb (is_checked (st n))
  then uncheck st n else st.

(** [if not node.is_start() and not node.is_end(): node.check()]. *)
Definition marked (st : states) (n : node) : states :=
  if negb (is_start (st n)) && negb (is_end (st n)) then check_node st n else st.

Section Engine.

Context {HQ : HeapQ}.
Variable W : Nodes.
Variable G : Grid.

(** [update_vertex(grid, node, rhs, g, open_list)] returns the new open
    list; the dictionary [rhs], which Python updates in place, is returned
    next to it. *)
Definition update_vertex (st : states) (n : node) (rhs g : dict)
    (open_list : list entry) : result (dict * list entry) :=
  if decide (n <> start G) then
    do rhs' <- relax W st g n (neighbors W n) (<[n := Inf]> rhs);
    let open_list := filter (fun e : entry => e.2 <> n) open_list in
    let open_list := heapify open_list in
    do gn <- get g n;
    do rn <- get rhs' n;
    if cost_neqb gn rn then
      do k <- calc_key W (end_ G) n g rhs';
      Ok (rhs', heappush open_list (k, n))
    else Ok (rhs', open_list)
  else Ok (rhs, open_list).

(** The open list that [update_vertex] returns for a node other than the
    start node whose costs are [gn] and [rn] after the update. *)
Definition requeued (n : node) (gn rn : cost) (open_list : list entry)
  : list entry :=
  if cost_neqb gn rn
  then heappush (heapify (filter (fun e : entry => e.2 <> n) open_list))
                (key_of W (end_ G) n gn rn, n)
  else heapify (filter (fun e : entry => e.2 <> n) open_list).

(** The local variables of [lpa_star] together with the state tags of the
    node objects. *)
Record LoopState : Type := mkLoopState {
  rhs : dict;
  g : dict;
  open_list : list entry;
  topKey : key;
  run : bool;
  tags : states
}.

(** [{node: float("inf") for row in grid.grid for node in row}]. *)
Definition all_inf : dict :=
  foldr (fun n d => <[n := Inf]> d) ∅ (concat (grid G)).

(** The statements of [lpa_star] before the loop. *)
Definition lpa_init (st : states) : result LoopState :=
  let rhs := all_inf in
  let g := all_inf in
  let rhs := <[start G := Num 0]> rhs in
  do topKey <- calc_key W (end_ G) (start G) g rhs;
  Ok {| rhs := rhs; g := g; open_list := [(topKey, start G)];
        topKey := topKey; run := true; tags := st |}.

(** [topKey < calc_key(grid.end, grid.end, g, rhs) or rhs[grid.end] != g[grid.end]]. *)
Definition unsettled (s : LoopState) : result bool :=
  do ke <- calc_key W (end_ G) (end_ G) (g s) (rhs s);
  if key_ltb (topKey s) ke then Ok true
  else
    do re <- get (rhs s) (end_ G);
    do ge <- get (g s) (end_ G);
    Ok (cost_neqb re ge).

(** The whole [while] condition. *)
Definition loop_test (s : LoopState) : result bool :=
  do c <- unsettled s;
  Ok (c && run s).

(** The [for neighbor in node.neighbors] loop of [lpa_star]. *)
Fixpoint update_neighbors (nbrs : list node) (st : states) (rhs g : dict)
    (open_list : list entry) : result (states * dict * list entry) :=
  match nbrs with
  | [] => Ok (st, rhs, open_list)
  | neighbor :: rest =>
      let st := reopened st neighbor in
      do (rhs, open_list) <- update_vertex st neighbor rhs g open_list;
      update_neighbors rest st rhs g open_list
  end.

(** How one round of the loop body ends: at the end of the body, at the
    [break], or, in the model only, with the path walk cut off. *)
Inductive iteration : Type :=
  | Next (s : LoopState)
  | NoPath (s : LoopState)
  | Unfinished.

(** Modelled from the spec: [check] is imported from the module [RP] of
    the package [main/algorithms], which is not among the sources (the
    sources hold [main/testing/RP.py] only).  Section 6 of the spec gives
    the poll as a cancellation query that returns the boolean "continue
    running?"; [answer] is what the environment makes it return in this
    round. *)
Definition check (answer : bool) (run : bool) : result bool := Ok answer.

(** One round of the loop body.  [fuel] bounds the walk of
    [reconstruct_path]; [grid.draw()] has no effect on the modelled
    state. *)
Definition loop_body (answer : bool) (fuel : nat) (s : LoopState)
  : result iteration :=
  do run' <- check answer (run s);
  match open_list s with
  | [] =>
      Ok (NoPath {| rhs := rhs s; g := g s; open_list := []; topKey := topKey s;
                    run := run'; tags := tags s |})
  | _ :: _ =>
      match heappop (open_list s) with
      | None => Raise IndexError
      | Some ((topKey', n), ol) =>
          do gn <- get (g s) n;
          do rn <- get (rhs s) n;
          do (g', rhs', ol') <-
            (if cost_ltb rn gn then Ok (<[n := rn]> (g s), rhs s, ol)
             else
               let g' := <[n := Inf]> (g s) in
               do (rhs', ol') <- update_vertex (tags s) n (rhs s) g' ol;
               Ok (g', rhs', ol'));
          do (st, rhs'', ol'') <-
            update_neighbors (neighbors W n) (tags s) rhs' g' ol';
          let st := marked st n in
          if decide (n = end_ G) then
            match reconstruct_path fuel W n rhs'' st with
            | (st', Returned) =>
                Ok (Next {| rhs := rhs''; g := g'; open_list := ol'';
                            topKey := topKey'; run := run'; tags := st' |})
            | (_, Raised e) => Raise e
            | (_, OutOfFuel) => Ok Unfinished
            end
          else
            Ok (Next {| rhs := rhs''; g := g'; open_list := ol'';
                        topKey := topKey'; run := run'; tags := st |})
      end
  end.

(** How a call of [lpa_star] ends. *)
Inductive outcome : Type :=
  | Converged (s : LoopState)
  | Cancelled (s : LoopState)
  | Exhausted (s : LoopState)
  | Cutoff.

(** The [while] loop, cut off after [rounds] rounds; [answers i] is what
    the cancellation poll returns in round [i]. *)
Fixpoint lpa_loop (rounds : nat) (answers : nat -> bool) (fuel : nat)
    (s : LoopState) : result outcome :=
  do c <- unsettled s;
  if negb c then Ok (Converged s)
  else if negb (run s) then Ok (Cancelled s)
  else
    match rounds with
    | O => Ok Cutoff
    | S rounds' =>
        do it <- loop_body (answers 0%nat) fuel s;
        match it with
        | Next s' => lpa_loop rounds' (fun i => answers (S i)) fuel s'
        | NoPath s' => Ok (Exhausted s')
        | Unfinished => Ok Cutoff
        end
    end.

Definition lpa_star (rounds : nat) (answers : nat -> bool) (fuel : nat)
    (st : states) : result outcome :=
  do s <- lpa_init st;
  lpa_loop rounds answers fuel s.

(** The states in which the [while] condition is evaluated. *)
Inductive reachable (st0 : states) : LoopState -> Prop :=
  | reach_init s :
      lpa_init st0 = Ok s -> reachable st0 s
  | reach_step s answer fuel s' :
      reachable st0 s ->
      loop_test s = Ok true ->
      loop_body answer fuel s = Ok (Next s') ->
      reachable st0 s'.

(** The two branches of [if g[node] > rhs[node]]. *)
Definition branch (st : states) (n : node) (rhs g : dict) (ol : list entry)
    (gn rn : cost) (g' rhs' : dict) (ol' : list entry) : Prop :=
  (cost_ltb rn gn = true /\ g' = <[n := rn]> g /\ rhs' = rhs /\ ol' = ol)
  \/ (cost_ltb rn gn = false /\ g' = <[n := Inf]> g
      /\ update_vertex st n rhs g' ol = Ok (rhs', ol')).

(** *** Invariants of the loop *)

(** Every entry carries the key that [calc_key] gives its node now. *)
Definition fresh_keys (rhs g : dict) (ol : list entry) : Prop :=
  forall k n, (k, n) ∈ ol ->
    exists gn rn, g !! n = Some gn /\ rhs !! n = Some rn
                  /\ k = key_of W (end_ G) n gn rn.

(** The open list holds one entry for each inconsistent node and nothing
    else, in heap layout. *)
Record queue_ok (rhs g : dict) (ol : list entry) : Prop := {
  queue_nodup : NoDup ol.*2;
  queue_iff : forall n, n ∈ ol.*2 <-> g !! n <> rhs !! n;
  queue_fresh : fresh_keys rhs g ol;
  queue_heap : is_heap ol
}.

(** The same with one node [x] left out of account. *)
Record queue_ok_but (x : node) (rhs g : dict) (ol : list entry) : Prop := {
  but_nodup : NoDup ol.*2;
  but_absent : x ∉ ol.*2;
  but_iff : forall n, n <> x -> (n ∈ ol.*2 <-> g !! n <> rhs !! n);
  but_fresh : fresh_keys rhs g ol;
  but_heap : is_heap ol
}.

(** The two costs of the start node. *)
Definition start_ok (rhs g : dict) : Prop :=
  rhs !! start G = Some (Num 0)
  /\ (g !! start G = Some Inf \/ g !! start G = Some (Num 0)).

(** Modelled from the spec: the [Grid] class, which builds the neighbour
    lists, is not among the sources.  The spec (sections 2 and 3) has the
    nodes as the cells of a grid with their adjacency: a cell is a neighbour
    of its neighbours and not of itself. *)
Record grid_ok : Prop := {
  grid_symmetric : forall u v, v ∈ neighbors W u -> u ∈ neighbors W v;
  grid_irreflexive : forall u, u ∉ neighbors W u
}.

(** The nodes tagged Start and End are [grid.start] and [grid.end]. *)
Record tags_ok (st : states) : Prop := {
  tag_start : forall n, is_start (st n) = true <-> n = start G;
  tag_end : forall n, is_end (st n) = true <-> n = end_ G
}.

(** [x] is the least [g[neighbor] + 1] over the counted neighbours of [v],
    infinity included. *)
Definition lookahead_is (st : states) (g : dict) (v : node) (x : cost) : Prop :=
  (forall nb c, nb ∈ neighbors W v -> counted W st nb = true ->
                g !! nb = Some c -> cost_ltb (cost_add c 1) x = false)
  /\ (x = Inf
      \/ exists nb c, nb ∈ neighbors W v /\ counted W st nb = true
                      /\ g !! nb = Some c /\ x = cost_add c 1).

(** Outside of [skip], [rhs] holds the lookahead of every node but the
    start node. *)
Definition fresh_rhs (skip : list node) (st : states) (g rhs : dict) : Prop :=
  forall v x, v <> start G -> v ∉ skip -> rhs !! v = Some x ->
              lookahead_is st g v x.

(** A node with a finite [g] is Checked, Unchecked, Start or End. *)
Definition finite_open (st : states) (g : dict) : Prop :=
  forall n c, g !! n = Some (Num c) ->
              open_tag (st n) = true \/ is_end (st n) = true.

(** So is a node on the open list. *)
Definition queued_open (st : states) (ol : list entry) : Prop :=
  forall n, n ∈ ol.*2 -> open_tag (st n) = true \/ is_end (st n) = true.

(** What [uncheck] and [check] do to the tags in the course of a round. *)
Definition tags_step (st st' : states) : Prop :=
  forall m, is_start (st' m) = is_start (st m)
            /\ is_end (st' m) = is_end (st m)
            /\ (open_tag (st m) = true -> open_tag (st' m) = true).

(** The loop states in which the end node has not been taken off the open
    list yet. *)
Record searching (s : LoopState) : Prop := {
  s_queue : queue_ok (rhs s) (g s) (open_list s);
  s_start : start_ok (rhs s) (g s);
  s_tags : tags_ok (tags s);
  s_goal : g s !! end_ G = Some Inf;
  s_top : exists a b, topKey s = (Num a, b);
  s_open : finite_open (tags s) (g s);
  s_queued : queued_open (tags s) (open_list s);
  s_fresh : fresh_rhs [] (tags s) (g s) (rhs s)
}.

(** The end node is consistent and no entry of the open list has a key,
    computed by [calc_key] from the present [g] and [rhs], below the key of
    the end node. *)
Definition settled (s : LoopState) : Prop :=
  g s !! end_ G = rhs s !! end_ G
  /\ exists ke,
       calc_key W (end_ G) (end_ G) (g s) (rhs s) = Ok ke
       /\ forall k n, (k, n) ∈ open_list s ->
            exists kn, calc_key W (end_ G) n (g s) (rhs s) = Ok kn
                       /\ key_ltb kn ke = false.

(** *** What the search keeps true beyond the open list *)

(** [rhs[n]] is never above [g[n]]. *)
Definition never_under (rhs g : dict) : Prop :=
  forall n gn rn,
    g !! n = Some gn -> rhs !! n = Some rn -> cost_ltb gn rn = false.

(** [trail g p n c]: [p] lists, from [n] back to the start node, the nodes
    of a path of [c] steps on which no node occurs twice, each node is on
    the neighbour list of the next one towards [n], and [g] of a node is at
    most the number of steps that lead to it. *)
Inductive trail (g : dict) : list node -> node -> Z -> Prop :=
  | trail_start x :
      g !! start G = Some (Num x) -> x <= 0 ->
      trail g [start G] (start G) 0
  | trail_step p u v c x :
      trail g p u c -> u ∈ neighbors W v -> v ∉ p ->
      g !! v = Some (Num x) -> x <= c + 1 ->
      trail g (v :: p) v (c + 1).

(** Every finite [g] is the length of a trail. *)
Definition traced (g : dict) : Prop :=
  forall n c, g !! n = Some (Num c) -> exists p, trail g p n c.

(** The two dictionaries have the same keys. *)
Definition same_keys (rhs g : dict) : Prop :=
  forall n, is_Some (g !! n) <-> is_Some (rhs !! n).

(** [g'] has the keys of [g] and is nowhere above it. *)
Definition lowered (g g' : dict) : Prop :=
  forall m x, g !! m = Some x ->
    exists x', g' !! m = Some x' /\ cost_ltb x x' = false.

(** A node with a finite [g] is tagged Checked, Start or End. *)
Definition finite_checked (st : states) (g : dict) : Prop :=
  forall n c, g !! n = Some (Num c) ->
    is_checked (st n) || is_start (st n) || is_end (st n) = true.

(** The neighbours of a node with a finite [g] are keys of [g]. *)
Definition closed (g : dict) : Prop :=
  forall n c nb,
    g !! n = Some (Num c) -> nb ∈ neighbors W n -> is_Some (g !! nb).

(** What holds of the two dictionaries whenever the [while] condition is
    evaluated. *)
Record sound (s : LoopState) : Prop := {
  so_under : never_under (rhs s) (g s);
  so_traced : traced (g s);
  so_keys : same_keys (rhs s) (g s);
  so_closed : closed (g s)
}.

(** [b] is on the neighbour list of [a]. *)
Definition adjacent (a b : node) : Prop := b ∈ neighbors W a.

(** Modelled from the spec: the [Grid] class, which builds the neighbour
    lists, is not among the sources.  The spec (sections 3 and 4.2) has the
    neighbours of a cell as the cells next to it, at unit edge cost: no
    neighbour is more than one step away in the Manhattan distance. *)
Definition unit_steps : Prop :=
  forall u v, v ∈ neighbors W u -> RP.manhattan W u v <= 1.

(** Modelled from the spec: the [Grid] class is not among the sources.  The
    spec (section 3) has the grid own all nodes: the two distinguished nodes
    are nodes of [grid.grid], and so are the neighbours of its nodes. *)
Record grid_closed : Prop := {
  closed_start : start G ∈ concat (grid G);
  closed_end : end_ G ∈ concat (grid G);
  closed_neighbors : forall n nb,
    n ∈ concat (grid G) -> nb ∈ neighbors W n -> nb ∈ concat (grid G)
}.

(** The keys of a dictionary are the nodes of [grid.grid]. *)
Definition keyed (g : dict) : Prop :=
  forall n, is_Some (g !! n) <-> n ∈ concat (grid G).

(** Costs and tags under which the walk of [reconstruct_path] goes down:
    a node of finite cost at most [y] that is not tagged Start has a
    neighbour tagged Checked or Start of smaller cost, and no finite cost is
    negative. *)
Record descends (st : states) (costs : dict) (y : Z) : Prop := {
  down_step : forall v yv,
    costs !! v = Some (Num yv) -> yv <= y -> is_start (st v) = false ->
    exists nb z, nb ∈ neighbors W v
                 /\ is_checked (st nb) || is_start (st nb) = true
                 /\ costs !! nb = Some (Num z) /\ z < yv;
  down_nonneg : forall v yv, costs !! v = Some (Num yv) -> 0 <= yv;
  down_keys : forall v nb,
    is_Some (costs !! v) -> nb ∈ neighbors W v -> is_Some (costs !! nb)
}.

(** The measure that goes down in every round of the search: the sum of the
    [g] of the nodes in [L], an infinite [g] counting as [N]. *)
Definition weight (N : nat) (c : cost) : nat :=
  match c with
  | Inf => N
  | Num z => Z.to_nat z
  end.

Definition potential (N : nat) (L : list node) (g : dict) : nat :=
  sum_list ((fun n => weight N (default Inf (g !! n))) <$> L).

(** [route a p b]: the nodes of [p], taken in order after [a], are a path
    along neighbour lists that ends in [b]. *)
Fixpoint route (a : node) (p : list node) (b : node) : Prop :=
  match p with
  | [] => a = b
  | x :: rest => x ∈ neighbors W a /\ route x rest b
  end.

End Engine.

End LPAStar.

(** ** Concrete grids *)

Module Examples.

Import LPAStar.

(** Four cells: the start node 0, a free cell 1, the end node 2 in one row,
    and a free cell 3 below cell 1. *)
Definition junction : Nodes := {|
  get_pos := fun n =>
    match n with
    | 3%nat => (1, 1)
    | _ => (0, Z.of_nat n)
    end;
  neighbors := fun n =>
    match n with
    | 0%nat => [1%nat]
    | 1%nat => [0%nat; 2%nat; 3%nat]
    | 2%nat => [1%nat]
    | 3%nat => [1%nat]
    | _ => []
    end;
  been_checked := fun _ => false
|}.

Definition junction_grid : Grid :=
  {| grid := [[0%nat; 1%nat; 2%nat]; [3%nat]]; start := 0%nat; end_ := 2%nat |}.

Definition junction_tags : states :=
  fun n =>
    match n with
    | 0%nat => Start
    | 2%nat => End
    | _ => Unchecked
    end.

(** The two dictionaries of the junction after the start node has been
    taken off the open list and before its neighbour is updated. *)
Definition junction_g : dict :=
  <[0%nat := Num 0]> (<[1%nat := Inf]> (<[2%nat := Inf]> (<[3%nat := Inf]> ∅))).
Definition junction_rhs : dict :=
  <[0%nat := Num 0]> (<[1%nat := Inf]> (<[2%nat := Inf]> (<[3%nat := Inf]> ∅))).

(** A partial tree on the junction: cell 1 is Checked, and no node is tagged
    Start. *)
Definition partial_tags : states :=
  fun n =>
    match n with
    | 1%nat => Checked
    | 2%nat => End
    | _ => Unchecked
    end.

(** An end node all of whose neighbours are barriers, so that its neighbour
    list is empty. *)
Definition walled : Nodes := {|
  get_pos := fun n => (0, Z.of_nat n);
  neighbors := fun _ => [];
  been_checked := fun _ => false
|}.

Definition walled_tags : states :=
  fun n =>
    match n with
    | 0%nat => Start
    | 2%nat => End
    | _ => Barrier
    end.

(** Python numbers with rationals standing in for the floats, and a power
    that is only right for the exponent zero: enough to run [minkowski] at
    [p = 0]. *)
Definition pow0 (a b : RP.number Q) : result (RP.number Q) := Ok (RP.Int 1).
Definition add0 (a b : RP.number Q) : RP.number Q :=
  match a, b with
  | RP.Int x, RP.Int y => RP.Int (x + y)
  | _, _ => a
  end.
Definition quotient0 (a b : RP.number Q) : Q := inject_Z 0.

(** Two dictionaries [came_from] on the cells of the junction: a chain from
    cell 3 over cell 1 to the start node, and two cells that point at each
    other. *)
Definition route_from : gmap node node := <[3%nat := 1%nat]> (<[1%nat := 0%nat]> ∅).
Definition ring_from : gmap node node := <[1%nat := 3%nat]> (<[3%nat := 1%nat]> ∅).

(** A stand-in for [math.sqrt] that is only right for the argument zero. *)
Definition sqrt0 (z : Z) : result Q := Ok (inject_Z 0).

(** The junction with a grid that leaves out the end node. *)
Definition short_grid : Grid :=
  {| grid := [[0%nat; 1%nat]]; start := 0%nat; end_ := 2%nat |}.

(** The grid of the walled-off end node. *)
Definition walled_grid : Grid :=
  {| grid := [[0%nat; 1%nat; 2%nat]]; start := 0%nat; end_ := 2%nat |}.




End Examples.

(** * Properties *)

(** ** The error monad and the state tags *)

Lemma bind_Ok_inv {A B : Type} (m : result A) (k : A -> result B) (b : B) :
  bind m k = Ok b -> exists a, m = Ok a /\ k a = Ok b.
Proof. destruct m as [a|e]; simpl; [eauto | discriminate]. Qed.

Lemma set_state_same st n s : set_state st n s n = s.
Proof. unfold set_state. by rewrite decide_True. Qed.

Lemma set_state_other st n s m : m <> n -> set_state st n s m = st m.
Proof. intros Hne. unfold set_state. by rewrite decide_False. Qed.

(** ** The heuristics of [RP.py] *)

Module RPFacts.

Import RP.

Lemma blocked_fold st l acc :
  fold_left (blocked_step st) l acc
  = acc - Z.of_nat (length (filter
        (fun n => negb (is_checked (st n)) && negb (is_unchecked (st n))) l)).
Proof.
  revert acc. induction l as [|n l IH]; intros acc; simpl.
  - lia.
  - rewrite IH. unfold blocked_step. rewrite filter_cons.
    destruct (negb (is_checked (st n)) && negb (is_unchecked (st n))); simpl; lia.
Qed.

Lemma filter_split_length {A} (p : A -> bool) (l : list A) :
  length l = (length (filter (fun x => p x) l)
              + length (filter (fun x => negb (p x)) l))%nat.
Proof.
  induction l as [|x l IH]; simpl; [done|].
  rewrite !filter_cons. destruct (p x); simpl; lia.
Qed.

(** C4, as the code has it: the penalty that [d_manhattan] adds to the
    Manhattan distance is the number of neighbours of [node1] that are
    Checked or Unchecked, that is, the length of the neighbour list minus the
    number of neighbours that are neither. *)
Theorem d_manhattan_penalty (W : Nodes) (st : states) (node1 node2 : node) :
  d_manhattan W st node1 node2
  = manhattan W node1 node2
    + Z.of_nat (length (filter
        (fun n => is_checked (st n) || is_unchecked (st n)) (neighbors W node1))).
Proof.
  unfold d_manhattan, manhattan.
  destruct (get_pos W node1) as [x1 y1], (get_pos W node2) as [x2 y2].
  rewrite blocked_fold.
  rewrite (filter_split_length
             (fun n => is_checked (st n) || is_unchecked (st n))
             (neighbors W node1)) at 1.
  assert (Heq : filter (fun n => negb (is_checked (st n) || is_unchecked (st n)))
                       (neighbors W node1)
                = filter (fun n => negb (is_checked (st n))
                                  && negb (is_unchecked (st n)))
                         (neighbors W node1)).
  { apply list_filter_iff. intros n. by rewrite negb_orb. }
  rewrite Heq. lia.
Qed.

(** C4, as the claim words it, fails on cell 1 of the junction: of its three
    neighbours the start and the end node are neither Checked nor Unchecked
    and cell 3 is Unchecked, so the claim gives a penalty of 2 where the code
    adds 1. *)
Lemma d_manhattan_counts_open_neighbours :
  d_manhattan Examples.junction Examples.junction_tags 1%nat 2%nat
  <> manhattan Examples.junction 1%nat 2%nat
     + Z.of_nat (length (filter
         (fun n => negb (is_checked (Examples.junction_tags n))
                   && negb (is_unchecked (Examples.junction_tags n)))
         (neighbors Examples.junction 1%nat))).
Proof. vm_compute. discriminate. Qed.

(** C10: on integer positions the matrix of [covariance_matrix] has
    determinant 0, which is below [1e-10], so [mahalanobis] returns
    [float("inf")] and never reaches the square root. *)
Theorem mahalanobis_is_inf (W : Nodes) (node1 node2 : node) :
  determinant_2x2 (covariance_matrix (get_pos W node1) (get_pos W node2)) = Ok 0
  /\ mahalanobis W node1 node2 = Ok DInf.
Proof.
  assert (Hdet : determinant_2x2
                   (covariance_matrix (get_pos W node1) (get_pos W node2)) = Ok 0).
  { unfold covariance_matrix.
    destruct (get_pos W node1) as [x1 y1], (get_pos W node2) as [x2 y2].
    unfold determinant_2x2, index2; simpl. f_equal. ring. }
  split; [exact Hdet|].
  unfold mahalanobis. rewrite Hdet. reflexivity.
Qed.

Section MinkowskiFacts.

Variable float : Type.
Variable float_is_zero : float -> bool.
Variable pow : number float -> number float -> result (number float).
Variable add : number float -> number float -> number float.
Variable quotient : number float -> number float -> float.

(** C9: with [p] equal to zero a call of [minkowski] never returns a
    number: it ends in an exception, and when the two powers
    [abs(..) ** p] go through, the exception is the [ZeroDivisionError]
    of [1 / p]. *)
Theorem minkowski_zero_raises (W : Nodes) (node1 node2 : node)
    (p : number float) :
  is_zero float float_is_zero p = true ->
  exists e,
    minkowski float float_is_zero pow add quotient W node1 node2 p = Raise e
    /\ ((forall z, is_Ok (pow (Int z) p)) -> e = ZeroDivisionError).
Proof.
  intros Hp. unfold minkowski.
  destruct (get_pos W node1) as [x1 y1], (get_pos W node2) as [x2 y2].
  destruct (pow (Int (Z.abs (x1 - x2))) p) as [d1|e1] eqn:E1; simpl.
  - destruct (pow (Int (Z.abs (y1 - y2))) p) as [d2|e2] eqn:E2; simpl.
    + unfold truediv. rewrite Hp. simpl. eauto.
    + exists e2. split; [done|]. intros Hall.
      destruct (Hall (Z.abs (y1 - y2))) as [v Hv]. congruence.
  - exists e1. split; [done|]. intros Hall.
    destruct (Hall (Z.abs (x1 - x2))) as [v Hv]. congruence.
Qed.

End MinkowskiFacts.

Lemma minkowski_zero_raises_witness :
  is_zero Q (Qeq_bool (inject_Z 0)) (Int 0) = true
  /\ exists e,
       minkowski Q (Qeq_bool (inject_Z 0)) Examples.pow0 Examples.add0
                 Examples.quotient0 Examples.junction 0%nat 2%nat (Int 0) = Raise e
       /\ ((forall z, is_Ok (Examples.pow0 (Int z) (Int 0))) -> e = ZeroDivisionError).
Proof.
  split; [reflexivity|].
  apply (minkowski_zero_raises Q (Qeq_bool (inject_Z 0)) Examples.pow0
           Examples.add0 Examples.quotient0 Examples.junction 0%nat 2%nat (Int 0)).
  reflexivity.
Defined.

Lemma manhattan_self W n : RP.manhattan W n n = 0.
Proof. unfold RP.manhattan. destruct (get_pos W n) as [x y]. lia. Qed.

Lemma manhattan_nonneg W n m : 0 <= RP.manhattan W n m.
Proof.
  unfold RP.manhattan. destruct (get_pos W n) as [x y], (get_pos W m) as [x' y'].
  lia.
Qed.

(** The [check] of [testing/RP.py] cannot be called with two arguments. *)
Lemma check_two_arguments (a b : node) (st : states) :
  check [a; b] st = Raise TypeError.
Proof. reflexivity. Qed.

End RPFacts.

(** ** The order on costs and keys *)

Ltac cost_cases :=
  intros; unfold key_ltb, cost_neqb, cost_min, cost_ltb in *;
  repeat match goal with
         | c : cost |- _ => destruct c
         | H : context [bool_decide _] |- _ => case_bool_decide
         | |- context [bool_decide _] => case_bool_decide
         | H : context [Z.ltb ?a ?b] |- _ => destruct (Z.ltb_spec a b)
         | |- context [Z.ltb ?a ?b] => destruct (Z.ltb_spec a b)
         end;
  simpl in *; simplify_eq; try done;
  repeat match goal with
         | H : Num ?a <> Num ?b |- _ =>
             assert (a <> b) by (intros ->; by apply H); clear H
         end;
  try lia; try (f_equal; lia).

Lemma cost_ltb_irrefl a : cost_ltb a a = false.
Proof. cost_cases. Qed.

Lemma cost_ltb_trans a b c :
  cost_ltb a b = true -> cost_ltb b c = true -> cost_ltb a c = true.
Proof. cost_cases. Qed.

Lemma cost_ltb_total a b :
  cost_ltb a b = false -> cost_ltb b a = false -> a = b.
Proof. cost_cases. Qed.

Lemma cost_neqb_true a b : cost_neqb a b = true <-> a <> b.
Proof. unfold cost_neqb. rewrite negb_true_iff, bool_decide_eq_false. done. Qed.

Lemma cost_neqb_false a b : cost_neqb a b = false <-> a = b.
Proof. unfold cost_neqb. rewrite negb_false_iff, bool_decide_eq_true. done. Qed.

Lemma cost_min_l a b : cost_ltb b a = false -> cost_min a b = a.
Proof. unfold cost_min. by intros ->. Qed.

Lemma cost_min_r a b : cost_ltb b a = true -> cost_min a b = b.
Proof. unfold cost_min. by intros ->. Qed.

Lemma key_ltb_irrefl (a : key) : key_ltb a a = false.
Proof. destruct a as [a1 a2]. cost_cases. Qed.

Lemma key_ltb_trans (a b c : key) :
  key_ltb a b = true -> key_ltb b c = true -> key_ltb a c = true.
Proof. destruct a as [a1 a2], b as [b1 b2], c as [c1 c2]. cost_cases. Qed.

(** [<=] on keys, read as "not greater", is transitive. *)
Lemma key_leb_trans (a b c : key) :
  key_ltb b a = false -> key_ltb c b = false -> key_ltb c a = false.
Proof. destruct a as [a1 a2], b as [b1 b2], c as [c1 c2]. cost_cases. Qed.

Lemma key_lt_le_trans (a b c : key) :
  key_ltb a b = true -> key_ltb c b = false -> key_ltb a c = true.
Proof. destruct a as [a1 a2], b as [b1 b2], c as [c1 c2]. cost_cases. Qed.

(** ** The reference open list meets the contract of [heapq] *)

Module ScanFacts.

Import Scan.

Lemma least_in best l : least best l ∈ best :: l.
Proof.
  revert best. induction l as [|x l IH]; intros best; simpl.
  - apply list_elem_of_here.
  - destruct (key_ltb x.1 best.1).
    + apply list_elem_of_further, IH.
    + pose proof (IH best) as Hb. apply elem_of_cons in Hb as [->|Hb].
      * apply list_elem_of_here.
      * by do 2 apply list_elem_of_further.
Qed.

Lemma least_le_best best l : key_ltb best.1 (least best l).1 = false.
Proof.
  revert best. induction l as [|x l IH]; intros best; simpl.
  - apply key_ltb_irrefl.
  - destruct (key_ltb x.1 best.1) eqn:E; [|apply IH].
    destruct (key_ltb best.1 (least x l).1) eqn:E'; [|done].
    pose proof (key_ltb_trans _ _ _ E E') as Hc. by rewrite IH in Hc.
Qed.

Lemma least_min best l y :
  y ∈ best :: l -> key_ltb y.1 (least best l).1 = false.
Proof.
  revert best. induction l as [|x l IH]; intros best Hy; simpl.
  - apply list_elem_of_singleton in Hy as ->. apply key_ltb_irrefl.
  - destruct (key_ltb x.1 best.1) eqn:E.
    + apply elem_of_cons in Hy as [->|Hy]; [|by apply IH].
      destruct (key_ltb best.1 (least x l).1) eqn:E'; [|done].
      pose proof (key_ltb_trans _ _ _ E E') as Hc.
      by rewrite least_le_best in Hc.
    + apply elem_of_cons in Hy as [->|Hy]; [apply least_le_best|].
      apply elem_of_cons in Hy as [->|Hy]; [|apply IH; set_solver].
      destruct (key_ltb x.1 (least best l).1) eqn:E'; [|done].
      pose proof (key_lt_le_trans _ _ _ E' (least_le_best best l)) as Hc.
      congruence.
Qed.

Lemma remove_first_perm x l : x ∈ l -> l ≡ₚ x :: remove_first x l.
Proof.
  induction l as [|y l IH]; intros Hx; [by apply elem_of_nil in Hx|].
  simpl. destruct (decide (y = x)) as [->|Hne]; [done|].
  apply elem_of_cons in Hx as [->|Hx]; [done|].
  rewrite (IH Hx) at 1. apply Permutation_swap.
Qed.

Lemma remove_first_subseteq x l : remove_first x l ⊆ l.
Proof.
  induction l as [|y l IH]; simpl; [done|].
  destruct (decide (y = x)) as [_|_].
  - intros z Hz. by apply list_elem_of_further.
  - intros z Hz. apply elem_of_cons in Hz as [->|Hz].
    + apply list_elem_of_here.
    + apply list_elem_of_further, IH, Hz.
Qed.

(** The contract of the open-list interface, for the reference
    implementation. *)
Lemma heapq_laws : HeapQLaws heapq.
Proof.
  split; simpl.
  - done.
  - done.
  - intros l x. symmetry. apply Permutation_cons_append.
  - done.
  - intros [|x l] Hl; [done|]. unfold pop. eauto.
  - intros [|x l] m l' Hpop; [done|]. unfold pop in Hpop. simplify_eq.
    apply remove_first_perm, least_in.
  - done.
  - intros [|x l] m l' _ Hpop y Hy; [done|]. unfold pop in Hpop. simplify_eq.
    apply least_min. by apply (remove_first_subseteq (least x l) (x :: l)).
  - done.
Qed.

End ScanFacts.

(** ** The engine of [LPAStar.py] *)

Module LPAStarFacts.

Import LPAStar.

Lemma get_Ok (d : dict) k v : get d k = Ok v <-> d !! k = Some v.
Proof. unfold get. destruct (d !! k); split; intros; simplify_eq; done. Qed.

Lemma get_lookup (d : dict) k v : d !! k = Some v -> get d k = Ok v.
Proof. apply get_Ok. Qed.

Lemma calc_key_eq W e n (g rhs : dict) gn rn :
  g !! n = Some gn -> rhs !! n = Some rn ->
  calc_key W e n g rhs = Ok (key_of W e n gn rn).
Proof.
  intros Hg Hr. unfold calc_key.
  rewrite (get_lookup _ _ _ Hg), (get_lookup _ _ _ Hr). done.
Qed.

Lemma calc_key_inv W e n (g rhs : dict) k :
  calc_key W e n g rhs = Ok k ->
  exists gn rn, g !! n = Some gn /\ rhs !! n = Some rn /\ k = key_of W e n gn rn.
Proof.
  unfold calc_key. intros Hk.
  apply bind_Ok_inv in Hk as (gn & Hg & Hk).
  apply bind_Ok_inv in Hk as (rn & Hr & Hk).
  apply get_Ok in Hg, Hr. simplify_eq. eauto.
Qed.

(** *** [reconstruct_path] *)

(** C3, as the code has it: when after any number of rounds the current
    node is not the start node and none of its neighbours is Checked or
    Start, [reconstruct_path] marks no further node as Path and ends by
    raising [ValueError] (the [min] of an empty list) instead of
    returning. *)
Theorem reconstruct_path_dead_end (k fuel : nat) (W : Nodes) (current : node)
    (costs : dict) (st : states) (last : node) (st' : states) :
  nsteps (path_round W costs) k (current, st) (last, st') ->
  is_start (st' last) = false ->
  get_checked_neighbors W st' last = [] ->
  reconstruct_path (S (k + fuel)) W current costs st = (st', Raised ValueError).
Proof.
  revert current st.
  induction k as [|k IH]; intros current st Hsteps Hs Hn.
  - inversion Hsteps; subst. simpl. rewrite Hs, Hn. reflexivity.
  - inversion Hsteps as [|? ? [next st1] ? Hround Hrest]; subst.
    destruct Hround as (Hcur & Hmin & Hnext & Hst1). simpl in *. subst st1.
    rewrite Hcur, Hmin, Hnext. by apply IH.
Qed.

Lemma reconstruct_path_dead_end_witness :
  nsteps (path_round Examples.junction Examples.junction_rhs) 1
    (2%nat, Examples.partial_tags)
    (1%nat, make_path Examples.partial_tags 1%nat)
  /\ is_start (make_path Examples.partial_tags 1%nat 1%nat) = false
  /\ get_checked_neighbors Examples.junction
       (make_path Examples.partial_tags 1%nat) 1%nat = []
  /\ reconstruct_path 4 Examples.junction 2%nat Examples.junction_rhs
       Examples.partial_tags
     = (make_path Examples.partial_tags 1%nat, Raised ValueError).
Proof.
  assert (Hsteps : nsteps (path_round Examples.junction Examples.junction_rhs) 1
                     (2%nat, Examples.partial_tags)
                     (1%nat, make_path Examples.partial_tags 1%nat)).
  { eapply nsteps_l; [|apply nsteps_O].
    split; [reflexivity|]. split; [vm_compute; reflexivity|].
    split; reflexivity. }
  split; [exact Hsteps|]. split; [reflexivity|]. split; [reflexivity|].
  apply (reconstruct_path_dead_end 1 2 Examples.junction 2%nat
           Examples.junction_rhs Examples.partial_tags 1%nat
           (make_path Examples.partial_tags 1%nat) Hsteps); reflexivity.
Defined.

(** C3, as the claim words it, fails on a walled-off end node: the call does
    not return normally. *)
Lemma reconstruct_path_walled_off_raises :
  (reconstruct_path 3 Examples.walled 2%nat ∅ Examples.walled_tags).2 <> Returned
  /\ (reconstruct_path 3 Examples.walled 2%nat ∅ Examples.walled_tags).2
     = Raised ValueError.
Proof. split; [discriminate | reflexivity]. Qed.

(** *** The loop of [update_vertex] *)

Lemma relax_eq W st (g : dict) n l (r : dict) c :
  r !! n = Some c ->
  relax W st g n l r = do v <- relax_value W st g l c; Ok (<[n := v]> r).
Proof.
  revert r c. induction l as [|nb l IH]; intros r c Hr; simpl.
  - by rewrite insert_id.
  - destruct (counted W st nb); [|by apply IH].
    rewrite (get_lookup _ _ _ Hr). simpl.
    destruct (get g nb) as [gn|e]; simpl; [|done].
    rewrite (IH _ (cost_min c (cost_add gn 1))) by apply lookup_insert_eq.
    destruct (relax_value W st g l (cost_min c (cost_add gn 1))); simpl; [|done].
    by rewrite insert_insert_eq.
Qed.

Lemma relax_value_le_acc W st (g : dict) l c v :
  relax_value W st g l c = Ok v -> cost_ltb c v = false.
Proof.
  revert c. induction l as [|nb l IH]; intros c Hv; simpl in Hv.
  - simplify_eq. apply cost_ltb_irrefl.
  - destruct (counted W st nb); [|by apply IH].
    apply bind_Ok_inv in Hv as (gn & _ & Hv). apply IH in Hv.
    revert Hv. generalize (cost_add gn 1). cost_cases.
Qed.

Lemma relax_value_lower W st (g : dict) l c v nb gn :
  relax_value W st g l c = Ok v ->
  nb ∈ l -> counted W st nb = true -> g !! nb = Some gn ->
  cost_ltb (cost_add gn 1) v = false.
Proof.
  revert c. induction l as [|x l IH]; intros c Hv Hin Hc Hg; simpl in Hv.
  - by apply elem_of_nil in Hin.
  - apply elem_of_cons in Hin as [->|Hin].
    + rewrite Hc in Hv. rewrite (get_lookup _ _ _ Hg) in Hv. simpl in Hv.
      apply relax_value_le_acc in Hv.
      revert Hv. generalize (cost_add gn 1). cost_cases.
    + destruct (counted W st x).
      * apply bind_Ok_inv in Hv as (gx & _ & Hv). by eapply IH.
      * by eapply IH.
Qed.

Lemma relax_value_attained W st (g : dict) l c v :
  relax_value W st g l c = Ok v ->
  v = c \/ exists nb gn,
             nb ∈ l /\ counted W st nb = true /\ g !! nb = Some gn
             /\ v = cost_add gn 1.
Proof.
  revert c. induction l as [|x l IH]; intros c Hv; simpl in Hv.
  - left. congruence.
  - destruct (counted W st x) eqn:Hc.
    + apply bind_Ok_inv in Hv as (gx & Hgx & Hv). apply get_Ok in Hgx.
      destruct (IH _ Hv) as [->|(nb & gn & Hin & Hcn & Hg & ->)].
      * unfold cost_min. destruct (cost_ltb (cost_add gx 1) c); [|by left].
        right. exists x, gx. split; [apply list_elem_of_here|done].
      * right. exists nb, gn. split; [by apply list_elem_of_further|done].
    + destruct (IH _ Hv) as [->|(nb & gn & Hin & Hcn & Hg & ->)]; [by left|].
      right. exists nb, gn. split; [by apply list_elem_of_further|done].
Qed.

Lemma relax_value_total W st (g : dict) l c :
  (forall nb, nb ∈ l -> counted W st nb = true -> is_Some (g !! nb)) ->
  is_Ok (relax_value W st g l c).
Proof.
  revert c. induction l as [|x l IH]; intros c Hdom; simpl.
  - by exists c.
  - assert (Hl : forall nb, nb ∈ l -> counted W st nb = true -> is_Some (g !! nb)).
    { intros nb Hin. apply Hdom. by apply list_elem_of_further. }
    destruct (counted W st x) eqn:Hc; [|by apply IH].
    destruct (Hdom x (list_elem_of_here _ _) Hc) as [gx Hgx].
    rewrite (get_lookup _ _ _ Hgx). simpl. by apply IH.
Qed.

Lemma relax_value_none_counted W st (g : dict) l c :
  (forall nb, nb ∈ l -> counted W st nb = false) ->
  relax_value W st g l c = Ok c.
Proof.
  induction l as [|x l IH]; intros Hn; simpl; [done|].
  rewrite (Hn x (list_elem_of_here _ _)). apply IH.
  intros nb Hin. apply Hn. by apply list_elem_of_further.
Qed.

Section EngineFacts.

Context {HQ : HeapQ} {HL : HeapQLaws HQ}.
Variable W : Nodes.
Variable G : Grid.

Lemma update_vertex_eq st n (rhs g : dict) ol :
  n <> start G ->
  update_vertex W G st n rhs g ol
  = do v <- lookahead W st g n;
    do gn <- get g n;
    Ok (<[n := v]> rhs, requeued W G n gn v ol).
Proof.
  intros Hn. unfold update_vertex, lookahead, requeued.
  rewrite decide_True by done.
  rewrite (relax_eq _ _ _ _ _ _ Inf) by apply lookup_insert_eq.
  destruct (relax_value W st g (neighbors W n) Inf) as [v|e]; simpl; [|done].
  rewrite insert_insert_eq.
  destruct (get g n) as [gn|e] eqn:Hg; simpl; [|done].
  rewrite (get_lookup _ n v) by apply lookup_insert_eq. simpl.
  destruct (cost_neqb gn v); [|done].
  apply get_Ok in Hg.
  rewrite (calc_key_eq _ _ _ _ _ gn v) by (done || apply lookup_insert_eq).
  done.
Qed.

Lemma update_vertex_start st (rhs g : dict) ol :
  update_vertex W G st (start G) rhs g ol = Ok (rhs, ol).
Proof. unfold update_vertex. by rewrite decide_False by (intros Hne; by apply Hne). Qed.

Lemma requeued_perm n gn v ol :
  requeued W G n gn v ol
  ≡ₚ (if cost_neqb gn v then [(key_of W (end_ G) n gn v, n)] else [])
     ++ filter (fun e : entry => e.2 <> n) ol.
Proof.
  unfold requeued. destruct (cost_neqb gn v); simpl.
  - by rewrite heappush_perm, heapify_perm.
  - apply heapify_perm.
Qed.

Lemma requeued_heap n gn v ol : is_heap (requeued W G n gn v ol).
Proof.
  unfold requeued. destruct (cost_neqb gn v).
  - apply heappush_heap, heapify_heap.
  - apply heapify_heap.
Qed.

Lemma filter_other_twice n (ol : list entry) :
  filter (fun e : entry => e.2 <> n) (filter (fun e : entry => e.2 <> n) ol)
  = filter (fun e : entry => e.2 <> n) ol.
Proof.
  induction ol as [|e ol IH]; [done|].
  rewrite filter_cons. destruct (decide (e.2 <> n)) as [Hne|Heq]; [|done].
  rewrite filter_cons, decide_True by done. by rewrite IH.
Qed.

(** *** One round of the loop, taken apart *)

Lemma loop_body_inv answer fuel s s' :
  loop_body W G answer fuel s = Ok (Next s') ->
  exists k n ol gn rn g' rhs' ol' st1,
    heappop (open_list s) = Some ((k, n), ol)
    /\ g s !! n = Some gn /\ rhs s !! n = Some rn
    /\ branch W G (tags s) n (rhs s) (g s) ol gn rn g' rhs' ol'
    /\ update_neighbors W G (neighbors W n) (tags s) rhs' g' ol'
       = Ok (st1, rhs s', open_list s')
    /\ g s' = g' /\ topKey s' = k /\ run s' = answer
    /\ ((n <> end_ G /\ tags s' = marked st1 n)
        \/ (n = end_ G
            /\ reconstruct_path fuel W n (rhs s') (marked st1 n)
               = (tags s', Returned))).
Proof.
  unfold loop_body, check. simpl. intros Hb.
  destruct (open_list s) as [|e0 l0] eqn:Hol; [done|].
  destruct (heappop (e0 :: l0)) as [[[k n] ol]|] eqn:Hpop; [|done].
  apply bind_Ok_inv in Hb as (gn & Hgn & Hb). apply get_Ok in Hgn.
  apply bind_Ok_inv in Hb as (rn & Hrn & Hb). apply get_Ok in Hrn.
  apply bind_Ok_inv in Hb as ([[g' rhs'] ol'] & Hbr & Hb).
  apply bind_Ok_inv in Hb as ([[st1 rhs''] ol''] & Hnb & Hb).
  exists k, n, ol, gn, rn, g', rhs', ol', st1.
  assert (Hbranch : branch W G (tags s) n (rhs s) (g s) ol gn rn g' rhs' ol').
  { unfold branch.
    destruct (cost_ltb rn gn); [left; by simplify_eq|right].
    apply bind_Ok_inv in Hbr as ([r2 o2] & Hu & Hbr). by simplify_eq. }
  destruct (decide (n = end_ G)) as [He|He].
  - destruct (reconstruct_path fuel W n rhs'' (marked st1 n)) as [st' [| |]] eqn:Hrp;
      simplify_eq; simpl.
    split; [done|]. split; [done|]. split; [done|]. split; [done|].
    split; [done|]. split; [done|]. split; [done|]. split; [done|].
    right. by split.
  - simplify_eq; simpl.
    split; [done|]. split; [done|]. split; [done|]. split; [done|].
    split; [done|]. split; [done|]. split; [done|]. split; [done|].
    left. by split.
Qed.

(** *** [rhs[start]] is never written *)

Lemma update_vertex_rhs_start st n (rhs g : dict) ol rhs' ol' :
  update_vertex W G st n rhs g ol = Ok (rhs', ol') ->
  rhs' !! start G = rhs !! start G.
Proof.
  intros Hu. destruct (decide (n = start G)) as [->|Hn].
  - rewrite update_vertex_start in Hu. by simplify_eq.
  - rewrite update_vertex_eq in Hu by done.
    apply bind_Ok_inv in Hu as (v & _ & Hu).
    apply bind_Ok_inv in Hu as (gn & _ & Hu). simplify_eq.
    by rewrite lookup_insert_ne.
Qed.

Lemma update_neighbors_rhs_start l st (rhs g : dict) ol st' rhs' ol' :
  update_neighbors W G l st rhs g ol = Ok (st', rhs', ol') ->
  rhs' !! start G = rhs !! start G.
Proof.
  revert st rhs ol. induction l as [|nb l IH]; intros st rhs ol Hu; simpl in Hu.
  - by simplify_eq.
  - apply bind_Ok_inv in Hu as ([r1 o1] & Hv & Hu).
    apply IH in Hu. rewrite Hu. by eapply update_vertex_rhs_start.
Qed.

Lemma loop_body_rhs_start answer fuel s s' :
  loop_body W G answer fuel s = Ok (Next s') ->
  rhs s' !! start G = rhs s !! start G.
Proof.
  intros Hb. apply loop_body_inv in Hb
    as (k & n & ol & gn & rn & g' & rhs' & ol' & st1 & _ & _ & _ & Hbr & Hnb & _).
  apply update_neighbors_rhs_start in Hnb. rewrite Hnb.
  destruct Hbr as [(_ & _ & -> & _)|(_ & _ & Hu)]; [done|].
  by eapply update_vertex_rhs_start.
Qed.

Lemma lpa_init_inv st0 s :
  lpa_init W G st0 = Ok s ->
  rhs s = <[start G := Num 0]> (all_inf G) /\ g s = all_inf G
  /\ g s !! start G = Some Inf
  /\ open_list s = [(topKey s, start G)]
  /\ topKey s = key_of W (end_ G) (start G) Inf (Num 0)
  /\ run s = true /\ tags s = st0.
Proof.
  unfold lpa_init. intros Hi.
  apply bind_Ok_inv in Hi as (k & Hk & Hi). simplify_eq. simpl.
  apply calc_key_inv in Hk as (gn & rn & Hg & Hr & ->).
  rewrite lookup_insert_eq in Hr. simplify_eq.
  assert (gn = Inf) as ->.
  { clear -Hg. unfold all_inf in Hg.
    induction (concat (grid G)) as [|x l IH]; simpl in Hg; [done|].
    destruct (decide (x = start G)) as [->|Hne].
    - rewrite lookup_insert_eq in Hg. congruence.
    - rewrite lookup_insert_ne in Hg by done. auto. }
  done.
Qed.

Lemma reachable_rhs_start st0 s :
  reachable W G st0 s -> rhs s !! start G = Some (Num 0).
Proof.
  induction 1 as [s Hi|s answer fuel s' _ IH _ Hb].
  - apply lpa_init_inv in Hi as (-> & _). apply lookup_insert_eq.
  - rewrite <- IH. by eapply loop_body_rhs_start.
Qed.

(** C8: no vertex update assigns [rhs[start]], and in every state in which
    the loop condition of [lpa_star] is evaluated [rhs[start]] is 0. *)
Theorem rhs_start_zero :
  (forall st n (rhs g : dict) ol rhs' ol',
      update_vertex W G st n rhs g ol = Ok (rhs', ol') ->
      rhs' !! start G = rhs !! start G)
  /\ (forall st0 s, reachable W G st0 s -> rhs s !! start G = Some (Num 0)).
Proof.
  split.
  - intros st n rhs g ol rhs' ol'. apply update_vertex_rhs_start.
  - apply reachable_rhs_start.
Qed.

(** *** The open list holds exactly the inconsistent nodes *)

Lemma nodes_filter_other (v m : node) (ol : list entry) :
  m ∈ (filter (fun e : entry => e.2 <> v) ol).*2 <-> m ∈ ol.*2 /\ m <> v.
Proof.
  rewrite !list_elem_of_fmap. split.
  - intros ([k x] & -> & Hin). apply list_elem_of_filter in Hin as [Hne Hin].
    split; [|done]. by exists (k, x).
  - intros [([k x] & -> & Hin) Hne]. exists (k, x). split; [done|].
    apply list_elem_of_filter. by split.
Qed.

Lemma nodup_filter_other (v : node) (ol : list entry) :
  NoDup ol.*2 -> NoDup (filter (fun e : entry => e.2 <> v) ol).*2.
Proof.
  intros Hnd. eapply sublist_NoDup; [exact Hnd|apply fmap_sublist, sublist_filter].
Qed.

Lemma requeued_entries n gn v ol (e : entry) :
  e ∈ requeued W G n gn v ol
  <-> (e = (key_of W (end_ G) n gn v, n) /\ gn <> v) \/ (e ∈ ol /\ e.2 <> n).
Proof.
  rewrite requeued_perm, elem_of_app, list_elem_of_filter.
  destruct (cost_neqb gn v) eqn:Hc.
  - apply cost_neqb_true in Hc. rewrite list_elem_of_singleton. intuition (subst; auto; congruence).
  - apply cost_neqb_false in Hc. rewrite elem_of_nil. intuition (subst; auto; congruence).
Qed.

Lemma requeued_nodes n gn v ol (m : node) :
  m ∈ (requeued W G n gn v ol).*2
  <-> (m = n /\ gn <> v) \/ (m ∈ ol.*2 /\ m <> n).
Proof.
  rewrite requeued_perm, fmap_app, elem_of_app, nodes_filter_other.
  destruct (cost_neqb gn v) eqn:Hc.
  - apply cost_neqb_true in Hc. simpl. rewrite list_elem_of_singleton. intuition (subst; auto; congruence).
  - apply cost_neqb_false in Hc. simpl. rewrite elem_of_nil. intuition (subst; auto; congruence).
Qed.

Lemma requeued_nodup n gn v ol :
  NoDup ol.*2 -> NoDup (requeued W G n gn v ol).*2.
Proof.
  intros Hnd. rewrite requeued_perm, fmap_app. apply NoDup_app.
  split; [|split].
  - destruct (cost_neqb gn v); simpl; [apply NoDup_singleton | apply NoDup_nil_2].
  - intros m Hm Hm'. apply nodes_filter_other in Hm' as [_ Hne].
    destruct (cost_neqb gn v); simpl in Hm.
    + apply list_elem_of_singleton in Hm. done.
    + by apply elem_of_nil in Hm.
  - by apply nodup_filter_other.
Qed.

(** A vertex update on [n] puts the open list right at [n], whatever it
    held for [n] before. *)
Lemma update_vertex_restores st n (rhs g : dict) ol rhs' ol' :
  n <> start G ->
  NoDup ol.*2 ->
  (forall m, m <> n -> (m ∈ ol.*2 <-> g !! m <> rhs !! m)) ->
  (forall k m, (k, m) ∈ ol -> m <> n ->
     exists gm rm, g !! m = Some gm /\ rhs !! m = Some rm
                   /\ k = key_of W (end_ G) m gm rm) ->
  update_vertex W G st n rhs g ol = Ok (rhs', ol') ->
  queue_ok W G rhs' g ol'.
Proof.
  intros Hn Hnd Hiff Hfresh Hu.
  rewrite update_vertex_eq in Hu by done.
  apply bind_Ok_inv in Hu as (v & Hv & Hu).
  apply bind_Ok_inv in Hu as (gn & Hgn & Hu). apply get_Ok in Hgn. simplify_eq.
  split.
  - by apply requeued_nodup.
  - intros m. rewrite requeued_nodes.
    destruct (decide (m = n)) as [->|Hm].
    + rewrite lookup_insert_eq, Hgn. intuition (subst; auto; congruence).
    + rewrite lookup_insert_ne by done. rewrite <- (Hiff m Hm). intuition (subst; auto; congruence).
  - intros k m Hin. apply requeued_entries in Hin as [[Heq Hne]|[Hin Hm]].
    + simplify_eq. exists gn, v. by rewrite lookup_insert_eq.
    + simpl in Hm. destruct (Hfresh k m Hin Hm) as (gm & rm & Hg & Hr & ->).
      exists gm, rm. by rewrite lookup_insert_ne.
  - apply requeued_heap.
Qed.

Lemma update_vertex_queue_ok st n (rhs g : dict) ol rhs' ol' :
  queue_ok W G rhs g ol ->
  update_vertex W G st n rhs g ol = Ok (rhs', ol') ->
  queue_ok W G rhs' g ol'.
Proof.
  intros [Hnd Hiff Hfresh Hheap] Hu.
  destruct (decide (n = start G)) as [->|Hn].
  - rewrite update_vertex_start in Hu. by simplify_eq.
  - eapply update_vertex_restores; eauto.
Qed.

Lemma update_neighbors_queue_ok l st (rhs g : dict) ol st' rhs' ol' :
  queue_ok W G rhs g ol ->
  update_neighbors W G l st rhs g ol = Ok (st', rhs', ol') ->
  queue_ok W G rhs' g ol'.
Proof.
  revert st rhs ol. induction l as [|nb l IH]; intros st rhs ol Hq Hu; simpl in Hu.
  - by simplify_eq.
  - apply bind_Ok_inv in Hu as ([r1 o1] & Hv & Hu).
    eapply IH; [|exact Hu]. by eapply update_vertex_queue_ok.
Qed.

Lemma heappop_queue_ok (rhs g : dict) ol k n ol' :
  queue_ok W G rhs g ol ->
  heappop ol = Some ((k, n), ol') ->
  queue_ok_but W G n rhs g ol'
  /\ g !! n <> rhs !! n
  /\ (exists gn rn, g !! n = Some gn /\ rhs !! n = Some rn
                    /\ k = key_of W (end_ G) n gn rn)
  /\ (forall e, e ∈ ol' -> e ∈ ol /\ key_ltb e.1 k = false).
Proof.
  intros [Hnd Hiff Hfresh Hheap] Hpop.
  pose proof (heappop_perm _ _ _ Hpop) as Hperm.
  assert (Hnd' : NoDup (n :: ol'.*2)).
  { change (NoDup ((k, n) :: ol').*2). by rewrite <- Hperm. }
  apply NoDup_cons in Hnd' as [Hnot Hnd'].
  assert (Hmem : forall m, m ∈ ol.*2 <-> m = n \/ m ∈ ol'.*2).
  { intros m. rewrite Hperm. simpl. apply elem_of_cons. }
  assert (Hsub : forall e, e ∈ ol' -> e ∈ ol).
  { intros e He. rewrite Hperm. by apply list_elem_of_further. }
  split; [split|split; [|split]].
  - done.
  - done.
  - intros m Hm. rewrite <- Hiff, Hmem. intuition (subst; auto; congruence).
  - intros k' m Hin. apply Hfresh. by apply Hsub.
  - by eapply heappop_heap.
  - apply Hiff, Hmem. by left.
  - apply Hfresh. rewrite Hperm. apply list_elem_of_here.
  - intros e He. split; [by apply Hsub|].
    apply (heappop_min _ _ _ Hheap Hpop e He).
Qed.

(** The popped node is made consistent: [g[node] = rhs[node]]. *)
Lemma settle_queue_ok (rhs g : dict) ol n rn :
  queue_ok_but W G n rhs g ol ->
  rhs !! n = Some rn ->
  queue_ok W G rhs (<[n := rn]> g) ol.
Proof.
  intros [Hnd Habs Hiff Hfresh Hheap] Hr. split; [done| | |done].
  - intros m. destruct (decide (m = n)) as [->|Hm].
    + rewrite lookup_insert_eq, Hr. intuition (subst; auto; congruence).
    + rewrite lookup_insert_ne by done. by apply Hiff.
  - intros k m Hin. destruct (Hfresh k m Hin) as (gm & rm & Hg & Hrm & ->).
    exists gm, rm. rewrite lookup_insert_ne; [done|].
    intros <-. apply Habs. apply list_elem_of_fmap. by exists (key_of W (end_ G) n gm rm, n).
Qed.

(** The popped node is reset, [g[node] = inf], and updated. *)
Lemma reset_queue_ok st (rhs g : dict) ol n rhs' ol' :
  n <> start G ->
  queue_ok_but W G n rhs g ol ->
  update_vertex W G st n rhs (<[n := Inf]> g) ol = Ok (rhs', ol') ->
  queue_ok W G rhs' (<[n := Inf]> g) ol'.
Proof.
  intros Hn [Hnd Habs Hiff Hfresh Hheap] Hu.
  eapply update_vertex_restores; [done|done| | |exact Hu].
  - intros m Hm. rewrite lookup_insert_ne by done. by apply Hiff.
  - intros k m Hin Hm. destruct (Hfresh k m Hin) as (gm & rm & Hg & Hrm & ->).
    exists gm, rm. by rewrite lookup_insert_ne.
Qed.

(** *** The popped node *)

Lemma start_settles (rhs g : dict) gn rn :
  start_ok G rhs g ->
  g !! start G <> rhs !! start G ->
  g !! start G = Some gn -> rhs !! start G = Some rn ->
  cost_ltb rn gn = true.
Proof.
  intros [Hr Hg] Hne Hgn Hrn. rewrite Hr in Hrn. simplify_eq.
  destruct Hg as [Hg|Hg]; rewrite Hg in Hgn; simplify_eq; [done|].
  exfalso. apply Hne. by rewrite Hg, Hr.
Qed.

Lemma branch_queue_ok st (rhs g : dict) ol0 k n ol gn rn g' rhs' ol' :
  queue_ok W G rhs g ol0 -> start_ok G rhs g ->
  heappop ol0 = Some ((k, n), ol) ->
  g !! n = Some gn -> rhs !! n = Some rn ->
  branch W G st n rhs g ol gn rn g' rhs' ol' ->
  queue_ok W G rhs' g' ol' /\ start_ok G rhs' g'.
Proof.
  intros Hq Hs Hpop Hgn Hrn Hbr.
  edestruct heappop_queue_ok as (Hbut & Hinc & _ & _); [exact Hq|exact Hpop|].
  pose proof Hs as [Hrs Hgs].
  destruct Hbr as [(Hlt & -> & -> & ->)|(Hlt & -> & Hu)].
  - split; [by apply settle_queue_ok|]. split; [done|].
    destruct (decide (n = start G)) as [->|Hn].
    + rewrite lookup_insert_eq. right. congruence.
    + by rewrite lookup_insert_ne.
  - assert (Hn : n <> start G).
    { intros ->. rewrite (start_settles _ _ _ _ Hs Hinc Hgn Hrn) in Hlt. done. }
    split; [by eapply reset_queue_ok|]. split.
    + rewrite <- Hrs. by eapply update_vertex_rhs_start.
    + by rewrite lookup_insert_ne.
Qed.

Lemma loop_body_queue_ok answer fuel s s' :
  queue_ok W G (rhs s) (g s) (open_list s) ->
  start_ok G (rhs s) (g s) ->
  loop_body W G answer fuel s = Ok (Next s') ->
  queue_ok W G (rhs s') (g s') (open_list s')
  /\ start_ok G (rhs s') (g s').
Proof.
  intros Hq Hs Hb.
  apply loop_body_inv in Hb
    as (k & n & ol & gn & rn & g' & rhs' & ol' & st1 & Hpop & Hgn & Hrn
        & Hbr & Hnb & Hg' & _).
  destruct (branch_queue_ok _ _ _ _ _ _ _ _ _ _ _ _ Hq Hs Hpop Hgn Hrn Hbr)
    as [Hq' [Hrs Hgs]].
  rewrite Hg'. split.
  - by eapply update_neighbors_queue_ok.
  - split; [|done]. rewrite <- Hrs. by eapply update_neighbors_rhs_start.
Qed.

Lemma lpa_init_queue_ok st0 s :
  lpa_init W G st0 = Ok s ->
  queue_ok W G (rhs s) (g s) (open_list s) /\ start_ok G (rhs s) (g s).
Proof.
  intros Hi. pose proof Hi as Hinit.
  apply lpa_init_inv in Hi as (Hr & Hg & Hgs & Hol & Hk & _).
  assert (Hrs : rhs s !! start G = Some (Num 0)).
  { rewrite Hr. apply lookup_insert_eq. }
  split; [|split; [done|by left]].
  rewrite Hol. split.
  - apply NoDup_singleton.
  - intros n. simpl. rewrite list_elem_of_singleton.
    destruct (decide (n = start G)) as [->|Hn].
    + rewrite Hgs, Hrs. intuition (subst; auto; congruence).
    + rewrite Hr, lookup_insert_ne by done. rewrite Hg. intuition (subst; auto; congruence).
  - intros k n Hin. apply list_elem_of_singleton in Hin. simplify_eq.
    exists Inf, (Num 0). by rewrite Hk.
  - apply is_heap_singleton.
Qed.

Lemma reachable_queue_ok st0 s :
  reachable W G st0 s ->
  queue_ok W G (rhs s) (g s) (open_list s) /\ start_ok G (rhs s) (g s).
Proof.
  induction 1 as [s Hi|s answer fuel s' _ [Hq Hs] _ Hb].
  - by eapply lpa_init_queue_ok.
  - by eapply loop_body_queue_ok.
Qed.

(** C6: whenever the loop condition of [lpa_star] is evaluated, the open
    list holds at most one entry per node, and a node has an entry exactly
    when [g[node] != rhs[node]]. *)
Theorem open_list_inconsistent st0 s :
  reachable W G st0 s ->
  NoDup (open_list s).*2
  /\ forall n, n ∈ (open_list s).*2 <-> g s !! n <> rhs s !! n.
Proof.
  intros Hr. destruct (reachable_queue_ok _ _ Hr) as [[Hnd Hiff _ _] _]. done.
Qed.

(** C5: for a node other than the start node, [update_vertex] stores in
    [rhs[node]] the least [g[neighbor] + 1] over the neighbours that are
    Checked, Start, Unchecked or End with [been_checked] (infinity when
    there is none), takes every entry of the node out of the open list and
    pushes [(calc_key(node), node)] exactly when [g[node] != rhs[node]]
    afterwards; for the start node it changes nothing. *)
Theorem update_vertex_spec st n (rhs g : dict) ol :
  (forall nb, nb ∈ neighbors W n -> counted W st nb = true -> is_Some (g !! nb)) ->
  is_Some (g !! n) ->
  (n = start G -> update_vertex W G st n rhs g ol = Ok (rhs, ol))
  /\ (n <> start G ->
      exists v gn rhs' ol',
        update_vertex W G st n rhs g ol = Ok (rhs', ol')
        /\ rhs' = <[n := v]> rhs
        /\ g !! n = Some gn
        /\ (forall nb c, nb ∈ neighbors W n -> counted W st nb = true ->
                         g !! nb = Some c -> cost_ltb (cost_add c 1) v = false)
        /\ ((exists nb c, nb ∈ neighbors W n /\ counted W st nb = true
                          /\ g !! nb = Some c /\ v = cost_add c 1)
            \/ (v = Inf /\ forall nb, nb ∈ neighbors W n -> counted W st nb = false))
        /\ (gn <> v ->
            exists k, calc_key W (end_ G) n g rhs' = Ok k
                      /\ ol' ≡ₚ (k, n) :: filter (fun e : entry => e.2 <> n) ol)
        /\ (gn = v -> ol' ≡ₚ filter (fun e : entry => e.2 <> n) ol)).
Proof.
  intros Hdom [gn Hgn]. split.
  - intros ->. apply update_vertex_start.
  - intros Hn.
    destruct (relax_value_total W st g (neighbors W n) Inf Hdom) as [v Hv].
    exists v, gn, (<[n := v]> rhs), (requeued W G n gn v ol).
    split; [|split; [done|split; [done|split; [|split; [|split]]]]].
    + rewrite update_vertex_eq by done. unfold lookahead. rewrite Hv. simpl.
      by rewrite (get_lookup _ _ _ Hgn).
    + intros nb c Hin Hc Hg. by eapply relax_value_lower.
    + destruct (relax_value_attained _ _ _ _ _ _ Hv) as [->|Hatt]; [|by left].
      destruct (filter (fun nb => counted W st nb) (neighbors W n)) as [|nb l] eqn:Hf.
      * right. split; [done|]. intros nb Hin.
        destruct (counted W st nb) eqn:Hc; [|done].
        assert (Hnb : nb ∈ filter (fun nb => counted W st nb) (neighbors W n)).
        { apply list_elem_of_filter. split; [by rewrite Hc|done]. }
        rewrite Hf in Hnb. by apply elem_of_nil in Hnb.
      * left.
        assert (Hnb : nb ∈ filter (fun nb => counted W st nb) (neighbors W n)).
        { rewrite Hf. apply list_elem_of_here. }
        apply list_elem_of_filter in Hnb as [Hc Hin].
        apply Is_true_true in Hc.
        destruct (Hdom nb Hin Hc) as [c Hg].
        exists nb, c. split; [done|split; [done|split; [done|]]].
        pose proof (relax_value_lower _ _ _ _ _ _ _ _ Hv Hin Hc Hg) as Hle.
        revert Hle. generalize (cost_add c 1). cost_cases.
    + intros Hne. exists (key_of W (end_ G) n gn v). split.
      * apply calc_key_eq; [done|apply lookup_insert_eq].
      * rewrite requeued_perm.
        by rewrite (proj2 (cost_neqb_true gn v) Hne).
    + intros Heq. rewrite requeued_perm.
      by rewrite (proj2 (cost_neqb_false gn v) Heq).
Qed.

(** C7: a second call of [update_vertex] on the same node, right after the
    first, leaves [rhs] as the first call left it and returns an open list
    with the same entries. *)
Theorem update_vertex_idempotent st n (rhs g : dict) ol rhs1 ol1 :
  update_vertex W G st n rhs g ol = Ok (rhs1, ol1) ->
  exists ol2,
    update_vertex W G st n rhs1 g ol1 = Ok (rhs1, ol2) /\ ol2 ≡ₚ ol1.
Proof.
  intros H1. destruct (decide (n = start G)) as [->|Hn].
  - rewrite update_vertex_start in H1. simplify_eq.
    exists ol1. by rewrite update_vertex_start.
  - rewrite update_vertex_eq in H1 by done.
    apply bind_Ok_inv in H1 as (v & Hv & H1).
    apply bind_Ok_inv in H1 as (gn & Hgn & H1). simplify_eq.
    exists (requeued W G n gn v (requeued W G n gn v ol)). split.
    + rewrite update_vertex_eq by done. rewrite Hv. simpl. rewrite Hgn. simpl.
      by rewrite insert_insert_eq.
    + rewrite (requeued_perm n gn v (requeued W G n gn v ol)).
      rewrite (requeued_perm n gn v ol) at 2.
      apply Permutation_app_head.
      rewrite (requeued_perm n gn v ol).
      rewrite filter_app, filter_other_twice.
      destruct (cost_neqb gn v); [|done].
      rewrite filter_cons, decide_False; [done|]. simpl. intros Hc. by apply Hc.
Qed.

(** *** Tags in the course of a round *)

Lemma counted_open W0 st n :
  counted W0 st n = open_tag (st n) || (is_end (st n) && been_checked W0 n).
Proof. reflexivity. Qed.

Lemma open_not_end (t : State) : open_tag t = true -> is_end t = true -> False.
Proof. by destruct t. Qed.

Lemma tags_step_refl st : tags_step st st.
Proof. by intros m. Qed.

Lemma tags_step_trans st1 st2 st3 :
  tags_step st1 st2 -> tags_step st2 st3 -> tags_step st1 st3.
Proof.
  intros H12 H23 m. destruct (H12 m) as (Hs & He & Ho), (H23 m) as (Hs' & He' & Ho').
  split; [congruence|]. split; [congruence|auto].
Qed.

Lemma tags_step_reopened st n : tags_step st (reopened st n).
Proof.
  intros m. unfold reopened.
  destruct (negb (is_start (st n)) && negb (is_end (st n))
            && negb (is_checked (st n))) eqn:Hc; [|done].
  unfold uncheck, set_state. destruct (decide (m = n)) as [->|Hm]; [|done].
  destruct (st n); done.
Qed.

Lemma reopened_open st n :
  open_tag (reopened st n n) = true \/ is_end (reopened st n n) = true.
Proof.
  unfold reopened.
  destruct (negb (is_start (st n)) && negb (is_end (st n))
            && negb (is_checked (st n))) eqn:Hc.
  - left. unfold uncheck. by rewrite set_state_same.
  - destruct (st n); simpl in *; auto.
Qed.

Lemma tags_step_marked st n : tags_step st (marked st n).
Proof.
  intros m. unfold marked.
  destruct (negb (is_start (st n)) && negb (is_end (st n))) eqn:Hc; [|done].
  unfold check_node, set_state. destruct (decide (m = n)) as [->|Hm]; [|done].
  destruct (st n); done.
Qed.

Lemma tags_step_ok st st' : tags_step st st' -> tags_ok G st -> tags_ok G st'.
Proof.
  intros Hst [Hs He]. split; intros n; destruct (Hst n) as (Hs' & He' & _).
  - rewrite Hs'. apply Hs.
  - rewrite He'. apply He.
Qed.

Lemma tags_step_open_or_end st st' n :
  tags_step st st' ->
  open_tag (st n) = true \/ is_end (st n) = true ->
  open_tag (st' n) = true \/ is_end (st' n) = true.
Proof.
  intros Hst [Ho|He]; destruct (Hst n) as (_ & He' & Ho'); [left; auto|right; congruence].
Qed.

Lemma tags_step_finite_open st st' (g : dict) :
  tags_step st st' -> finite_open st g -> finite_open st' g.
Proof. intros Hst Hf n c Hg. eapply tags_step_open_or_end; eauto. Qed.

Lemma tags_step_queued_open st st' (ol : list entry) :
  tags_step st st' -> queued_open st ol -> queued_open st' ol.
Proof. intros Hst Hq n Hn. eapply tags_step_open_or_end; eauto. Qed.

Lemma tags_step_counted st st' n :
  tags_step st st' -> counted W st n = true -> counted W st' n = true.
Proof.
  intros Hst. rewrite !counted_open. destruct (Hst n) as (_ & He & Ho).
  rewrite He. intros Hc. apply orb_true_iff in Hc as [Hc|Hc].
  - by rewrite Ho.
  - rewrite Hc. apply orb_true_r.
Qed.

(** A node that only came to count in this round has no finite [g]. *)
Lemma newly_counted_infinite st st' (g : dict) nb c :
  tags_step st st' -> finite_open st g ->
  counted W st' nb = true -> counted W st nb = false ->
  g !! nb = Some c -> c = Inf.
Proof.
  intros Hst Hf. rewrite !counted_open. destruct (Hst nb) as (_ & He & Ho).
  rewrite He. intros Hc' Hc Hg.
  apply orb_false_iff in Hc as [Hopen Hend].
  rewrite Hend, orb_false_r in Hc'.
  destruct c as [z|]; [|done]. exfalso.
  destruct (Hf nb z Hg) as [Ho1|He1]; [congruence|].
  rewrite <- He in He1. by eapply open_not_end.
Qed.

(** *** The lookahead value *)

Lemma lookahead_is_of st (g : dict) v x :
  lookahead W st g v = Ok x -> lookahead_is W st g v x.
Proof.
  unfold lookahead. intros Hv. split.
  - intros nb c Hin Hc Hg. by eapply relax_value_lower.
  - destruct (relax_value_attained _ _ _ _ _ _ Hv) as [->|Hatt]; [by left|by right].
Qed.

Lemma lookahead_is_transfer st st' (g g' : dict) v x :
  lookahead_is W st g v x ->
  (forall nb, nb ∈ neighbors W v -> g' !! nb = g !! nb) ->
  tags_step st st' -> finite_open st g ->
  lookahead_is W st' g' v x.
Proof.
  intros [Hlow Hatt] Hg Hst Hf. split.
  - intros nb c Hin Hc Hgc. rewrite (Hg nb Hin) in Hgc.
    destruct (counted W st nb) eqn:Hc0; [by eapply Hlow|].
    rewrite (newly_counted_infinite _ _ _ _ _ Hst Hf Hc Hc0 Hgc). simpl.
    by destruct x.
  - destruct Hatt as [->|(nb & c & Hin & Hc & Hgc & ->)]; [by left|].
    right. exists nb, c. rewrite (Hg nb Hin).
    split; [done|]. split; [by eapply tags_step_counted|done].
Qed.


(** *** A vertex update, taken apart *)

Lemma update_vertex_inv st n (rhs g : dict) ol rhs' ol' :
  n <> start G ->
  update_vertex W G st n rhs g ol = Ok (rhs', ol') ->
  exists x gn,
    lookahead W st g n = Ok x /\ g !! n = Some gn
    /\ rhs' = <[n := x]> rhs /\ ol' = requeued W G n gn x ol.
Proof.
  intros Hn Hu. rewrite update_vertex_eq in Hu by done.
  apply bind_Ok_inv in Hu as (x & Hx & Hu).
  apply bind_Ok_inv in Hu as (gn & Hgn & Hu). apply get_Ok in Hgn.
  simplify_eq. by exists x, gn.
Qed.

Lemma update_vertex_rhs_other st n (rhs g : dict) ol rhs' ol' m :
  update_vertex W G st n rhs g ol = Ok (rhs', ol') ->
  m <> n -> rhs' !! m = rhs !! m.
Proof.
  intros Hu Hm. destruct (decide (n = start G)) as [->|Hn].
  - rewrite update_vertex_start in Hu. by simplify_eq.
  - apply update_vertex_inv in Hu as (x & gn & _ & _ & -> & _); [|done].
    by rewrite lookup_insert_ne.
Qed.

Lemma update_neighbors_rhs_other l st (rhs g : dict) ol st' rhs' ol' m :
  update_neighbors W G l st rhs g ol = Ok (st', rhs', ol') ->
  m ∉ l -> rhs' !! m = rhs !! m.
Proof.
  revert st rhs ol. induction l as [|nb l IH]; intros st rhs ol Hu Hm; simpl in Hu.
  - by simplify_eq.
  - apply bind_Ok_inv in Hu as ([r1 o1] & Hv & Hu).
    apply not_elem_of_cons in Hm as [Hne Hm].
    rewrite (IH _ _ _ Hu Hm). by eapply update_vertex_rhs_other.
Qed.

(** *** The neighbour loop while the search is on *)

Lemma update_neighbors_searching l st (rhs g : dict) ol st' rhs' ol' :
  queue_ok W G rhs g ol ->
  finite_open st g ->
  queued_open st ol ->
  fresh_rhs W G l st g rhs ->
  update_neighbors W G l st rhs g ol = Ok (st', rhs', ol') ->
  tags_step st st' /\ queued_open st' ol' /\ fresh_rhs W G [] st' g rhs'.
Proof.
  revert st rhs ol.
  induction l as [|nb l IH]; intros st rhs ol Hq Hf Hqo Hfr Hu; simpl in Hu.
  - simplify_eq. split; [apply tags_step_refl|done].
  - apply bind_Ok_inv in Hu as ([r1 o1] & Hv & Hu).
    pose proof (tags_step_reopened st nb) as Hst.
    assert (Hq1 : queue_ok W G r1 g o1) by (by eapply update_vertex_queue_ok).
    assert (Hf1 : finite_open (reopened st nb) g)
      by (by eapply tags_step_finite_open).
    assert (Hqo1 : queued_open (reopened st nb) o1).
    { destruct (decide (nb = start G)) as [->|Hn].
      - rewrite update_vertex_start in Hv. simplify_eq.
        by eapply tags_step_queued_open.
      - apply update_vertex_inv in Hv as (x & gn & _ & _ & _ & ->); [|done].
        intros m Hm. apply requeued_nodes in Hm as [[-> _]|[Hm _]].
        + apply reopened_open.
        + eapply tags_step_open_or_end; [exact Hst|by apply Hqo]. }
    assert (Hfr1 : fresh_rhs W G l (reopened st nb) g r1).
    { intros v x Hv0 Hvl Hr.
      destruct (decide (v = nb)) as [->|Hne].
      - apply update_vertex_inv in Hv as (x' & gn & Hx' & _ & -> & _); [|done].
        rewrite lookup_insert_eq in Hr. simplify_eq.
        by apply lookahead_is_of.
      - rewrite (update_vertex_rhs_other _ _ _ _ _ _ _ _ Hv Hne) in Hr.
        eapply lookahead_is_transfer; [|done|exact Hst|exact Hf].
        apply Hfr; [done| |done]. by apply not_elem_of_cons. }
    destruct (IH _ _ _ Hq1 Hf1 Hqo1 Hfr1 Hu) as (Hst' & Hqo' & Hfr').
    split; [by eapply tags_step_trans|done].
Qed.


(** *** The popped node while the search is on *)

Lemma branch_searching st (rhs g : dict) ol0 k n ol gn rn g' rhs' ol' :
  grid_ok W ->
  queue_ok W G rhs g ol0 -> start_ok G rhs g ->
  finite_open st g -> queued_open st ol0 -> fresh_rhs W G [] st g rhs ->
  heappop ol0 = Some ((k, n), ol) ->
  g !! n = Some gn -> rhs !! n = Some rn ->
  branch W G st n rhs g ol gn rn g' rhs' ol' ->
  finite_open st g' /\ queued_open st ol'
  /\ fresh_rhs W G (neighbors W n) st g' rhs'.
Proof.
  intros [Hsym Hirr] Hq Hs Hf Hqo Hfr Hpop Hgn Hrn Hbr.
  edestruct heappop_queue_ok as (Hbut & Hinc & _ & Hsub); [exact Hq|exact Hpop|].
  assert (Hn_in : n ∈ ol0.*2) by (by apply (queue_iff _ _ _ _ _ Hq)).
  assert (Hol : forall m, m ∈ ol.*2 -> m ∈ ol0.*2).
  { intros m Hm. apply list_elem_of_fmap in Hm as (e & -> & He).
    apply list_elem_of_fmap. exists e. split; [done|]. by apply Hsub. }
  assert (Hother : forall v, v ∉ neighbors W n ->
            forall nb, nb ∈ neighbors W v -> nb <> n).
  { intros v Hv nb Hnb ->. apply Hv. by apply Hsym. }
  destruct Hbr as [(Hlt & -> & -> & ->)|(Hlt & -> & Hu)].
  - split; [|split].
    + intros m c Hg. destruct (decide (m = n)) as [->|Hm]; [by apply Hqo|].
      rewrite lookup_insert_ne in Hg by done. by eapply Hf.
    + intros m Hm. by apply Hqo, Hol.
    + intros v x Hv Hvn Hr.
      eapply (lookahead_is_transfer st st g);
        [apply Hfr; [done|apply not_elem_of_nil|done]| |apply tags_step_refl|done].
      intros nb Hnb. rewrite lookup_insert_ne; [done|].
      intros <-. by eapply Hother.
  - assert (Hn : n <> start G).
    { intros ->. rewrite (start_settles _ _ _ _ Hs Hinc Hgn Hrn) in Hlt. done. }
    apply update_vertex_inv in Hu as (x & gn' & Hx & _ & -> & ->); [|done].
    split; [|split].
    + intros m c Hg. destruct (decide (m = n)) as [->|Hm].
      * rewrite lookup_insert_eq in Hg. done.
      * rewrite lookup_insert_ne in Hg by done. by eapply Hf.
    + intros m Hm. apply requeued_nodes in Hm as [[-> _]|[Hm _]]; [by apply Hqo|].
      by apply Hqo, Hol.
    + intros v x' Hv Hvn Hr. destruct (decide (v = n)) as [->|Hne].
      * rewrite lookup_insert_eq in Hr. simplify_eq. by apply lookahead_is_of.
      * rewrite lookup_insert_ne in Hr by done.
        eapply (lookahead_is_transfer st st g);
        [apply Hfr; [done|apply not_elem_of_nil|done]| |apply tags_step_refl|done].
        intros nb Hnb. rewrite lookup_insert_ne; [done|].
        intros <-. by eapply Hother.
Qed.


Lemma key_of_finite n gn rn :
  gn <> rn -> exists a b, key_of W (end_ G) n gn rn = (Num a, b).
Proof.
  intros Hne. unfold key_of, cost_min.
  destruct gn as [x|], rn as [y|]; simpl; try done;
    repeat case_match; simpl; eauto.
Qed.

(** *** A round that takes a node other than the end node off the list *)

Lemma round_searching s s' k n ol gn rn g' rhs' ol' st1 :
  grid_ok W -> searching W G s ->
  heappop (open_list s) = Some ((k, n), ol) ->
  g s !! n = Some gn -> rhs s !! n = Some rn ->
  branch W G (tags s) n (rhs s) (g s) ol gn rn g' rhs' ol' ->
  update_neighbors W G (neighbors W n) (tags s) rhs' g' ol'
  = Ok (st1, rhs s', open_list s') ->
  g s' = g' -> topKey s' = k -> tags s' = marked st1 n ->
  n <> end_ G ->
  searching W G s'.
Proof.
  intros Hgrid [Hq Hs Ht Hgoal Htop Hopen Hqd Hfr] Hpop Hgn Hrn Hbr Hnb Hg' Hk Htags Hne.
  destruct (branch_queue_ok _ _ _ _ _ _ _ _ _ _ _ _ Hq Hs Hpop Hgn Hrn Hbr)
    as [Hq1 [Hrs1 Hgs1]].
  destruct (branch_searching _ _ _ _ _ _ _ _ _ _ _ _ Hgrid Hq Hs Hopen Hqd Hfr
              Hpop Hgn Hrn Hbr) as (Hf1 & Hqo1 & Hfr1).
  assert (Hq2 : queue_ok W G (rhs s') g' (open_list s'))
    by (eapply update_neighbors_queue_ok; [exact Hq1|exact Hnb]).
  destruct (update_neighbors_searching _ _ _ _ _ _ _ _ Hq1 Hf1 Hqo1 Hfr1 Hnb)
    as (Hst & Hqo2 & Hfr2).
  pose proof (tags_step_marked st1 n) as Hm.
  edestruct heappop_queue_ok
    as (_ & Hinc & (gn0 & rn0 & Hgn0 & Hrn0 & Hkey) & _); [exact Hq|exact Hpop|].
  split.
  - by rewrite Hg'.
  - rewrite Hg'. split; [|done].
    rewrite <- Hrs1. by eapply update_neighbors_rhs_start.
  - rewrite Htags. eapply tags_step_ok; [exact Hm|].
    eapply tags_step_ok; [exact Hst|done].
  - rewrite Hg'.
    destruct Hbr as [(_ & -> & _)|(_ & -> & _)]; by rewrite lookup_insert_ne.
  - rewrite Hk, Hkey. apply key_of_finite. congruence.
  - rewrite Htags, Hg'. eapply tags_step_finite_open; [exact Hm|].
    by eapply tags_step_finite_open.
  - rewrite Htags. by eapply tags_step_queued_open.
  - rewrite Htags, Hg'. intros v x Hv Hskip Hr.
    eapply (lookahead_is_transfer st1 _ g');
      [by apply Hfr2|done|exact Hm|by eapply tags_step_finite_open].
Qed.


(** *** The round that takes the end node off the list *)

Lemma key_of_goal c :
  key_of W (end_ G) (end_ G) Inf (Num c) = (Num c, Num c)
  /\ key_of W (end_ G) (end_ G) (Num c) (Num c) = (Num c, Num c).
Proof.
  unfold key_of, cost_min, heuristic_manhattan, RP.heuristic_manhattan.
  rewrite RPFacts.manhattan_self. simpl.
  rewrite Z.ltb_irrefl. simpl. by rewrite Z.add_0_r.
Qed.

Section Goal.

Variable s : LoopState.
Variable c : Z.
Hypothesis Hgrid : grid_ok W.
Hypothesis Hsearch : searching W G s.
Hypothesis Hhead : forall en : entry,
  en ∈ open_list s -> en.2 <> end_ G -> key_ltb en.1 (Num c, Num c) = false.

Lemma goal_head_entry nb gv xh :
  nb <> end_ G ->
  g s !! nb = Some gv -> rhs s !! nb = Some xh -> gv <> xh ->
  key_ltb (key_of W (end_ G) nb gv xh) (Num c, Num c) = false.
Proof.
  intros Hnb Hgv Hxh Hne.
  destruct Hsearch as [[_ Hiff Hfresh _] _ _ _ _ _ _ _].
  assert (Hin : nb ∈ (open_list s).*2).
  { apply Hiff. rewrite Hgv, Hxh. congruence. }
  apply list_elem_of_fmap in Hin as ([k0 m] & Hm & Hin). simpl in Hm. subst m.
  destruct (Hfresh k0 nb Hin) as (g0 & r0 & Hg0 & Hr0 & ->).
  simplify_eq. by apply (Hhead _ Hin).
Qed.

Lemma goal_key_bound st1 nb x' gv :
  nb ∈ neighbors W (end_ G) -> nb <> start G ->
  tags_step (tags s) st1 ->
  lookahead W st1 (<[end_ G := Num c]> (g s)) nb = Ok x' ->
  g s !! nb = Some gv -> gv <> x' ->
  key_ltb (key_of W (end_ G) nb gv x') (Num c, Num c) = false.
Proof.
  intros Hin Hns Hst Hx' Hgv Hne.
  pose proof Hsearch as [Hq _ _ Hgoal _ Hopen _ Hfr].
  destruct Hgrid as [Hsym Hirr].
  assert (Hnb : nb <> end_ G) by (intros ->; by eapply Hirr).
  apply lookahead_is_of in Hx' as [Hlow' Hatt'].
  destruct (rhs s !! nb) as [xh|] eqn:Hxh; last first.
  { exfalso. destruct Hq as [_ Hiff Hfresh _].
    assert (Hi : nb ∈ (open_list s).*2) by (apply Hiff; rewrite Hgv, Hxh; done).
    apply list_elem_of_fmap in Hi as ([k0 m] & Hm & Hi). simpl in Hm. subst m.
    destruct (Hfresh k0 nb Hi) as (g0 & r0 & _ & Hr0 & _). congruence. }
  destruct (Hfr nb xh Hns (not_elem_of_nil _) Hxh) as [Hlowh Hatth].
  assert (Hle : cost_ltb xh x' = false).
  { destruct Hatth as [->|(m & cm & Hm & Hcm & Hgm & ->)]; [done|].
    destruct (decide (m = end_ G)) as [->|Hme].
    - rewrite Hgoal in Hgm. by simplify_eq.
    - apply (Hlow' m cm Hm); [by eapply tags_step_counted|].
      by rewrite lookup_insert_ne. }
  assert (Hcase : x' = xh \/ x' = Num (c + 1)).
  { destruct Hatt' as [->|(m & cm & Hm & Hcm & Hgm & ->)].
    - left. by destruct xh.
    - destruct (decide (m = end_ G)) as [->|Hme].
      + rewrite lookup_insert_eq in Hgm. simplify_eq. by right.
      + rewrite lookup_insert_ne in Hgm by done. left.
        destruct (counted W (tags s) m) eqn:Hc0.
        * apply cost_ltb_total; [|done]. by apply (Hlowh m cm).
        * rewrite (newly_counted_infinite _ _ _ _ _ Hst Hopen Hcm Hc0 Hgm) in *.
          simpl in *. by destruct xh. }
  destruct (cost_ltb x' gv) eqn:Hlt.
  - destruct Hcase as [-> | ->]; [by apply goal_head_entry|].
    unfold key_of. rewrite (cost_min_r _ _ Hlt). simpl.
    pose proof (RPFacts.manhattan_nonneg W nb (end_ G)) as Hh.
    unfold heuristic_manhattan, RP.heuristic_manhattan, key_ltb. simpl.
    rewrite bool_decide_eq_false_2 by (intros Heq; injection Heq as Heq; lia).
    apply Z.ltb_ge. lia.
  - assert (Hmin : key_of W (end_ G) nb gv x' = key_of W (end_ G) nb gv xh).
    { unfold key_of. rewrite (cost_min_l _ _ Hlt).
      rewrite cost_min_l; [done|].
      clear -Hlt Hle Hne. cost_cases. }
    rewrite Hmin. apply goal_head_entry; [done..|].
    clear -Hlt Hle Hne. intros ->. cost_cases.
Qed.

Lemma update_neighbors_goal l st (rhs0 : dict) ol st' rhs' ol' :
  (forall nb, nb ∈ l -> nb ∈ neighbors W (end_ G)) ->
  tags_step (tags s) st ->
  (forall en : entry, en ∈ ol -> key_ltb en.1 (Num c, Num c) = false) ->
  update_neighbors W G l st rhs0 (<[end_ G := Num c]> (g s)) ol
  = Ok (st', rhs', ol') ->
  forall en : entry, en ∈ ol' -> key_ltb en.1 (Num c, Num c) = false.
Proof.
  revert st rhs0 ol.
  induction l as [|nb l IH]; intros st rhs0 ol Hl Hst Hol Hu; simpl in Hu.
  - by simplify_eq.
  - apply bind_Ok_inv in Hu as ([r1 o1] & Hv & Hu).
    assert (Hst1 : tags_step (tags s) (reopened st nb)).
    { eapply tags_step_trans; [exact Hst|apply tags_step_reopened]. }
    eapply (IH _ _ _ _ Hst1); [|exact Hu].
    destruct (decide (nb = start G)) as [->|Hns].
    { rewrite update_vertex_start in Hv. by simplify_eq. }
    apply update_vertex_inv in Hv as (x & gn & Hx & Hgn & _ & ->); [|done].
    assert (Hin : nb ∈ neighbors W (end_ G)) by apply Hl, list_elem_of_here.
    assert (Hnb : nb <> end_ G).
    { intros ->. by eapply (grid_irreflexive _ Hgrid). }
    rewrite lookup_insert_ne in Hgn by done.
    intros en Hen. apply requeued_entries in Hen as [[-> Hne]|[Hen _]].
    + simpl. by eapply goal_key_bound.
    + by apply Hol.
  Unshelve. intros m Hm. apply Hl. by apply list_elem_of_further.
Qed.

End Goal.


Lemma round_settled s s' k ol gn rn g' rhs' ol' st1 :
  grid_ok W -> searching W G s ->
  heappop (open_list s) = Some ((k, end_ G), ol) ->
  g s !! end_ G = Some gn -> rhs s !! end_ G = Some rn ->
  branch W G (tags s) (end_ G) (rhs s) (g s) ol gn rn g' rhs' ol' ->
  update_neighbors W G (neighbors W (end_ G)) (tags s) rhs' g' ol'
  = Ok (st1, rhs s', open_list s') ->
  g s' = g' -> topKey s' = k ->
  unsettled W G s' = Ok false /\ settled W G s'.
Proof.
  intros Hgrid Hsearch Hpop Hgn Hrn Hbr Hnb Hg' Hk.
  pose proof Hsearch as [Hq Hs _ Hgoal _ _ _ _].
  edestruct heappop_queue_ok
    as (_ & Hinc & (gn0 & rn0 & Hgn0 & Hrn0 & Hkey) & Hmin); [exact Hq|exact Hpop|].
  destruct (branch_queue_ok _ _ _ _ _ _ _ _ _ _ _ _ Hq Hs Hpop Hgn Hrn Hbr)
    as [Hq1 _].
  assert (Hq2 : queue_ok W G (rhs s') g' (open_list s'))
    by (eapply update_neighbors_queue_ok; [exact Hq1|exact Hnb]).
  rewrite Hgoal in Hgn, Hgn0.
  injection Hgn as <-. injection Hgn0 as <-.
  rewrite Hrn in Hrn0. injection Hrn0 as <-.
  destruct rn as [c|]; [|by rewrite Hgoal, Hrn in Hinc].
  destruct (key_of_goal c) as [Hk1 Hk2].
  destruct Hbr as [(_ & Hg1 & Hr1 & Ho1)|(Hlt & _)]; [|done].
  subst g' rhs' ol' k. rewrite <- Hg' in Hq2.
  assert (Htop : topKey s' = (Num c, Num c)) by (rewrite Hkey; exact Hk1).
  assert (Hhead : forall en : entry,
            en ∈ open_list s -> en.2 <> end_ G ->
            key_ltb en.1 (Num c, Num c) = false).
  { intros en Hen Hne. rewrite <- Htop.
    rewrite (heappop_perm _ _ _ Hpop) in Hen.
    apply elem_of_cons in Hen as [->|Hen]; [done|]. by destruct (Hmin _ Hen). }
  assert (Hbound : forall en : entry,
            en ∈ open_list s' -> key_ltb en.1 (Num c, Num c) = false).
  { eapply (update_neighbors_goal s c Hgrid Hsearch Hhead);
      [done|apply tags_step_refl| |exact Hnb].
    intros en Hen. rewrite <- Htop. by destruct (Hmin _ Hen). }
  assert (Hre : rhs s' !! end_ G = Some (Num c)).
  { rewrite <- Hrn. eapply update_neighbors_rhs_other; [exact Hnb|].
    apply (grid_irreflexive _ Hgrid). }
  assert (Hge : g s' !! end_ G = Some (Num c))
    by (rewrite Hg'; apply lookup_insert_eq).
  assert (Hke : calc_key W (end_ G) (end_ G) (g s') (rhs s') = Ok (Num c, Num c)).
  { rewrite (calc_key_eq _ _ _ _ _ _ _ Hge Hre). by rewrite Hk2. }
  split.
  - unfold unsettled. rewrite Hke. simpl. rewrite Htop, key_ltb_irrefl.
    rewrite (get_lookup _ _ _ Hre), (get_lookup _ _ _ Hge). simpl.
    f_equal. by apply cost_neqb_false.
  - split; [by rewrite Hge, Hre|].
    exists (Num c, Num c). split; [done|].
    intros k' m Hin.
    destruct (queue_fresh _ _ _ _ _ Hq2 k' m Hin) as (gm & rm & Hgm & Hrm & ->).
    exists (key_of W (end_ G) m gm rm). split.
    + by apply calc_key_eq.
    + apply (Hbound _ Hin).
Qed.

(** *** Every reachable loop state *)

Lemma loop_body_progress answer fuel s s' :
  grid_ok W -> searching W G s ->
  loop_body W G answer fuel s = Ok (Next s') ->
  searching W G s' \/ (unsettled W G s' = Ok false /\ settled W G s').
Proof.
  intros Hgrid Hsearch Hb.
  apply loop_body_inv in Hb
    as (k & n & ol & gn & rn & g' & rhs' & ol' & st1 & Hpop & Hgn & Hrn
        & Hbr & Hnb & Hg' & Hk & _ & Htags).
  destruct Htags as [[Hne Htags]|[-> _]].
  - left. eapply round_searching; eauto.
  - right. eapply round_settled; eauto.
Qed.

Lemma searching_unsettled s b :
  searching W G s -> unsettled W G s = Ok b -> b = true.
Proof.
  intros [_ _ _ Hgoal (a & b0 & Htop) _ _ _] Hu. unfold unsettled in Hu.
  apply bind_Ok_inv in Hu as (ke & Hke & Hu).
  apply calc_key_inv in Hke as (ge & re & Hge & Hre & ->).
  rewrite Hgoal in Hge. simplify_eq.
  destruct re as [c|].
  - destruct (key_ltb _ _); [by simplify_eq|].
    rewrite (get_lookup _ _ _ Hre), (get_lookup _ _ _ Hgoal) in Hu.
    simpl in Hu. by simplify_eq.
  - rewrite Htop in Hu. unfold key_of in Hu. simpl in Hu.
    unfold key_ltb in Hu. simpl in Hu. by simplify_eq.
Qed.

Lemma all_inf_lookup n x : all_inf G !! n = Some x -> x = Inf.
Proof.
  unfold all_inf. induction (concat (grid G)) as [|m l IH]; simpl; [done|].
  destruct (decide (m = n)) as [->|Hne].
  - rewrite lookup_insert_eq. congruence.
  - by rewrite lookup_insert_ne.
Qed.

Lemma lpa_init_searching st0 s :
  tags_ok G st0 ->
  lpa_init W G st0 = Ok s ->
  is_Some (g s !! end_ G) ->
  searching W G s.
Proof.
  intros Ht Hi [ge Hge].
  edestruct lpa_init_queue_ok as [Hq Hs]; [exact Hi|].
  apply lpa_init_inv in Hi as (Hr & Hg & Hgs & Hol & Hk & _ & Htags).
  assert (Hinf : forall n x, g s !! n = Some x -> x = Inf).
  { intros n x. rewrite Hg. apply all_inf_lookup. }
  split; try done.
  - by rewrite Htags.
  - rewrite Hge. f_equal. by eapply Hinf.
  - rewrite Hk. apply key_of_finite. done.
  - intros n c Hn. by apply Hinf in Hn.
  - rewrite Hol, Htags. intros n Hn. simpl in Hn.
    apply list_elem_of_singleton in Hn as ->. left.
    pose proof (proj2 (tag_start _ _ Ht (start G)) eq_refl) as Hst.
    unfold open_tag. rewrite Hst. by rewrite orb_true_r.
  - intros v x Hv _ Hx. rewrite Hr, lookup_insert_ne in Hx by done.
    apply all_inf_lookup in Hx as ->. split; [|by left].
    intros nb c _ _ Hc. by rewrite (Hinf _ _ Hc).
Qed.

Lemma reachable_cases st0 s :
  grid_ok W -> tags_ok G st0 ->
  reachable W G st0 s ->
  searching W G s
  \/ (unsettled W G s = Ok false /\ settled W G s)
  \/ (exists e, unsettled W G s = Raise e).
Proof.
  intros Hgrid Ht. induction 1 as [s Hi|s answer fuel s' _ IH Htest Hb].
  - destruct (g s !! end_ G) as [ge|] eqn:Hge.
    + left. eapply lpa_init_searching; eauto.
    + right. right. exists KeyError. unfold unsettled, calc_key, get.
      by rewrite Hge.
  - unfold loop_test in Htest.
    destruct IH as [Hs|[[Hu _]|[e Hu]]].
    + destruct (loop_body_progress _ _ _ _ Hgrid Hs Hb) as [Hs'|Hs']; auto.
    + rewrite Hu in Htest. simpl in Htest. done.
    + rewrite Hu in Htest. done.
Qed.


End EngineFacts.

Lemma update_vertex_spec_witness :
  HeapQLaws Scan.heapq
  /\ exists v gn rhs' ol',
       update_vertex (HQ := Scan.heapq) Examples.junction Examples.junction_grid
         Examples.junction_tags 1%nat Examples.junction_rhs Examples.junction_g []
       = Ok (rhs', ol')
       /\ rhs' = <[1%nat := v]> Examples.junction_rhs
       /\ Examples.junction_g !! 1%nat = Some gn.
Proof.
  split; [exact ScanFacts.heapq_laws|].
  destruct (update_vertex_spec (HQ := Scan.heapq) (HL := ScanFacts.heapq_laws)
              Examples.junction Examples.junction_grid Examples.junction_tags
              1%nat Examples.junction_rhs Examples.junction_g []) as [_ Hspec].
  - intros nb Hin _.
    apply elem_of_cons in Hin as [->|Hin]; [by eexists|].
    apply elem_of_cons in Hin as [->|Hin]; [by eexists|].
    apply elem_of_cons in Hin as [->|Hin]; [by eexists|].
    by apply elem_of_nil in Hin.
  - by eexists.
  - destruct Hspec as (v & gn & rhs' & ol' & Hu & Hr & Hg & _); [discriminate|].
    exists v, gn, rhs', ol'. auto.
Defined.

Lemma update_vertex_idempotent_witness :
  HeapQLaws Scan.heapq
  /\ exists rhs1 ol1 ol2,
       update_vertex (HQ := Scan.heapq) Examples.junction Examples.junction_grid
         Examples.junction_tags 1%nat Examples.junction_rhs Examples.junction_g []
       = Ok (rhs1, ol1)
       /\ update_vertex (HQ := Scan.heapq) Examples.junction Examples.junction_grid
            Examples.junction_tags 1%nat rhs1 Examples.junction_g ol1
          = Ok (rhs1, ol2)
       /\ ol2 ≡ₚ ol1.
Proof.
  split; [exact ScanFacts.heapq_laws|].
  eexists _, _.
  assert (H1 : update_vertex (HQ := Scan.heapq) Examples.junction
                 Examples.junction_grid Examples.junction_tags 1%nat
                 Examples.junction_rhs Examples.junction_g []
               = Ok (<[1%nat := Num 1]> Examples.junction_rhs,
                     [((Num 2, Num 1), 1%nat)])).
  { vm_compute. reflexivity. }
  destruct (update_vertex_idempotent (HQ := Scan.heapq)
              (HL := ScanFacts.heapq_laws) _ _ _ _ _ _ _ _ _ H1) as (ol2 & H2 & Hp).
  exists ol2. split; [exact H1|]. split; [exact H2 | exact Hp].
Defined.

(** A run on the junction: three rounds, after which the loop condition
    fails with cell 3 still on the open list. *)
Lemma junction_run :
  exists s0 s1 s2 s3,
    lpa_init Examples.junction Examples.junction_grid
      Examples.junction_tags = Ok s0
    /\ loop_test Examples.junction Examples.junction_grid s0 = Ok true
    /\ loop_body (HQ := Scan.heapq) Examples.junction Examples.junction_grid true 4 s0 = Ok (Next s1)
    /\ loop_test Examples.junction Examples.junction_grid s1 = Ok true
    /\ loop_body (HQ := Scan.heapq) Examples.junction Examples.junction_grid true 4 s1 = Ok (Next s2)
    /\ loop_test Examples.junction Examples.junction_grid s2 = Ok true
    /\ loop_body (HQ := Scan.heapq) Examples.junction Examples.junction_grid true 4 s2 = Ok (Next s3)
    /\ unsettled Examples.junction Examples.junction_grid s3 = Ok false.
Proof.
  eexists _, _, _, _.
  split; [vm_compute; reflexivity|].
  split; [vm_compute; reflexivity|].
  split; [vm_compute; reflexivity|].
  split; [vm_compute; reflexivity|].
  split; [vm_compute; reflexivity|].
  split; [vm_compute; reflexivity|].
  split; [vm_compute; reflexivity|].
  vm_compute; reflexivity.
Defined.

Lemma junction_reachable :
  exists s,
    reachable (HQ := Scan.heapq) Examples.junction Examples.junction_grid
      Examples.junction_tags s
    /\ unsettled Examples.junction Examples.junction_grid s = Ok false.
Proof.
  destruct junction_run
    as (s0 & s1 & s2 & s3 & Hi & Ht0 & Hb0 & Ht1 & Hb1 & Ht2 & Hb2 & Hu).
  exists s3. split; [|exact Hu].
  eapply reach_step; [|exact Ht2|exact Hb2].
  eapply reach_step; [|exact Ht1|exact Hb1].
  eapply reach_step; [|exact Ht0|exact Hb0].
  apply reach_init. exact Hi.
Defined.

Lemma rhs_start_zero_witness :
  exists s,
    reachable (HQ := Scan.heapq) Examples.junction Examples.junction_grid
      Examples.junction_tags s
    /\ rhs s !! start Examples.junction_grid = Some (Num 0).
Proof.
  destruct junction_reachable as (s & Hr & _).
  exists s. split; [exact Hr|].
  exact (proj2 (rhs_start_zero (HQ := Scan.heapq) Examples.junction
                  Examples.junction_grid) _ _ Hr).
Defined.

Lemma open_list_inconsistent_witness :
  HeapQLaws Scan.heapq
  /\ exists s,
       reachable (HQ := Scan.heapq) Examples.junction Examples.junction_grid
         Examples.junction_tags s
       /\ NoDup (open_list s).*2
       /\ forall n, n ∈ (open_list s).*2 <-> g s !! n <> rhs s !! n.
Proof.
  split; [exact ScanFacts.heapq_laws|].
  destruct junction_reachable as (s & Hr & _).
  exists s. split; [exact Hr|].
  exact (open_list_inconsistent (HQ := Scan.heapq) (HL := ScanFacts.heapq_laws)
           Examples.junction Examples.junction_grid _ _ Hr).
Defined.

Lemma junction_grid_ok : grid_ok Examples.junction.
Proof.
  split.
  - intros u v Hv. destruct u as [|[|[|[|u]]]]; simpl in Hv.
    + apply list_elem_of_singleton in Hv as ->. simpl. apply list_elem_of_here.
    + apply elem_of_cons in Hv as [->|Hv]; [apply list_elem_of_here|].
      apply elem_of_cons in Hv as [->|Hv]; [apply list_elem_of_here|].
      apply list_elem_of_singleton in Hv as ->. simpl.
      apply list_elem_of_here.
    + apply list_elem_of_singleton in Hv as ->. simpl.
      apply list_elem_of_further, list_elem_of_here.
    + apply list_elem_of_singleton in Hv as ->. simpl.
      apply list_elem_of_further, list_elem_of_further, list_elem_of_here.
    + by apply elem_of_nil in Hv.
  - intros u Hu. destruct u as [|[|[|[|u]]]]; simpl in Hu.
    + by apply list_elem_of_singleton in Hu.
    + apply elem_of_cons in Hu as [Hu|Hu]; [done|].
      apply elem_of_cons in Hu as [Hu|Hu]; [done|].
      by apply list_elem_of_singleton in Hu.
    + by apply list_elem_of_singleton in Hu.
    + by apply list_elem_of_singleton in Hu.
    + by apply elem_of_nil in Hu.
Defined.

Lemma junction_tags_ok : tags_ok Examples.junction_grid Examples.junction_tags.
Proof.
  split; intros n; destruct n as [|[|[|n]]]; simpl; split; intros Hn;
    done || discriminate.
Defined.



End LPAStarFacts.

(** ** The walks and distances of [RP.py] *)

Module RPExtra.

Import RP.

(** *** The breadth-first walk of [get_unvisited_nodes] *)

Section Unvisited.

Variable W : Nodes.
Variable start : node.

Lemma enqueue_new_spec nbrs Q Q_hash :
  exists added,
    enqueue_new nbrs Q Q_hash = (Q ++ added, Q_hash ++ added)
    /\ (forall x, x ∈ added -> x ∈ nbrs /\ x ∉ Q_hash)
    /\ (forall x, x ∈ nbrs -> x ∈ Q_hash ++ added)
    /\ (NoDup Q_hash -> NoDup (Q_hash ++ added)).
Proof.
  revert Q Q_hash. induction nbrs as [|nb nbrs IH]; intros Q Q_hash; simpl.
  - exists []. rewrite !app_nil_r. split; [done|]. split; [|split; [|done]].
    + intros x Hx. by apply elem_of_nil in Hx.
    + intros x Hx. by apply elem_of_nil in Hx.
  - destruct (decide (nb ∈ Q_hash)) as [Hin|Hout].
    + destruct (IH Q Q_hash) as (added & -> & Hnew & Hall & Hnd).
      exists added. split; [done|]. split; [|split; [|done]].
      * intros x Hx. destruct (Hnew x Hx) as [Hx1 Hx2].
        split; [by apply list_elem_of_further|done].
      * intros x Hx. apply elem_of_cons in Hx as [->|Hx]; [|by apply Hall].
        apply elem_of_app. by left.
    + destruct (IH (Q ++ [nb]) (Q_hash ++ [nb])) as (added & -> & Hnew & Hall & Hnd).
      exists (nb :: added). rewrite <- !app_assoc. simpl.
      split; [done|]. split; [|split].
      * intros x Hx. apply elem_of_cons in Hx as [->|Hx].
        { split; [apply list_elem_of_here|done]. }
        destruct (Hnew x Hx) as [Hx1 Hx2].
        split; [by apply list_elem_of_further|].
        intros Hc. apply Hx2. apply elem_of_app. by left.
      * intros x Hx. apply elem_of_cons in Hx as [->|Hx].
        { apply elem_of_app. right. apply list_elem_of_here. }
        specialize (Hall x Hx). by rewrite <- app_assoc in Hall.
      * intros HQ. rewrite <- app_assoc in Hnd. apply Hnd.
        apply NoDup_app. split; [done|]. split; [|apply NoDup_singleton].
        intros x Hx Hx'. apply list_elem_of_singleton in Hx' as ->. done.
Qed.

Lemma enqueue_step current Q Q_hash Q' Q_hash' :
  walk_ok W start (current :: Q) Q_hash ->
  enqueue_new (neighbors W current) Q Q_hash = (Q', Q_hash') ->
  walk_ok W start Q' Q_hash'
  /\ exists added, Q' = Q ++ added /\ Q_hash' = Q_hash ++ added.
Proof.
  intros [Hnd [rest Hfirst] Hq Hsound Hclosed] He.
  destruct (enqueue_new_spec (neighbors W current) Q Q_hash)
    as (added & Heq & Hnew & Hall & Hnd').
  rewrite Heq in He. injection He as <- <-.
  split; [|by exists added].
  assert (Hcur : current ∈ Q_hash) by apply Hq, list_elem_of_here.
  split.
  - by apply Hnd'.
  - exists (rest ++ added). by rewrite Hfirst.
  - intros x Hx. apply elem_of_app. apply elem_of_app in Hx as [Hx|Hx]; [|by right].
    left. by apply Hq, list_elem_of_further.
  - intros x Hx. apply elem_of_app in Hx as [Hx|Hx]; [by apply Hsound|].
    destruct (Hnew x Hx) as [Hx1 _].
    eapply rtc_r; [by apply Hsound|done].
  - intros x y Hx Hxq Hxy.
    destruct (decide (x = current)) as [->|Hne]; [by apply Hall|].
    apply elem_of_app in Hx as [Hx|Hx].
    + apply elem_of_app. left. apply (Hclosed x y Hx); [|done].
      intros Hc. apply elem_of_cons in Hc as [Hc|Hc]; [done|].
      apply Hxq. apply elem_of_app. by left.
    + exfalso. apply Hxq. apply elem_of_app. by right.
Qed.

Lemma unvisited_loop_ok fuel Q Q_hash l :
  walk_ok W start Q Q_hash ->
  unvisited_loop fuel W Q Q_hash = Some l ->
  walk_ok W start [] l.
Proof.
  revert Q Q_hash. induction fuel as [|fuel IH]; intros Q Q_hash Hok Hl; [done|].
  simpl in Hl. destruct Q as [|current Q].
  - by simplify_eq.
  - destruct (enqueue_new (neighbors W current) Q Q_hash) as [Q' Q_hash'] eqn:He.
    destruct (enqueue_step _ _ _ _ _ Hok He) as [Hok' _]. by eapply IH.
Qed.

Lemma walk_ok_start : walk_ok W start [start] [start].
Proof.
  split.
  - apply NoDup_singleton.
  - by exists [].
  - done.
  - intros x Hx. apply list_elem_of_singleton in Hx as ->. apply rtc_refl.
  - intros x y Hx Hxq. apply list_elem_of_singleton in Hx as ->.
    exfalso. apply Hxq, list_elem_of_here.
Qed.

(** X1: the list returned by [get_unvisited_nodes] starts with the start
    node, has no node twice, and holds exactly the nodes that can be reached
    from the start node along neighbour lists. *)
Theorem get_unvisited_nodes_reachable fuel l :
  get_unvisited_nodes fuel W start = Some l ->
  (exists rest, l = start :: rest)
  /\ NoDup l
  /\ forall n, n ∈ l <-> rtc (edge W) start n.
Proof.
  intros Hl. apply (unvisited_loop_ok _ _ _ _ walk_ok_start) in Hl.
  destruct Hl as [Hnd Hfirst _ Hsound Hclosed].
  split; [done|]. split; [done|].
  intros n. split; [apply Hsound|].
  revert n. apply rtc_ind_r.
  - destruct Hfirst as [rest ->]. apply list_elem_of_here.
  - intros b c _ Hbc IH. apply (Hclosed b c IH); [|done]. apply not_elem_of_nil.
Qed.

Lemma unvisited_loop_total (U : list node) fuel Q Q_hash :
  (forall x, rtc (edge W) start x -> x ∈ U) ->
  walk_ok W start Q Q_hash ->
  (length Q + length U - length Q_hash < fuel)%nat ->
  is_Some (unvisited_loop fuel W Q Q_hash).
Proof.
  intros HU. revert Q Q_hash.
  induction fuel as [|fuel IH]; intros Q Q_hash Hok Hlt; [lia|].
  simpl. destruct Q as [|current Q]; [done|].
  destruct (enqueue_new (neighbors W current) Q Q_hash) as [Q' Q_hash'] eqn:He.
  destruct (enqueue_step _ _ _ _ _ Hok He) as [Hok' (added & -> & ->)].
  apply IH; [done|].
  assert (Hle : (length (Q_hash ++ added) <= length U)%nat).
  { apply submseteq_length, NoDup_submseteq; [apply (walk_nodup _ _ _ _ Hok')|].
    intros x Hx. apply HU. by apply (walk_sound _ _ _ _ Hok'). }
  rewrite !length_app in *. simpl in Hlt. lia.
Qed.

(** X2: when the nodes that can be reached from the start node all lie in a
    list [U], the loop of [get_unvisited_nodes] ends within [length U]
    rounds. *)
Theorem get_unvisited_nodes_terminates (U : list node) fuel :
  start ∈ U ->
  (forall a b, a ∈ U -> b ∈ neighbors W a -> b ∈ U) ->
  (length U < fuel)%nat ->
  exists l, get_unvisited_nodes fuel W start = Some l /\ l ⊆ U.
Proof.
  intros Hs Hclosed Hlt.
  assert (HU : forall x, rtc (edge W) start x -> x ∈ U).
  { apply rtc_ind_r; [done|]. intros a b _ Hab Ha. by eapply Hclosed. }
  destruct (unvisited_loop_total U fuel [start] [start] HU walk_ok_start)
    as [l Hl]; [simpl; lia|].
  exists l. split; [done|].
  intros x Hx. apply HU.
  by apply (walk_sound _ _ _ _ (unvisited_loop_ok _ _ _ _ walk_ok_start Hl)).
Qed.

End Unvisited.

(** *** [count_path] and [thread_count_path] *)

Section CountPath.

Variable came_from : gmap node node.
Variable st : states.

Lemma count_path_from_chain k fuel current last acc :
  nsteps (link came_from st) k current last ->
  stops came_from st last ->
  (k < fuel)%nat ->
  count_path_from fuel came_from st current acc = Some (acc + Z.of_nat k).
Proof.
  revert fuel current acc.
  induction k as [|k IH]; intros fuel current acc Hsteps Hstop Hlt;
    (destruct fuel as [|fuel]; [lia|]); simpl.
  - inversion Hsteps; subst. rewrite Z.add_0_r.
    destruct Hstop as [->|(p & -> & ->)]; done.
  - inversion Hsteps as [|? ? next ? [Hcf Hns] Hrest]; subst.
    rewrite Hcf, Hns. simpl.
    rewrite (IH fuel next (acc + 1) Hrest Hstop) by lia. f_equal. lia.
Qed.

Lemma count_path_from_inv fuel current acc z :
  count_path_from fuel came_from st current acc = Some z ->
  exists k last,
    z = acc + Z.of_nat k
    /\ nsteps (link came_from st) k current last
    /\ stops came_from st last.
Proof.
  revert current acc. induction fuel as [|fuel IH]; intros current acc Hz; [done|].
  simpl in Hz. destruct (came_from !! current) as [p|] eqn:Hcf.
  - destruct (is_start (st p)) eqn:Hp; simpl in Hz.
    + simplify_eq. exists 0%nat, current. split; [lia|]. split; [apply nsteps_O|].
      right. by exists p.
    + destruct (IH _ _ Hz) as (k & last & -> & Hsteps & Hstop).
      exists (S k), last. split; [lia|]. split; [|done].
      eapply nsteps_l; [|exact Hsteps]. by split.
  - simplify_eq. exists 0%nat, current. split; [lia|]. split; [apply nsteps_O|].
    by left.
Qed.

(** X3: [count_path] returns [k] exactly when following [came_from] from
    [current] moves on [k] times and then meets a node that is no key of
    [came_from] or whose entry is the start node. *)
Theorem count_path_chain current k :
  (exists fuel, count_path fuel came_from st current = Some (Z.of_nat k))
  <-> exists last,
        nsteps (link came_from st) k current last /\ stops came_from st last.
Proof.
  split.
  - intros [fuel Hz]. apply count_path_from_inv in Hz
      as (k' & last & Hk & Hsteps & Hstop).
    assert (k' = k) as -> by lia. by exists last.
  - intros (last & Hsteps & Hstop). exists (S k).
    unfold count_path.
    by rewrite (count_path_from_chain k (S k) _ _ 0 Hsteps Hstop) by lia.
Qed.

(** X4: on a set of nodes each of which has an entry in [came_from] that is
    in the set and is not the start node, the loop of [count_path] never
    ends. *)
Theorem count_path_cycle (P : node -> Prop) current fuel :
  (forall a, P a -> exists b, link came_from st a b /\ P b) ->
  P current ->
  count_path fuel came_from st current = None.
Proof.
  intros Hcyc. unfold count_path. generalize 0.
  revert current. induction fuel as [|fuel IH]; intros current acc Hc; [done|].
  destruct (Hcyc current Hc) as (b & [Hcf Hb] & HPb).
  simpl. rewrite Hcf, Hb. simpl. by apply IH.
Qed.

(** X5: when the entries of [came_from] tagged Start are exactly those equal
    to [target], [thread_count_path] adds to [path_size[0]] what
    [count_path] returns, and ends when [count_path] does. *)
Theorem thread_count_path_agrees target fuel current size rest :
  (forall a p, came_from !! a = Some p ->
               (is_start (st p) = true <-> p = target)) ->
  thread_count_path fuel (size :: rest) came_from current target
  = (fun z => Ok ((size + z) :: rest)) <$> count_path fuel came_from st current.
Proof.
  intros Htarget. unfold count_path.
  assert (Hgen : forall acc,
    thread_count_path fuel ((size + acc) :: rest) came_from current target
    = (fun z => Ok ((size + z) :: rest))
        <$> count_path_from fuel came_from st current acc).
  { revert current. induction fuel as [|fuel IH]; intros current acc; [done|].
    simpl. destruct (came_from !! current) as [p|] eqn:Hcf; [|done].
    destruct (decide (p <> target)) as [Hne|Heq].
    - assert (Hp : is_start (st p) = false).
      { destruct (is_start (st p)) eqn:Hp; [|done].
        by apply (Htarget _ _ Hcf) in Hp. }
      rewrite Hp. simpl.
      replace (size + acc + 1) with (size + (acc + 1)) by lia. apply IH.
    - assert (Hp : is_start (st p) = true).
      { apply (Htarget _ _ Hcf). by destruct (decide (p = target)). }
      rewrite Hp. done. }
  specialize (Hgen 0). by rewrite Z.add_0_r in Hgen.
Qed.

End CountPath.

(** *** The length bound of [count_path] *)

Section CountBound.

Variable st : states.

Lemma link_stops_excl cf a b : link cf st a b -> stops cf st a -> False.
Proof.
  intros [Hcf Hb] [Hn|(p & Hp & Hs)]; [congruence|].
  rewrite Hcf in Hp. injection Hp as <-. congruence.
Qed.

Lemma chain_length_unique cf k k' a last last' :
  nsteps (link cf st) k a last -> stops cf st last ->
  nsteps (link cf st) k' a last' -> stops cf st last' ->
  k = k'.
Proof.
  revert k' a. induction k as [|k IH]; intros k' a Hk Hs Hk' Hs'.
  - inversion Hk; subst. destruct k' as [|k']; [done|].
    inversion Hk' as [|? ? b ? Hl _]; subst.
    destruct (link_stops_excl _ _ _ Hl Hs).
  - inversion Hk as [|? ? b ? Hl Hrest]; subst.
    destruct k' as [|k'].
    + inversion Hk'; subst. destruct (link_stops_excl _ _ _ Hl Hs').
    + inversion Hk' as [|? ? b' ? Hl' Hrest']; subst.
      destruct Hl as [Hb _], Hl' as [Hb' _].
      rewrite Hb in Hb'. injection Hb' as <-.
      f_equal. by eapply IH.
Qed.

(** A chain either avoids [a], and is then a chain of the dictionary without
    the key [a], or has a proper tail that starts at [a]. *)
Lemma chain_avoids cf a k b last :
  nsteps (link cf st) k b last ->
  nsteps (link (delete a cf) st) k b last
  \/ exists j, (j <= k)%nat /\ nsteps (link cf st) j a last.
Proof.
  induction 1 as [x|n x y z Hl Hrest IH].
  - destruct (decide (x = a)) as [->|Hne].
    + right. exists 0%nat. split; [lia|]. apply nsteps_O.
    + left. apply nsteps_O.
  - destruct (decide (x = a)) as [->|Hne].
    + right. exists (S n). split; [lia|]. by eapply nsteps_l.
    + destruct IH as [IH|(j & Hj & IH)].
      * left. eapply nsteps_l; [|exact IH].
        destruct Hl as [Hcf Hy]. split; [|done].
        by rewrite lookup_delete_ne.
      * right. exists j. split; [lia|done].
Qed.

Lemma chain_bound k : forall cf a last,
  nsteps (link cf st) k a last -> stops cf st last ->
  (k <= size cf)%nat.
Proof.
  induction k as [|k IH]; intros cf a last Hk Hs; [lia|].
  inversion Hk as [|? ? b ? Hl Hrest]; subst.
  destruct (chain_avoids cf a k b last Hrest) as [Hav|(j & Hj & Hback)].
  - assert (Hla : last <> a).
    { intros ->. destruct (link_stops_excl _ _ _ Hl Hs). }
    assert (Hs' : stops (delete a cf) st last).
    { destruct Hs as [Hn|(p & Hp & Hsp)].
      - left. by rewrite lookup_delete_ne.
      - right. exists p. by rewrite lookup_delete_ne. }
    specialize (IH _ _ _ Hav Hs').
    destruct Hl as [Hcf _].
    assert (Hsz : size cf = S (size (delete a cf))).
    { rewrite <- (insert_delete_id cf a b Hcf) at 1.
      rewrite map_size_insert_None; [done|]. apply lookup_delete_eq. }
    lia.
  - assert (S k = j) by (eapply chain_length_unique; eauto). lia.
Qed.

(** X6: what [count_path] returns is at most the number of entries of
    [came_from], and a loop that has not ended after that many rounds plus
    one never ends. *)
Theorem count_path_bound (came_from : gmap node node) current :
  (forall fuel z, count_path fuel came_from st current = Some z ->
                  0 <= z <= Z.of_nat (size came_from))
  /\ (count_path (S (size came_from)) came_from st current = None ->
      forall fuel, count_path fuel came_from st current = None).
Proof.
  assert (Hb : forall fuel z, count_path fuel came_from st current = Some z ->
    exists k last, z = Z.of_nat k /\ (k <= size came_from)%nat
      /\ nsteps (link came_from st) k current last /\ stops came_from st last).
  { intros fuel z Hz. apply count_path_from_inv in Hz
      as (k & last & -> & Hsteps & Hstop).
    exists k, last. split; [lia|]. split; [by eapply chain_bound|done]. }
  split.
  - intros fuel z Hz. destruct (Hb _ _ Hz) as (k & _ & -> & Hk & _). lia.
  - intros Hnone fuel.
    destruct (count_path fuel came_from st current) as [z|] eqn:Hz; [|done].
    destruct (Hb _ _ Hz) as (k & last & -> & Hk & Hsteps & Hstop).
    unfold count_path in Hnone.
    rewrite (count_path_from_chain came_from st k _ _ _ 0 Hsteps Hstop) in Hnone
      by lia.
    done.
Qed.

End CountBound.

(** *** The integer distances *)

Section Distances.

Variable W : Nodes.

(** X7: [manhattan] is a metric on the positions of the nodes. *)
Theorem manhattan_metric a b c :
  0 <= manhattan W a b
  /\ (manhattan W a b = 0 <-> get_pos W a = get_pos W b)
  /\ manhattan W a b = manhattan W b a
  /\ manhattan W a c <= manhattan W a b + manhattan W b c.
Proof.
  unfold manhattan.
  destruct (get_pos W a) as [x1 y1], (get_pos W b) as [x2 y2],
    (get_pos W c) as [x3 y3].
  split; [lia|]. split; [|split; lia].
  split.
  - intros H0. f_equal; lia.
  - intros Heq. injection Heq as -> ->. lia.
Qed.

(** X8: [chebyshev] is at most [manhattan], which is at most twice
    [chebyshev]. *)
Theorem chebyshev_manhattan a b :
  chebyshev W a b <= manhattan W a b <= 2 * chebyshev W a b.
Proof.
  unfold chebyshev, manhattan.
  destruct (get_pos W a) as [x1 y1], (get_pos W b) as [x2 y2]. lia.
Qed.

Lemma penalty_bounds st l :
  0 <= fold_left (blocked_step st) l (Z.of_nat (length l)) <= Z.of_nat (length l).
Proof.
  rewrite RPFacts.blocked_fold.
  pose proof (length_filter
    (fun n => negb (is_checked (st n)) && negb (is_unchecked (st n))) l).
  lia.
Qed.

(** X9: [d_manhattan] lies between [manhattan] and [manhattan] plus the
    number of neighbours of the first node. *)
Theorem d_manhattan_bounds st a b :
  manhattan W a b <= d_manhattan W st a b
  <= manhattan W a b + Z.of_nat (length (neighbors W a)).
Proof.
  unfold d_manhattan, manhattan.
  destruct (get_pos W a) as [x1 y1], (get_pos W b) as [x2 y2].
  pose proof (penalty_bounds st (neighbors W a)). lia.
Qed.

End Distances.

(** *** The dispatch [heuristic] *)

Section HeuristicFacts.

Variable float : Type.
Variable float_is_zero : float -> bool.
Variable pow : number float -> number float -> result (number float).
Variable add : number float -> number float -> number float.
Variable quotient : number float -> number float -> float.
Variable sqrt : Z -> result float.

(** X10: for every kind other than "euclidean", "minkowski" and
    "mahalanobis", [heuristic] raises nothing and returns, whatever further
    arguments are passed, the result of [chebyshev] for "chebyshev", of
    [d_manhattan] for "d_manhattan", and of [manhattan] for "manhattan" and
    for every unknown kind; it is an [int] between the Chebyshev distance
    and the Manhattan distance plus the number of neighbours of the first
    node. *)
Theorem heuristic_integer_kinds W st (type : string) a b :
  type <> "euclidean"%string ->
  type <> "minkowski"%string ->
  type <> "mahalanobis"%string ->
  (forall args,
     heuristic float float_is_zero pow add quotient sqrt W st type a b args
     = Ok (HInt (if decide (type = "chebyshev"%string) then chebyshev W a b
                 else if decide (type = "d_manhattan"%string)
                      then d_manhattan W st a b
                      else manhattan W a b)))
  /\ (forall args h,
        heuristic float float_is_zero pow add quotient sqrt W st type a b args
        = Ok (HInt h) ->
        chebyshev W a b <= h
        <= manhattan W a b + Z.of_nat (length (neighbors W a))).
Proof.
  intros He Hm Hh.
  assert (Hall : forall args,
    heuristic float float_is_zero pow add quotient sqrt W st type a b args
    = Ok (HInt (if decide (type = "chebyshev"%string) then chebyshev W a b
                else if decide (type = "d_manhattan"%string)
                     then d_manhattan W st a b
                     else manhattan W a b))).
  { intros args. unfold heuristic. by repeat case_decide. }
  split; [exact Hall|].
  intros args h Hres. rewrite Hall in Hres. injection Hres as <-.
  pose proof (penalty_bounds st (neighbors W a)) as Hp.
  repeat case_decide;
    unfold chebyshev, d_manhattan, manhattan;
    destruct (get_pos W a) as [x1 y1], (get_pos W b) as [x2 y2]; lia.
Qed.

End HeuristicFacts.

Lemma get_unvisited_nodes_reachable_witness :
  get_unvisited_nodes 5 Examples.junction 0%nat = Some [0; 1; 2; 3]%nat
  /\ NoDup [0; 1; 2; 3]%nat
  /\ forall n, n ∈ [0; 1; 2; 3]%nat <-> rtc (edge Examples.junction) 0%nat n.
Proof.
  split; [reflexivity|].
  exact (proj2 (get_unvisited_nodes_reachable Examples.junction 0%nat 5
                  [0; 1; 2; 3]%nat eq_refl)).
Defined.

Lemma junction_closed a b :
  a ∈ [0; 1; 2; 3]%nat -> b ∈ neighbors Examples.junction a ->
  b ∈ [0; 1; 2; 3]%nat.
Proof.
  intros Ha Hb.
  destruct a as [|[|[|[|a]]]]; simpl in Hb;
    repeat (apply elem_of_cons in Hb as [->|Hb];
            [repeat constructor|]);
    by apply elem_of_nil in Hb.
Defined.

Lemma get_unvisited_nodes_terminates_witness :
  exists l, get_unvisited_nodes 5 Examples.junction 0%nat = Some l
            /\ l ⊆ [0; 1; 2; 3]%nat.
Proof.
  apply (get_unvisited_nodes_terminates Examples.junction 0%nat
           [0; 1; 2; 3]%nat 5).
  - apply list_elem_of_here.
  - exact junction_closed.
  - simpl. lia.
Defined.

Lemma ring_links a :
  a = 1%nat \/ a = 3%nat ->
  exists b, link Examples.ring_from Examples.partial_tags a b
            /\ (b = 1%nat \/ b = 3%nat).
Proof.
  intros [-> | ->].
  - exists 3%nat. split; [split; reflexivity|by right].
  - exists 1%nat. split; [split; reflexivity|by left].
Defined.

Lemma count_path_cycle_witness :
  count_path 100 Examples.ring_from Examples.partial_tags 1%nat = None.
Proof.
  apply (count_path_cycle Examples.ring_from Examples.partial_tags
           (fun a => a = 1%nat \/ a = 3%nat) 1%nat 100 ring_links).
  by left.
Defined.

Lemma route_targets a p :
  Examples.route_from !! a = Some p ->
  (is_start (Examples.junction_tags p) = true <-> p = 0%nat).
Proof.
  unfold Examples.route_from. intros Hp.
  destruct (decide (a = 3%nat)) as [->|H3].
  - rewrite lookup_insert_eq in Hp. injection Hp as <-. split; discriminate.
  - rewrite lookup_insert_ne in Hp by done.
    destruct (decide (a = 1%nat)) as [->|H1].
    + rewrite lookup_insert_eq in Hp. injection Hp as <-. split; reflexivity.
    + rewrite lookup_insert_ne in Hp by done. discriminate.
Defined.

Lemma thread_count_path_agrees_witness :
  thread_count_path 5 [7; 9] Examples.route_from 3%nat 0%nat
  = (fun z => Ok ((7 + z) :: [9]))
      <$> count_path 5 Examples.route_from Examples.junction_tags 3%nat.
Proof.
  exact (thread_count_path_agrees Examples.route_from Examples.junction_tags
           0%nat 5 3%nat 7 [9] route_targets).
Defined.

Lemma heuristic_integer_kinds_witness :
  (forall args,
     heuristic Q (fun _ => false) Examples.pow0 Examples.add0
       Examples.quotient0 Examples.sqrt0 Examples.junction
       Examples.junction_tags "octile" 0%nat 3%nat args
     = Ok (HInt (manhattan Examples.junction 0%nat 3%nat)))
  /\ (forall args h,
        heuristic Q (fun _ => false) Examples.pow0 Examples.add0
          Examples.quotient0 Examples.sqrt0 Examples.junction
          Examples.junction_tags "octile" 0%nat 3%nat args
        = Ok (HInt h) ->
        chebyshev Examples.junction 0%nat 3%nat <= h
        <= manhattan Examples.junction 0%nat 3%nat
           + Z.of_nat (length (neighbors Examples.junction 0%nat))).
Proof.
  apply (heuristic_integer_kinds Q (fun _ => false) Examples.pow0
           Examples.add0 Examples.quotient0 Examples.sqrt0 Examples.junction
           Examples.junction_tags "octile" 0%nat 3%nat); discriminate.
Defined.

End RPExtra.

(** ** The search of [LPAStar.py] as a whole *)

Module LPAStarExtra.

Import LPAStar LPAStarFacts.

(** *** The walk of [reconstruct_path] *)

Lemma min_from_in (costs : dict) best cbest l m :
  min_from costs best cbest l = Ok m -> m = best \/ m ∈ l.
Proof.
  revert best cbest. induction l as [|x l IH]; intros best cbest Hm; simpl in Hm.
  - left. by simplify_eq.
  - apply bind_Ok_inv in Hm as (c & _ & Hm).
    destruct (cost_ltb c cbest); apply IH in Hm as [->|Hm];
      auto using list_elem_of_here, list_elem_of_further.
Qed.

Lemma min_by_cost_in (costs : dict) l m :
  min_by_cost costs l = Ok m -> m ∈ l.
Proof.
  destruct l as [|x l]; [done|]. simpl. intros Hm.
  apply bind_Ok_inv in Hm as (c & _ & Hm).
  apply min_from_in in Hm as [->|Hm];
    auto using list_elem_of_here, list_elem_of_further.
Qed.

Lemma picked_checked W (costs : dict) st current next :
  min_by_cost costs (get_checked_neighbors W st current) = Ok next ->
  is_start (st next) = false ->
  st next = Checked /\ next ∈ neighbors W current.
Proof.
  intros Hm Hs. apply min_by_cost_in in Hm.
  unfold get_checked_neighbors in Hm.
  apply list_elem_of_filter in Hm as [Hc Hin]. split; [|done].
  rewrite Hs, orb_false_r in Hc. unfold is_checked in Hc.
  apply Is_true_true in Hc. by apply bool_decide_eq_true in Hc.
Qed.

(** X11: whatever the costs and however the call ends, [reconstruct_path]
    changes the tag of no node other than from Checked to Path. *)
Theorem reconstruct_path_marks_checked fuel W current (costs : dict) st n :
  (reconstruct_path fuel W current costs st).1 n = st n
  \/ (st n = Checked /\ (reconstruct_path fuel W current costs st).1 n = Path).
Proof.
  revert current st. induction fuel as [|fuel IH]; intros current st; [by left|].
  simpl. destruct (is_start (st current)); [by left|].
  destruct (min_by_cost costs (get_checked_neighbors W st current))
    as [next|e] eqn:Hm; [|by left].
  destruct (is_start (st next)) eqn:Hs; [by left|].
  destruct (picked_checked _ _ _ _ _ Hm Hs) as [Hc _].
  destruct (IH next (make_path st next)) as [Heq|[Hch Hp]].
  - rewrite Heq. unfold make_path, set_state.
    destruct (decide (n = next)) as [->|Hne]; [by right|by left].
  - right. split; [|done]. unfold make_path, set_state in Hch.
    by destruct (decide (n = next)).
Qed.

Lemma filter_same (P P' : node -> bool) (L : list node) :
  (forall n, n ∈ L -> P' n = P n) ->
  filter (fun n => P' n) L = filter (fun n => P n) L.
Proof.
  induction L as [|y L IH]; intros Hsame; [done|].
  rewrite !filter_cons, (Hsame y) by apply list_elem_of_here.
  rewrite IH; [done|]. intros n Hn. by apply Hsame, list_elem_of_further.
Qed.

Lemma filter_shrinks (P P' : node -> bool) (L : list node) x :
  NoDup L -> x ∈ L -> P x = true -> P' x = false ->
  (forall n, n <> x -> P' n = P n) ->
  (length (filter (fun n => P' n) L) < length (filter (fun n => P n) L))%nat.
Proof.
  intros Hnd Hx HP HP' Hsame.
  induction Hnd as [|y L Hy Hnd IH]; [by apply elem_of_nil in Hx|].
  rewrite !filter_cons.
  destruct (decide (y = x)) as [->|Hne].
  - rewrite HP, HP'. simpl.
    assert (Heq : filter (fun n => P' n) L = filter (fun n => P n) L).
    { apply filter_same. intros n Hn. apply Hsame. by intros ->. }
    rewrite Heq. lia.
  - apply elem_of_cons in Hx as [Hx|Hx]; [done|].
    rewrite (Hsame y Hne). specialize (IH Hx).
    destruct (P y); simpl; lia.
Qed.

Lemma reconstruct_path_fuel (L : list node) fuel W current (costs : dict) st :
  NoDup L ->
  (forall n, st n = Checked -> n ∈ L) ->
  (length (filter (fun n => is_checked (st n)) L) < fuel)%nat ->
  (reconstruct_path fuel W current costs st).2 <> OutOfFuel.
Proof.
  intros Hnd. revert current st.
  induction fuel as [|fuel IH]; intros current st HL Hlt; [lia|].
  simpl. destruct (is_start (st current)); [done|].
  destruct (min_by_cost costs (get_checked_neighbors W st current))
    as [next|e] eqn:Hm; [|done].
  destruct (is_start (st next)) eqn:Hs; [done|].
  destruct (picked_checked _ _ _ _ _ Hm Hs) as [Hc _].
  apply IH.
  - intros n Hn. apply HL. unfold make_path, set_state in Hn.
    by destruct (decide (n = next)).
  - assert (Hsh : (length (filter (fun n => is_checked (make_path st next n)) L)
                   < length (filter (fun n => is_checked (st n)) L))%nat).
    { apply (filter_shrinks (fun n => is_checked (st n))
               (fun n => is_checked (make_path st next n)) L next);
        [done|by apply HL|by rewrite Hc| |].
      - unfold make_path. by rewrite set_state_same.
      - intros n Hne. unfold make_path. by rewrite set_state_other. }
    lia.
Qed.

(** X12: when the nodes tagged Checked all lie in a list [U], the loop of
    [reconstruct_path] ends, by returning or by raising, within
    [length U + 1] rounds. *)
Theorem reconstruct_path_terminates (U : list node) fuel W current
    (costs : dict) st :
  (forall n, st n = Checked -> n ∈ U) ->
  (length U < fuel)%nat ->
  (reconstruct_path fuel W current costs st).2 <> OutOfFuel.
Proof.
  intros HU Hlt.
  apply (reconstruct_path_fuel (remove_dups U)).
  - apply NoDup_remove_dups.
  - intros n Hn. apply elem_of_remove_dups. by apply HU.
  - pose proof (length_filter (fun n => is_checked (st n)) (remove_dups U)).
    assert (length (remove_dups U) <= length U)%nat.
    { apply submseteq_length, NoDup_submseteq; [apply NoDup_remove_dups|].
      intros n Hn. exact (proj1 (elem_of_remove_dups U n) Hn). }
    lia.
Qed.

(** *** The entry of [lpa_star] *)

Section Entry.

Context {HQ : HeapQ}.
Variable W : Nodes.
Variable G : Grid.

Lemma all_inf_None n : n ∉ concat (grid G) -> all_inf G !! n = None.
Proof.
  unfold all_inf. induction (concat (grid G)) as [|m l IH]; simpl; [done|].
  intros Hn. apply not_elem_of_cons in Hn as [Hne Hn].
  rewrite lookup_insert_ne by done. by apply IH.
Qed.

Lemma all_inf_Some n : n ∈ concat (grid G) -> all_inf G !! n = Some Inf.
Proof.
  unfold all_inf. induction (concat (grid G)) as [|m l IH]; simpl.
  - intros Hn. by apply elem_of_nil in Hn.
  - intros Hn. destruct (decide (m = n)) as [->|Hne].
    + by rewrite lookup_insert_eq.
    + rewrite lookup_insert_ne by done. apply IH.
      by apply elem_of_cons in Hn as [Hn|Hn].
Qed.

(** X13: when [grid.start] or [grid.end] is not among the nodes of
    [grid.grid], [lpa_star] raises [KeyError] before the first round. *)
Theorem lpa_star_missing_endpoint rounds answers fuel st :
  start G ∉ concat (grid G) \/ end_ G ∉ concat (grid G) ->
  lpa_star W G rounds answers fuel st = Raise KeyError.
Proof.
  intros Hmiss. unfold lpa_star.
  destruct (decide (start G ∈ concat (grid G))) as [Hs|Hs].
  - destruct Hmiss as [Hmiss|He]; [done|].
    unfold lpa_init, calc_key.
    rewrite (get_lookup _ _ _ (all_inf_Some _ Hs)). simpl.
    rewrite (get_lookup _ _ (Num 0)) by apply lookup_insert_eq. simpl.
    assert (Hne : end_ G <> start G) by (by intros Heq; rewrite Heq in He).
    assert (Hu : forall k r t,
      unsettled W G {| rhs := <[start G := Num 0]> (all_inf G); g := all_inf G;
                       open_list := [(k, start G)]; topKey := k;
                       run := r; tags := t |} = Raise KeyError).
    { intros k r t. unfold unsettled, calc_key, get. simpl.
      by rewrite (all_inf_None _ He). }
    destruct rounds; simpl; by rewrite Hu.
  - unfold lpa_init, calc_key, get. by rewrite (all_inf_None _ Hs).
Qed.

End Entry.

Section Sound.

Context {HQ : HeapQ} {HL : HeapQLaws HQ}.
Variable W : Nodes.
Variable G : Grid.

Lemma trail_facts (g : dict) p n c :
  trail W G g p n c ->
  0 <= c /\ Z.of_nat (length p) = c + 1 /\ NoDup p /\ n ∈ p
  /\ forall m, m ∈ p -> exists x, g !! m = Some (Num x) /\ x <= c.
Proof.
  induction 1 as [x Hg Hx|p u v c x Htr IH Huv Hvp Hg Hx].
  - split; [lia|]. split; [done|]. split; [apply NoDup_singleton|].
    split; [apply list_elem_of_here|].
    intros m Hm. apply list_elem_of_singleton in Hm as ->. exists x. split; [done|lia].
  - destruct IH as (Hc & Hlen & Hnd & Hin & Hall).
    split; [lia|]. split; [simpl length; lia|].
    split; [by apply NoDup_cons|]. split; [apply list_elem_of_here|].
    intros m Hm. apply elem_of_cons in Hm as [->|Hm].
    + by exists x.
    + destruct (Hall m Hm) as (y & Hy & Hle). exists y. split; [done|lia].
Qed.

Lemma lowered_num (g g' : dict) m x :
  lowered g g' -> g !! m = Some (Num x) ->
  exists x', g' !! m = Some (Num x') /\ x' <= x.
Proof.
  intros Hlow Hg. destruct (Hlow m _ Hg) as (x' & Hx' & Hle).
  destruct x' as [y|]; [|done]. exists y. split; [done|].
  simpl in Hle. lia.
Qed.

Lemma trail_lowered (g g' : dict) p n c :
  lowered g g' -> trail W G g p n c -> trail W G g' p n c.
Proof.
  intros Hlow. induction 1 as [x Hg Hx|p u v c x Htr IH Huv Hvp Hg Hx].
  - destruct (lowered_num _ _ _ _ Hlow Hg) as (x' & Hx' & Hle).
    apply (trail_start _ _ _ x'); [done|lia].
  - destruct (lowered_num _ _ _ _ Hlow Hg) as (x' & Hx' & Hle).
    apply (trail_step _ _ _ p u v c x'); [done|done|done|done|lia].
Qed.

(** A trail is a path along neighbour lists from the start node. *)
Lemma trail_nsteps (g : dict) p n c :
  grid_ok W -> trail W G g p n c ->
  nsteps (adjacent W) (Z.to_nat c) (start G) n.
Proof.
  intros Hgrid. induction 1 as [x Hg Hx|p u v c x Htr IH Huv Hvp Hg Hx].
  - apply nsteps_O.
  - pose proof (trail_facts _ _ _ _ Htr) as (Hc & _).
    replace (Z.to_nat (c + 1)) with (S (Z.to_nat c)) by lia.
    eapply nsteps_r; [exact IH|]. by apply (grid_symmetric _ Hgrid).
Qed.

Lemma trail_bound (g : dict) p n c :
  trail W G g p n c -> c + 1 <= Z.of_nat (size g).
Proof.
  intros Htr. destruct (trail_facts _ _ _ _ Htr) as (_ & Hlen & Hnd & _ & Hall).
  rewrite <- Hlen. apply inj_le.
  rewrite <- size_dom. unfold size, set_size. simpl.
  apply submseteq_length, NoDup_submseteq; [done|].
  intros m Hm. apply elem_of_elements, elem_of_dom.
  destruct (Hall m Hm) as (x & Hx & _). by exists (Num x).
Qed.

Lemma lowered_insert (g : dict) n gn rn :
  g !! n = Some gn -> cost_ltb gn rn = false -> lowered g (<[n := rn]> g).
Proof.
  intros Hgn Hle m x Hm. destruct (decide (m = n)) as [->|Hne].
  - rewrite lookup_insert_eq. exists rn. split; [done|]. congruence.
  - rewrite lookup_insert_ne by done. exists x. split; [done|].
    apply cost_ltb_irrefl.
Qed.

(** Lowering [g[n]] to the lookahead of [n] keeps every finite [g] the
    length of a trail. *)
Lemma settle_traced (g : dict) n gn c0 :
  traced W G g ->
  g !! n = Some gn -> cost_ltb (Num c0) gn = true ->
  (n = start G /\ c0 = 0)
  \/ (exists nb c, nb ∈ neighbors W n /\ g !! nb = Some c
                   /\ Num c0 = cost_add c 1) ->
  traced W G (<[n := Num c0]> g).
Proof.
  intros Htr Hgn Hlt Hwhy m c Hm.
  assert (Hlow : lowered g (<[n := Num c0]> g)).
  { eapply lowered_insert; [done|]. revert Hlt. cost_cases. }
  destruct (decide (m = n)) as [->|Hne].
  - rewrite lookup_insert_eq in Hm. injection Hm as <-.
    destruct Hwhy as [[-> ->]|(nb & cn & Hnb & Hgnb & Hc0)].
    + exists [start G]. apply (trail_start _ _ _ 0); [apply lookup_insert_eq|lia].
    + destruct cn as [y|]; [|done]. simpl in Hc0. injection Hc0 as ->.
      destruct (Htr nb y Hgnb) as [p Hp].
      exists (n :: p).
      apply (trail_step _ _ _ p nb n y (y + 1));
        [by eapply trail_lowered|done| |apply lookup_insert_eq|lia].
      intros Hin. destruct (trail_facts _ _ _ _ Hp) as (_ & _ & _ & _ & Hall).
      destruct (Hall n Hin) as (x & Hx & Hle).
      rewrite Hgn in Hx. injection Hx as ->. simpl in Hlt. lia.
  - rewrite lookup_insert_ne in Hm by done.
    destruct (Htr m c Hm) as [p Hp]. exists p. by eapply trail_lowered.
Qed.

(** The lookahead does not grow when [g] is lowered and tags move on. *)
Lemma lookahead_lowered st0 st (g0 g' : dict) v r0 x' :
  lookahead_is W st0 g0 v r0 -> lookahead_is W st g' v x' ->
  tags_step st0 st -> lowered g0 g' ->
  cost_ltb r0 x' = false.
Proof.
  intros [_ Hatt] [Hlow' _] Hst Hlow.
  destruct Hatt as [->|(nb & c & Hin & Hc & Hg & ->)]; [done|].
  destruct (Hlow nb c Hg) as (c' & Hc' & Hle).
  pose proof (Hlow' nb c' Hin (tags_step_counted W _ _ _ Hst Hc) Hc') as Hb.
  revert Hle Hb. cost_cases.
Qed.

(** *** The neighbour loop keeps [rhs] at or below [g] *)

Lemma update_neighbors_under l st (rhs g : dict) ol st' rhs' ol' :
  (forall st1 v x gv,
     tags_step st st1 -> v ∈ l -> v <> start G ->
     lookahead_is W st1 g v x -> g !! v = Some gv ->
     cost_ltb gv x = false) ->
  never_under rhs g -> same_keys rhs g ->
  update_neighbors W G l st rhs g ol = Ok (st', rhs', ol') ->
  never_under rhs' g /\ same_keys rhs' g.
Proof.
  revert st rhs ol.
  induction l as [|nb l IH]; intros st rhs ol Hcap Hun Hk Hu; simpl in Hu.
  - by simplify_eq.
  - apply bind_Ok_inv in Hu as ([r1 o1] & Hv & Hu).
    pose proof (tags_step_reopened st nb) as Hst.
    assert (H1 : never_under r1 g /\ same_keys r1 g).
    { destruct (decide (nb = start G)) as [->|Hn].
      - rewrite update_vertex_start in Hv. by simplify_eq.
      - apply update_vertex_inv in Hv as (x & gn & Hx & Hgn & -> & _); [|done].
        split.
        + intros m gm rm Hgm Hrm. destruct (decide (m = nb)) as [->|Hne].
          * rewrite lookup_insert_eq in Hrm. injection Hrm as <-.
            eapply (Hcap _ nb x gm Hst); [apply list_elem_of_here|done| |done].
            by apply lookahead_is_of.
          * rewrite lookup_insert_ne in Hrm by done. by eapply Hun.
        + intros m. destruct (decide (m = nb)) as [->|Hne].
          * rewrite lookup_insert_eq, Hgn. split; eauto.
          * rewrite lookup_insert_ne by done. apply Hk. }
    destruct H1 as [Hun1 Hk1].
    eapply (IH (reopened st nb) r1 o1); [|done|done|exact Hu].
    intros st1 v x gv Hst1 Hin. apply Hcap.
    + by eapply tags_step_trans.
    + by apply list_elem_of_further.
Qed.

(** *** What the tags of a round keep *)

Lemma reopened_checked st n m :
  is_checked (st m) = true -> is_checked (reopened st n m) = true.
Proof.
  intros Hc. unfold reopened.
  destruct (negb (is_start (st n)) && negb (is_end (st n))
            && negb (is_checked (st n))) eqn:Hcond; [|done].
  unfold uncheck, set_state. destruct (decide (m = n)) as [->|Hne]; [|done].
  rewrite Hc in Hcond. by rewrite andb_false_r in Hcond.
Qed.

Lemma marked_checked st n m :
  is_checked (st m) = true -> is_checked (marked st n m) = true.
Proof.
  intros Hc. unfold marked.
  destruct (negb (is_start (st n)) && negb (is_end (st n))); [|done].
  unfold check_node, set_state. by destruct (decide (m = n)).
Qed.

Lemma update_neighbors_tags l st (rhs g : dict) ol st' rhs' ol' :
  update_neighbors W G l st rhs g ol = Ok (st', rhs', ol') ->
  tags_step st st'
  /\ forall m, is_checked (st m) = true -> is_checked (st' m) = true.
Proof.
  revert st rhs ol. induction l as [|nb l IH]; intros st rhs ol Hu; simpl in Hu.
  - simplify_eq. split; [apply tags_step_refl|done].
  - apply bind_Ok_inv in Hu as ([r1 o1] & _ & Hu).
    destruct (IH _ _ _ Hu) as [Hst Hch]. split.
    + eapply tags_step_trans; [apply tags_step_reopened|done].
    + intros m Hm. by apply Hch, reopened_checked.
Qed.

Lemma marked_self st n :
  is_checked (marked st n n) || is_start (marked st n n)
  || is_end (marked st n n) = true.
Proof.
  unfold marked.
  destruct (is_start (st n)) eqn:Hs; simpl; [by rewrite Hs, orb_true_r|].
  destruct (is_end (st n)) eqn:He; simpl; [by rewrite He, orb_true_r|].
  unfold check_node. by rewrite set_state_same.
Qed.

Lemma update_neighbors_defined l st (rhs g : dict) ol st' rhs' ol' nb :
  update_neighbors W G l st rhs g ol = Ok (st', rhs', ol') ->
  is_Some (g !! start G) -> nb ∈ l -> is_Some (g !! nb).
Proof.
  revert st rhs ol. induction l as [|x l IH]; intros st rhs ol Hu Hs Hin;
    simpl in Hu; [by apply elem_of_nil in Hin|].
  apply bind_Ok_inv in Hu as ([r1 o1] & Hv & Hu).
  apply elem_of_cons in Hin as [->|Hin]; [|by eapply IH].
  destruct (decide (x = start G)) as [->|Hn]; [done|].
  apply update_vertex_inv in Hv as (y & gn & _ & Hgn & _); [|done]. by eexists.
Qed.

(** *** One round *)

Lemma round_sound s k n ol gn rn g' rhs' ol' st1 rhs'' ol'' :
  grid_ok W -> searching W G s -> sound W G s ->
  finite_checked (tags s) (g s) ->
  heappop (open_list s) = Some ((k, n), ol) ->
  g s !! n = Some gn -> rhs s !! n = Some rn ->
  branch W G (tags s) n (rhs s) (g s) ol gn rn g' rhs' ol' ->
  update_neighbors W G (neighbors W n) (tags s) rhs' g' ol'
  = Ok (st1, rhs'', ol'') ->
  cost_ltb rn gn = true
  /\ g' = <[n := rn]> (g s) /\ rhs' = rhs s /\ ol' = ol
  /\ never_under rhs'' g' /\ traced W G g' /\ same_keys rhs'' g'
  /\ closed W g'
  /\ finite_checked (marked st1 n) g'.
Proof.
  intros Hgrid Hsearch [Hun Htr Hk Hcl] Hfc Hpop Hgn Hrn Hbr Hnb.
  pose proof Hsearch as [Hq Hs Ht Hgoal _ Hopen _ Hfr].
  edestruct heappop_queue_ok as (_ & Hinc & _ & _); [exact Hq|exact Hpop|].
  assert (Hlt : cost_ltb rn gn = true).
  { destruct (cost_ltb rn gn) eqn:Hlt; [done|]. exfalso. apply Hinc.
    rewrite Hgn, Hrn. f_equal.
    apply cost_ltb_total; [by eapply Hun|done]. }
  destruct Hbr as [(_ & -> & -> & ->)|(Hlt' & _)]; [|congruence].
  split; [done|]. split; [done|]. split; [done|]. split; [done|].
  destruct rn as [c0|]; [|by destruct gn].
  assert (Hlow : lowered (g s) (<[n := Num c0]> (g s))).
  { eapply lowered_insert; [done|]. revert Hlt. cost_cases. }
  assert (Hun0 : never_under (rhs s) (<[n := Num c0]> (g s))).
  { intros m gm rm Hgm Hrm. destruct (decide (m = n)) as [->|Hne].
    - rewrite lookup_insert_eq in Hgm. rewrite Hrn in Hrm.
      simplify_eq. apply cost_ltb_irrefl.
    - rewrite lookup_insert_ne in Hgm by done. by eapply Hun. }
  assert (Hk0 : same_keys (rhs s) (<[n := Num c0]> (g s))).
  { intros m. specialize (Hk m). destruct (decide (m = n)) as [->|Hne].
    - rewrite lookup_insert_eq. rewrite Hgn in Hk. split; [intros _; apply Hk; eauto|eauto].
    - by rewrite lookup_insert_ne. }
  destruct (update_neighbors_tags _ _ _ _ _ _ _ _ Hnb) as [Hst Hch].
  edestruct update_neighbors_under as [Hun1 Hk1];
    [|exact Hun0|exact Hk0|exact Hnb|].
  { intros st2 v x gv Hst2 Hin Hv Hla Hgv.
    assert (Hvn : v <> n).
    { intros ->. by apply (grid_irreflexive _ Hgrid n). }
    rewrite lookup_insert_ne in Hgv by done.
    destruct (proj1 (Hk v)) as [r0 Hr0]; [by eexists|].
    pose proof (Hun v gv r0 Hgv Hr0) as Hle.
    assert (Hla0 : lookahead_is W (tags s) (g s) v r0).
    { apply Hfr; [done|apply not_elem_of_nil|done]. }
    pose proof (lookahead_lowered _ _ _ _ _ _ _ Hla0 Hla Hst2 Hlow) as Hle'.
    revert Hle Hle'. cost_cases. }
  split; [done|]. split; [|split; [done|split]].
  - eapply settle_traced; [done|done|done|].
    destruct (decide (n = start G)) as [->|Hn].
    + left. split; [done|]. destruct Hs as [Hrs _]. rewrite Hrs in Hrn.
      by injection Hrn.
    + right.
      destruct (Hfr n (Num c0) Hn (not_elem_of_nil _) Hrn) as [_ Hatt].
      destruct Hatt as [Hinf|(nb & c & Hin & _ & Hg & Hc0)]; [done|].
      by exists nb, c.
  - intros m c nb Hm Hnbm.
    assert (Hstart : is_Some (<[n := Num c0]> (g s) !! start G)).
    { destruct Hs as [_ [Hg0|Hg0]];
        (destruct (decide (start G = n)) as [<-|Hne];
         [rewrite lookup_insert_eq|rewrite lookup_insert_ne by done]); eauto. }
    destruct (decide (m = n)) as [->|Hne].
    + by eapply update_neighbors_defined.
    + rewrite lookup_insert_ne in Hm by done.
      destruct (Hcl m c nb Hm Hnbm) as [x Hx].
      destruct (decide (nb = n)) as [->|Hnb'].
      * rewrite lookup_insert_eq. eauto.
      * rewrite lookup_insert_ne by done. eauto.
  - intros m c Hm. destruct (decide (m = n)) as [->|Hne].
    + apply marked_self.
    + rewrite lookup_insert_ne in Hm by done.
      pose proof (Hfc m c Hm) as Hc.
      pose proof (tags_step_marked st1 n m) as (Hs1 & He1 & _).
      destruct (Hst m) as (Hs2 & He2 & _).
      rewrite Hs1, He1, Hs2, He2.
      destruct (is_checked (tags s m)) eqn:Hcm.
      * by rewrite (marked_checked _ _ _ (Hch m Hcm)).
      * simpl in Hc. apply orb_true_iff in Hc as [Hc|Hc]; rewrite Hc;
          by rewrite ?orb_true_r.
Qed.

(** *** Every reachable loop state *)

Lemma lpa_init_sound st0 s :
  lpa_init W G st0 = Ok s ->
  sound W G s /\ finite_checked (tags s) (g s).
Proof.
  intros Hi. apply lpa_init_inv in Hi as (Hr & Hg & Hgs & _).
  assert (Hinf : forall n x, g s !! n = Some x -> x = Inf).
  { intros n x. rewrite Hg. apply all_inf_lookup. }
  split; [split|].
  - intros n gn rn Hgn _. by rewrite (Hinf _ _ Hgn).
  - intros n c Hn. by apply Hinf in Hn.
  - intros n. rewrite Hr. destruct (decide (n = start G)) as [->|Hne].
    + rewrite lookup_insert_eq, Hgs. split; eauto.
    + rewrite lookup_insert_ne by done. by rewrite Hg.
  - intros n c nb Hn. by apply Hinf in Hn.
  - intros n c Hn. by apply Hinf in Hn.
Qed.

Lemma loop_test_searching st0 s :
  grid_ok W -> tags_ok G st0 ->
  reachable W G st0 s -> loop_test W G s = Ok true ->
  searching W G s.
Proof.
  intros Hgrid Ht Hr Htest. unfold loop_test in Htest.
  destruct (reachable_cases W G _ _ Hgrid Ht Hr) as [Hs|[[Hu _]|[e Hu]]];
    [done| |]; rewrite Hu in Htest; done.
Qed.

Lemma reachable_sound st0 s :
  grid_ok W -> tags_ok G st0 ->
  reachable W G st0 s ->
  sound W G s /\ (searching W G s -> finite_checked (tags s) (g s)).
Proof.
  intros Hgrid Ht. induction 1 as [s Hi|s answer fuel s' Hr IH Htest Hb].
  - destruct (lpa_init_sound _ _ Hi) as [Hso Hfc]. by split.
  - destruct IH as [Hso Hfc].
    pose proof (loop_test_searching _ _ Hgrid Ht Hr Htest) as Hsearch.
    pose proof Hb as Hb0.
    apply loop_body_inv in Hb
      as (k & n & ol & gn & rn & g' & rhs' & ol' & st1 & Hpop & Hgn & Hrn
          & Hbr & Hnb & Hg' & Hk & _ & Htags).
    destruct (round_sound _ _ _ _ _ _ _ _ _ _ _ _ Hgrid Hsearch Hso
                (Hfc Hsearch) Hpop Hgn Hrn Hbr Hnb)
      as (_ & _ & _ & _ & Hun & Htr & Hks & Hcl & Hfc').
    split; [split; by rewrite Hg'|].
    intros Hs'. destruct Htags as [[_ ->]|[-> _]]; [by rewrite Hg'|].
    exfalso.
    edestruct round_settled as [Hu _]; [exact Hgrid|exact Hsearch|exact Hpop|
      exact Hgn|exact Hrn|exact Hbr|exact Hnb|exact Hg'|exact Hk|].
    by apply (searching_unsettled W G _ _ Hs') in Hu.
Qed.

Lemma popped_lower s k n ol :
  searching W G s -> sound W G s ->
  heappop (open_list s) = Some ((k, n), ol) ->
  exists gn rn, g s !! n = Some gn /\ rhs s !! n = Some rn
                /\ cost_ltb rn gn = true.
Proof.
  intros [Hq _ _ _ _ _ _ _] [Hun _ _ _] Hpop.
  edestruct heappop_queue_ok as (_ & Hinc & (gn & rn & Hgn & Hrn & _) & _);
    [exact Hq|exact Hpop|].
  exists gn, rn. split; [done|]. split; [done|].
  destruct (cost_ltb rn gn) eqn:Hlt; [done|]. exfalso. apply Hinc.
  rewrite Hgn, Hrn. f_equal. apply cost_ltb_total; [by eapply Hun|done].
Qed.

(** *** How a call of [lpa_star] ends *)

Lemma loop_body_no_path answer fuel s s' :
  loop_body W G answer fuel s = Ok (NoPath s') ->
  open_list s = [] /\ g s' = g s /\ rhs s' = rhs s /\ tags s' = tags s
  /\ open_list s' = [].
Proof.
  unfold loop_body, check. simpl. intros Hb.
  destruct (open_list s) as [|e0 l0] eqn:Hol; [by simplify_eq|].
  destruct (heappop (e0 :: l0)) as [[[k n] ol]|]; [|done].
  destruct (get (g s) n) as [gn|]; simpl in Hb; [|done].
  destruct (get (rhs s) n) as [rn|]; simpl in Hb; [|done].
  match type of Hb with
  | context [bind ?m _] => destruct m as [[[g' rhs'] ol']|]; simpl in Hb; [|done]
  end.
  destruct (update_neighbors W G (neighbors W n) (tags s) rhs' g' ol')
    as [[[st1 rhs''] ol'']|]; simpl in Hb; [|done].
  destruct (decide (n = end_ G)); [|done].
  destruct (reconstruct_path fuel W n rhs'' (marked st1 n)) as [st' [| |]]; done.
Qed.

Lemma lpa_loop_outcome st0 rounds answers fuel s out :
  reachable W G st0 s ->
  lpa_loop W G rounds answers fuel s = Ok out ->
  match out with
  | Converged s' => reachable W G st0 s' /\ unsettled W G s' = Ok false
  | Cancelled s' =>
      reachable W G st0 s' /\ unsettled W G s' = Ok true /\ run s' = false
  | Exhausted s' =>
      exists s1, reachable W G st0 s1 /\ loop_test W G s1 = Ok true
                 /\ open_list s1 = [] /\ g s' = g s1 /\ rhs s' = rhs s1
                 /\ tags s' = tags s1 /\ open_list s' = []
  | Cutoff => True
  end.
Proof.
  revert answers s. induction rounds as [|rounds IH]; intros answers s Hr Hl;
    simpl in Hl; apply bind_Ok_inv in Hl as (c & Hc & Hl);
    (destruct c; simpl in Hl; [|by simplify_eq]);
    (destruct (run s) eqn:Hrun; simpl in Hl; [|by simplify_eq]).
  - by simplify_eq.
  - assert (Htest : loop_test W G s = Ok true).
    { unfold loop_test. rewrite Hc. simpl. by rewrite Hrun. }
    apply bind_Ok_inv in Hl as (it & Hb & Hl).
    destruct it as [s'|s'|].
    + eapply IH; [|exact Hl]. by eapply reach_step.
    + simplify_eq. apply loop_body_no_path in Hb as (Hol & Hg & Hrhs & Ht & Hol').
      by exists s.
    + by simplify_eq.
Qed.

Lemma lpa_star_outcome st0 rounds answers fuel out :
  lpa_star W G rounds answers fuel st0 = Ok out ->
  match out with
  | Converged s' => reachable W G st0 s' /\ unsettled W G s' = Ok false
  | Cancelled s' =>
      reachable W G st0 s' /\ unsettled W G s' = Ok true /\ run s' = false
  | Exhausted s' =>
      exists s1, reachable W G st0 s1 /\ loop_test W G s1 = Ok true
                 /\ open_list s1 = [] /\ g s' = g s1 /\ rhs s' = rhs s1
                 /\ tags s' = tags s1 /\ open_list s' = []
  | Cutoff => True
  end.
Proof.
  unfold lpa_star. intros Hl. apply bind_Ok_inv in Hl as (s & Hi & Hl).
  eapply lpa_loop_outcome; [|exact Hl]. by apply reach_init.
Qed.

(** X14: whenever the loop condition of [lpa_star] is evaluated, no
    [rhs[n]] is above [g[n]]; so in every round [g[node] > rhs[node]] holds
    of the node taken off the open list, and the [else] branch, which resets
    [g[node]] to infinity, is never run. *)
Theorem rhs_never_above_g st0 s :
  grid_ok W -> tags_ok G st0 -> reachable W G st0 s ->
  (forall n gn rn,
     g s !! n = Some gn -> rhs s !! n = Some rn -> cost_ltb gn rn = false)
  /\ forall k n ol,
       loop_test W G s = Ok true ->
       heappop (open_list s) = Some ((k, n), ol) ->
       exists gn rn, g s !! n = Some gn /\ rhs s !! n = Some rn
                     /\ cost_ltb rn gn = true.
Proof.
  intros Hgrid Ht Hr.
  destruct (reachable_sound _ _ Hgrid Ht Hr) as [Hso _].
  split; [exact (so_under _ _ _ Hso)|].
  intros k n ol Htest Hpop.
  pose proof (loop_test_searching _ _ Hgrid Ht Hr Htest) as Hsearch.
  by eapply popped_lower.
Qed.

(** X15: whenever the loop condition of [lpa_star] is evaluated, a finite
    [g[n]] is the number of steps of a path from the start node to [n]
    along neighbour lists, and is below the number of keys of [g]. *)
Theorem finite_g_is_path_length st0 s n c :
  grid_ok W -> tags_ok G st0 -> reachable W G st0 s ->
  g s !! n = Some (Num c) ->
  0 <= c < Z.of_nat (size (g s))
  /\ nsteps (adjacent W) (Z.to_nat c) (start G) n.
Proof.
  intros Hgrid Ht Hr Hn.
  destruct (reachable_sound _ _ Hgrid Ht Hr) as [[_ Htr _ _] _].
  destruct (Htr n c Hn) as [p Hp].
  pose proof (trail_facts _ _ _ _ Hp) as (Hc & _).
  pose proof (trail_bound _ _ _ _ Hp).
  split; [lia|]. by eapply trail_nsteps.
Qed.

(** *** The search gives up only when there is no path *)

Lemma consistent_path_finite s :
  grid_ok W -> searching W G s -> sound W G s ->
  open_list s = [] ->
  forall n, rtc (adjacent W) (start G) n ->
            exists c, g s !! n = Some (Num c).
Proof.
  intros Hgrid [Hq Hs Ht Hgoal _ Hopen _ Hfr] [_ _ Hk Hcl] Hol.
  assert (Hcons : forall n, g s !! n = rhs s !! n).
  { intros n. destruct (decide (g s !! n = rhs s !! n)) as [|Hne]; [done|].
    apply (queue_iff _ _ _ _ _ Hq) in Hne. rewrite Hol in Hne.
    by apply elem_of_nil in Hne. }
  destruct Hs as [Hrs _].
  apply rtc_ind_r.
  - exists 0. by rewrite Hcons.
  - intros u v _ Huv [c Hu].
    destruct (decide (v = start G)) as [->|Hv].
    { exists 0. by rewrite Hcons. }
    destruct (Hcl u c v Hu Huv) as [gv Hgv].
    assert (Hrv : rhs s !! v = Some gv) by (by rewrite <- Hcons).
    destruct (Hfr v gv Hv (not_elem_of_nil _) Hrv) as [Hlow _].
    assert (Hcu : counted W (tags s) u = true).
    { rewrite counted_open. destruct (Hopen u c Hu) as [Ho|He]; [by rewrite Ho|].
      apply (tag_end _ _ Ht) in He. subst u. congruence. }
    pose proof (Hlow u (Num c) (grid_symmetric _ Hgrid _ _ Huv) Hcu Hu) as Hle.
    destruct gv as [y|]; [by exists y|done].
Qed.

(** X16: when [lpa_star] leaves its loop at the [break] because the open
    list is empty, [g[end]] is still infinite and there is no path from the
    start node to the end node along neighbour lists. *)
Theorem exhausted_no_path rounds answers fuel st0 s :
  grid_ok W -> tags_ok G st0 ->
  lpa_star W G rounds answers fuel st0 = Ok (Exhausted s) ->
  g s !! end_ G = Some Inf
  /\ ~ rtc (adjacent W) (start G) (end_ G).
Proof.
  intros Hgrid Ht Hl.
  apply lpa_star_outcome in Hl
    as (s1 & Hr & Htest & Hol & Hg & _).
  pose proof (loop_test_searching _ _ Hgrid Ht Hr Htest) as Hsearch.
  destruct (reachable_sound _ _ Hgrid Ht Hr) as [Hso _].
  pose proof (s_goal _ _ _ Hsearch) as Hgoal.
  split; [by rewrite Hg|].
  intros Hpath.
  destruct (consistent_path_finite _ Hgrid Hsearch Hso Hol _ Hpath) as [c Hc].
  congruence.
Qed.

(** *** The cost found is the least *)

Lemma manhattan_steps j u v :
  unit_steps W -> nsteps (adjacent W) j u v ->
  RP.manhattan W u v <= Z.of_nat j.
Proof.
  intros Hunit. induction 1 as [u|j u w v Huw _ IH].
  - rewrite RPFacts.manhattan_self. lia.
  - pose proof (Hunit u w Huw) as H1. revert H1 IH. unfold RP.manhattan.
    destruct (get_pos W u) as [x1 y1], (get_pos W w) as [x2 y2],
      (get_pos W v) as [x3 y3]. lia.
Qed.

(** An inconsistent node whose [rhs] is finite has an entry whose key is at
    most that [rhs] plus the heuristic. *)
Lemma queued_key s u gu y :
  searching W G s ->
  g s !! u = Some gu -> rhs s !! u = Some (Num y) -> gu <> Num y ->
  exists k a b,
    (k, u) ∈ open_list s /\ k = (Num a, b)
    /\ a <= y + RP.manhattan W u (end_ G).
Proof.
  intros [Hq _ _ _ _ _ _ _] Hgu Hru Hne.
  assert (Hin : u ∈ (open_list s).*2).
  { apply (queue_iff _ _ _ _ _ Hq). rewrite Hgu, Hru. congruence. }
  apply list_elem_of_fmap in Hin as ([k u'] & -> & Hin). simpl in *.
  destruct (queue_fresh _ _ _ _ _ Hq k u' Hin) as (gn & rn & Hgn & Hrn & ->).
  rewrite Hgu in Hgn. rewrite Hru in Hrn. simplify_eq.
  assert (Hkey : exists a b,
    key_of W (end_ G) u' gn (Num y) = (Num a, b)
    /\ a <= y + RP.manhattan W u' (end_ G)).
  { unfold key_of, heuristic_manhattan, RP.heuristic_manhattan, cost_min.
    destruct (cost_ltb (Num y) gn) eqn:Hlt; simpl.
    - eexists _, _. split; [reflexivity|lia].
    - destruct gn as [x|]; [|done]. simpl in Hlt. apply Z.ltb_ge in Hlt.
      eexists _, _. split; [reflexivity|lia]. }
  destruct Hkey as (a & b & Hkey & Ha).
  exists (key_of W (end_ G) u' gn (Num y)), a, b. by rewrite <- Hkey.
Qed.

Lemma frontier s :
  grid_ok W -> unit_steps W -> searching W G s -> sound W G s ->
  forall i u j,
    nsteps (adjacent W) i (start G) u -> nsteps (adjacent W) j u (end_ G) ->
    (exists x, g s !! u = Some (Num x) /\ x <= Z.of_nat i)
    \/ (exists k m a b, (k, m) ∈ open_list s /\ k = (Num a, b)
                        /\ a <= Z.of_nat (i + j)).
Proof.
  intros Hgrid Hunit Hsearch [_ _ Hk Hcl].
  pose proof Hsearch as [_ [Hrs Hgs] Ht Hgoal _ Hopen _ Hfr].
  assert (Hstart : forall i j,
    nsteps (adjacent W) j (start G) (end_ G) ->
    (exists x, g s !! start G = Some (Num x) /\ x <= Z.of_nat i)
    \/ (exists k m a b, (k, m) ∈ open_list s /\ k = (Num a, b)
                        /\ a <= Z.of_nat (i + j))).
  { intros i j Hj. destruct Hgs as [Hg|Hg].
    - right.
      destruct (queued_key s (start G) Inf 0 Hsearch Hg Hrs)
        as (k & a & b & Hin & -> & Ha); [done|].
      pose proof (manhattan_steps _ _ _ Hunit Hj).
      exists (Num a, b), (start G), a, b. split; [done|]. split; [done|lia].
    - left. exists 0. split; [done|lia]. }
  induction i as [|i IH]; intros u j Hi Hj.
  - inversion Hi; subst. by apply Hstart.
  - destruct (decide (u = start G)) as [->|Hu]; [by apply Hstart|].
    apply nsteps_inv_r in Hi as (u' & Hi & Hstep).
    destruct (IH u' (S j) Hi) as [(x & Hx & Hle)|(k & m & a & b & Hin & -> & Ha)].
    { by eapply nsteps_l. }
    + destruct (Hcl u' x u Hx Hstep) as [gu Hgu].
      destruct (proj1 (Hk u)) as [ru Hru]; [by eexists|].
      destruct (Hfr u ru Hu (not_elem_of_nil _) Hru) as [Hlow _].
      assert (Hcu : counted W (tags s) u' = true).
      { rewrite counted_open.
        destruct (Hopen u' x Hx) as [Ho|He]; [by rewrite Ho|].
        apply (tag_end _ _ Ht) in He. subst u'. congruence. }
      pose proof (Hlow u' (Num x) (grid_symmetric _ Hgrid _ _ Hstep) Hcu Hx)
        as Hb.
      destruct ru as [y|]; [|done]. simpl in Hb. apply Z.ltb_ge in Hb.
      destruct (decide (gu = Num y)) as [->|Hne].
      * left. exists y. split; [done|lia].
      * right.
        destruct (queued_key s u gu y Hsearch Hgu Hru Hne)
          as (k & a & b & Hin & -> & Ha).
        pose proof (manhattan_steps _ _ _ Hunit Hj).
        exists (Num a, b), u, a, b. split; [done|]. split; [done|lia].
    + right. exists (Num a, b), m, a, b. split; [done|]. split; [done|lia].
Qed.

Lemma goal_optimal s k ol c d :
  grid_ok W -> unit_steps W -> searching W G s -> sound W G s ->
  heappop (open_list s) = Some ((k, end_ G), ol) ->
  rhs s !! end_ G = Some (Num c) ->
  nsteps (adjacent W) d (start G) (end_ G) ->
  c <= Z.of_nat d.
Proof.
  intros Hgrid Hunit Hsearch Hso Hpop Hc Hd.
  pose proof Hsearch as [Hq _ _ Hgoal _ _ _ _].
  edestruct heappop_queue_ok
    as (_ & _ & (gn & rn & Hgn & Hrn & Hkey) & Hmin); [exact Hq|exact Hpop|].
  rewrite Hgoal in Hgn. rewrite Hc in Hrn. simplify_eq.
  destruct (key_of_goal W G c) as [Hk1 _].
  destruct (frontier s Hgrid Hunit Hsearch Hso d (end_ G) 0%nat Hd (nsteps_O _ _))
    as [(x & Hx & _)|(k & m & a & b & Hin & -> & Ha)]; [congruence|].
  rewrite (heappop_perm _ _ _ Hpop) in Hin.
  apply elem_of_cons in Hin as [Heq|Hin].
  - rewrite Hk1 in Heq. injection Heq as Ha' _ _. lia.
  - destruct (Hmin _ Hin) as [_ Hle]. rewrite Hk1 in Hle. simpl in Hle.
    revert Hle. unfold key_ltb. simpl. case_bool_decide; simplify_eq.
    + lia.
    + intros Hle. apply Z.ltb_ge in Hle. lia.
Qed.

(** The state in which the loop condition is false comes from the round
    that took the end node off the open list. *)
Lemma converged_inv st0 s :
  grid_ok W -> tags_ok G st0 ->
  reachable W G st0 s -> unsettled W G s = Ok false ->
  exists s0 k ol c,
    reachable W G st0 s0 /\ searching W G s0
    /\ heappop (open_list s0) = Some ((k, end_ G), ol)
    /\ rhs s0 !! end_ G = Some (Num c)
    /\ g s = <[end_ G := Num c]> (g s0)
    /\ rhs s !! end_ G = Some (Num c).
Proof.
  intros Hgrid Ht Hr Hu. destruct Hr as [s Hi|s0 answer fuel s Hr Htest Hb].
  - exfalso. destruct (g s !! end_ G) as [ge|] eqn:Hge.
    + assert (Hs : searching W G s) by (eapply lpa_init_searching; eauto).
      by apply (searching_unsettled W G _ _ Hs) in Hu.
    + unfold unsettled, calc_key, get in Hu. by rewrite Hge in Hu.
  - pose proof (loop_test_searching _ _ Hgrid Ht Hr Htest) as Hsearch.
    destruct (reachable_sound _ _ Hgrid Ht Hr) as [Hso Hfc].
    apply loop_body_inv in Hb
      as (k & n & ol & gn & rn & g' & rhs' & ol' & st1 & Hpop & Hgn & Hrn
          & Hbr & Hnb & Hg' & Hk & _ & Htags).
    destruct (round_sound _ _ _ _ _ _ _ _ _ _ _ _ Hgrid Hsearch Hso
                (Hfc Hsearch) Hpop Hgn Hrn Hbr Hnb)
      as (Hlt & Hgeq & _ & _ & _).
    destruct Htags as [[Hne Htags]|[-> _]].
    + exfalso.
      assert (Hs : searching W G s) by (eapply round_searching; eauto).
      by apply (searching_unsettled W G _ _ Hs) in Hu.
    + destruct rn as [c|]; [|by destruct gn].
      exists s0, k, ol, c. split; [done|]. split; [done|]. split; [done|].
      split; [done|]. split; [by rewrite Hg', Hgeq|].
      rewrite <- Hrn.
      destruct Hbr as [(_ & _ & -> & _)|(Hlt' & _)]; [|congruence].
      eapply update_neighbors_rhs_other; [exact Hnb|].
      apply (grid_irreflexive _ Hgrid).
Qed.

(** X17: when [lpa_star] leaves its loop because the condition is false,
    [g[end]] and [rhs[end]] hold the number of steps of a path from the
    start node to the end node along neighbour lists, and on a grid whose
    neighbours are one Manhattan step apart no such path has fewer
    steps. *)
Theorem converged_shortest rounds answers fuel st0 s :
  grid_ok W -> tags_ok G st0 ->
  lpa_star W G rounds answers fuel st0 = Ok (Converged s) ->
  exists c : nat,
    g s !! end_ G = Some (Num (Z.of_nat c))
    /\ rhs s !! end_ G = Some (Num (Z.of_nat c))
    /\ nsteps (adjacent W) c (start G) (end_ G)
    /\ (unit_steps W ->
        forall d, nsteps (adjacent W) d (start G) (end_ G) -> (c <= d)%nat).
Proof.
  intros Hgrid Ht Hl. apply lpa_star_outcome in Hl as [Hr Hu].
  destruct (converged_inv _ _ Hgrid Ht Hr Hu)
    as (s0 & k & ol & c & Hr0 & Hsearch & Hpop & Hc & Hg & Hrhs).
  destruct (reachable_sound _ _ Hgrid Ht Hr) as [[_ Htr _ _] _].
  destruct (reachable_sound _ _ Hgrid Ht Hr0) as [Hso0 _].
  assert (Hge : g s !! end_ G = Some (Num c))
    by (rewrite Hg; apply lookup_insert_eq).
  destruct (Htr _ _ Hge) as [p Hp].
  pose proof (trail_facts _ _ _ _ Hp) as (Hc0 & _).
  exists (Z.to_nat c). rewrite Z2Nat.id by done.
  split; [done|]. split; [done|]. split; [by eapply trail_nsteps|].
  intros Hunit d Hd.
  pose proof (goal_optimal _ _ _ _ _ Hgrid Hunit Hsearch Hso0 Hpop Hc Hd). lia.
Qed.

(** *** The walk of [reconstruct_path] in the last round *)

Lemma min_from_least (costs : dict) best cbest l :
  costs !! best = Some cbest ->
  (forall x, x ∈ l -> is_Some (costs !! x)) ->
  exists m cm,
    min_from costs best cbest l = Ok m /\ costs !! m = Some cm
    /\ (m = best \/ m ∈ l)
    /\ cost_ltb cbest cm = false
    /\ forall x cx, x ∈ l -> costs !! x = Some cx -> cost_ltb cx cm = false.
Proof.
  revert best cbest. induction l as [|x l IH]; intros best cbest Hb Hl; simpl.
  - exists best, cbest. split; [done|]. split; [done|]. split; [by left|].
    split; [apply cost_ltb_irrefl|]. intros x cx Hx. by apply elem_of_nil in Hx.
  - destruct (Hl x (list_elem_of_here _ _)) as [c Hc].
    rewrite (get_lookup _ _ _ Hc). simpl.
    assert (Hl' : forall x0, x0 ∈ l -> is_Some (costs !! x0)).
    { intros x0 Hx0. by apply Hl, list_elem_of_further. }
    destruct (cost_ltb c cbest) eqn:Hlt.
    + destruct (IH x c Hc Hl') as (m & cm & Hm & Hcm & Hin & Hle & Hall).
      exists m, cm. split; [done|]. split; [done|]. split.
      { right. destruct Hin as [->|Hin];
          [apply list_elem_of_here|by apply list_elem_of_further]. }
      split; [revert Hlt Hle; cost_cases|].
      intros y cy Hy Hcy. apply elem_of_cons in Hy as [->|Hy]; [|by eapply Hall].
      rewrite Hc in Hcy. by simplify_eq.
    + destruct (IH best cbest Hb Hl') as (m & cm & Hm & Hcm & Hin & Hle & Hall).
      exists m, cm. split; [done|]. split; [done|]. split.
      { destruct Hin as [->|Hin]; [by left|right; by apply list_elem_of_further]. }
      split; [done|].
      intros y cy Hy Hcy. apply elem_of_cons in Hy as [->|Hy]; [|by eapply Hall].
      rewrite Hc in Hcy. simplify_eq. revert Hlt Hle. cost_cases.
Qed.

Lemma min_by_cost_least (costs : dict) l :
  l <> [] ->
  (forall x, x ∈ l -> is_Some (costs !! x)) ->
  exists m cm,
    min_by_cost costs l = Ok m /\ costs !! m = Some cm /\ m ∈ l
    /\ forall x cx, x ∈ l -> costs !! x = Some cx -> cost_ltb cx cm = false.
Proof.
  destruct l as [|x l]; [done|]. intros _ Hl. simpl.
  destruct (Hl x (list_elem_of_here _ _)) as [c Hc].
  rewrite (get_lookup _ _ _ Hc). simpl.
  destruct (min_from_least costs x c l Hc) as (m & cm & Hm & Hcm & Hin & Hle & Hall).
  { intros x0 Hx0. by apply Hl, list_elem_of_further. }
  exists m, cm. split; [done|]. split; [done|]. split.
  { destruct Hin as [->|Hin];
      [apply list_elem_of_here|by apply list_elem_of_further]. }
  intros y cy Hy Hcy. apply elem_of_cons in Hy as [->|Hy]; [|by eapply Hall].
  rewrite Hc in Hcy. by simplify_eq.
Qed.

Lemma reconstruct_path_descends fuel (costs : dict) :
  forall current st y,
    descends W st costs y ->
    costs !! current = Some (Num y) ->
    y < Z.of_nat fuel ->
    (reconstruct_path fuel W current costs st).2 = Returned.
Proof.
  induction fuel as [|fuel IH]; intros current st y Hd Hc Hlt.
  - pose proof (down_nonneg _ _ _ _ Hd _ _ Hc). lia.
  - simpl. destruct (is_start (st current)) eqn:Hs; [done|].
    destruct (down_step _ _ _ _ Hd current y Hc (Z.le_refl _) Hs)
      as (nb & z & Hnb & Htag & Hz & Hzy).
    assert (Hin : nb ∈ get_checked_neighbors W st current).
    { unfold get_checked_neighbors. apply list_elem_of_filter.
      split; [by rewrite Htag|done]. }
    destruct (min_by_cost_least costs (get_checked_neighbors W st current))
      as (m & cm & Hm & Hcm & Hmin & Hall).
    { intros Hnil. rewrite Hnil in Hin. by apply elem_of_nil in Hin. }
    { intros x Hx. unfold get_checked_neighbors in Hx.
      apply list_elem_of_filter in Hx as [_ Hx].
      eapply (down_keys _ _ _ _ Hd current); [by eexists|done]. }
    rewrite Hm.
    destruct (is_start (st m)) eqn:Hsm; [done|].
    pose proof (Hall nb (Num z) Hin Hz) as Hle.
    destruct cm as [zm|]; [|done]. simpl in Hle. apply Z.ltb_ge in Hle.
    apply (IH m (make_path st m) zm); [|done|lia].
    destruct Hd as [Hdown Hnn Hkeys]. split; [|done|done].
    intros v yv Hv Hyv Hsv.
    assert (Hsv' : is_start (st v) = false).
    { unfold make_path, set_state in Hsv.
      destruct (decide (v = m)) as [->|Hne]; [done|done]. }
    destruct (Hdown v yv Hv ltac:(lia) Hsv') as (nb' & z' & Hnb' & Htag' & Hz' & Hlt').
    exists nb', z'. split; [done|]. split; [|done].
    assert (Hne : nb' <> m).
    { intros ->. rewrite Hcm in Hz'. injection Hz' as ->. lia. }
    unfold make_path. by rewrite set_state_other.
Qed.

(** *** The keys of the dictionaries *)

Lemma keyed_insert (g : dict) n c :
  is_Some (g !! n) -> keyed G g -> keyed G (<[n := c]> g).
Proof.
  intros Hn Hk m. rewrite <- (Hk m). destruct (decide (m = n)) as [->|Hne].
  - rewrite lookup_insert_eq. split; eauto.
  - by rewrite lookup_insert_ne.
Qed.

Lemma lpa_init_keyed st0 s : lpa_init W G st0 = Ok s -> keyed G (g s).
Proof.
  intros Hi. apply lpa_init_inv in Hi as (_ & -> & _).
  intros n. split.
  - intros [x Hx]. destruct (decide (n ∈ concat (grid G))) as [|Hn]; [done|].
    by rewrite (all_inf_None _ _ Hn) in Hx.
  - intros Hn. rewrite (all_inf_Some _ _ Hn). eauto.
Qed.

Lemma keyed_size (g : dict) :
  keyed G g -> (size g <= length (concat (grid G)))%nat.
Proof.
  intros Hk. rewrite <- size_dom. unfold size, set_size. simpl.
  apply submseteq_length, NoDup_submseteq; [apply NoDup_elements|].
  intros n Hn. apply elem_of_elements, elem_of_dom in Hn. by apply Hk.
Qed.

(** *** Vertex updates on a closed grid raise nothing *)

Lemma update_vertex_total st n (rhs g : dict) ol :
  grid_closed W G -> keyed G g -> n ∈ concat (grid G) ->
  is_Ok (update_vertex W G st n rhs g ol).
Proof.
  intros Hcl Hk Hn. destruct (decide (n = start G)) as [->|Hne].
  - rewrite update_vertex_start. by eexists.
  - rewrite update_vertex_eq by done. unfold lookahead.
    destruct (relax_value_total W st g (neighbors W n) Inf) as [v Hv].
    { intros nb Hnb _. apply Hk. by eapply (closed_neighbors _ _ Hcl). }
    rewrite Hv. simpl. destruct (proj2 (Hk n) Hn) as [gn Hgn].
    rewrite (get_lookup _ _ _ Hgn). simpl. by eexists.
Qed.

Lemma update_neighbors_total l st (rhs g : dict) ol :
  grid_closed W G -> keyed G g ->
  (forall nb, nb ∈ l -> nb ∈ concat (grid G)) ->
  is_Ok (update_neighbors W G l st rhs g ol).
Proof.
  intros Hcl Hk. revert st rhs ol.
  induction l as [|nb l IH]; intros st rhs ol Hl; simpl; [by eexists|].
  destruct (update_vertex_total (reopened st nb) nb rhs g ol Hcl Hk)
    as [[r1 o1] Hv]; [apply Hl, list_elem_of_here|].
  rewrite Hv. simpl. apply IH. intros x Hx. by apply Hl, list_elem_of_further.
Qed.

(** *** The measure of the search *)

Lemma potential_cons N m L (g : dict) :
  potential N (m :: L) g
  = (weight N (default Inf (g !! m)) + potential N L g)%nat.
Proof. reflexivity. Qed.

Lemma potential_other N L (g : dict) n c :
  n ∉ L -> potential N L (<[n := c]> g) = potential N L g.
Proof.
  induction L as [|m L IH]; intros Hn; [done|].
  apply not_elem_of_cons in Hn as [Hne Hn].
  rewrite !potential_cons, lookup_insert_ne by done. by rewrite IH.
Qed.

Lemma potential_insert N L (g : dict) n c gn :
  NoDup L -> n ∈ L -> g !! n = Some gn ->
  (weight N c < weight N gn)%nat ->
  (potential N L (<[n := c]> g) < potential N L g)%nat.
Proof.
  intros Hnd Hin Hgn Hw.
  induction Hnd as [|m L Hm Hnd IH]; [by apply elem_of_nil in Hin|].
  rewrite !potential_cons.
  destruct (decide (m = n)) as [->|Hne].
  - rewrite (potential_other N L g n c Hm), lookup_insert_eq, Hgn. simpl. lia.
  - apply elem_of_cons in Hin as [Hin|Hin]; [congruence|].
    specialize (IH Hin). rewrite lookup_insert_ne by done. lia.
Qed.

Lemma potential_init N L :
  (potential N L (all_inf G) <= N * length L)%nat.
Proof.
  induction L as [|m L IH]; [unfold potential; simpl; lia|].
  rewrite potential_cons.
  assert (weight N (default Inf (all_inf G !! m)) = N) as ->.
  { destruct (all_inf G !! m) as [x|] eqn:Hx; [|done].
    by rewrite (all_inf_lookup _ _ _ Hx). }
  simpl length. lia.
Qed.

(** *** The walk in the round that takes the end node off the list *)

(** What the round that takes the end node off the open list hands to
    [reconstruct_path]. *)
Lemma goal_walk s k ol gn c st1 rhs'' ol'' :
  grid_ok W -> searching W G s -> sound W G s ->
  finite_checked (tags s) (g s) ->
  heappop (open_list s) = Some ((k, end_ G), ol) ->
  g s !! end_ G = Some gn -> rhs s !! end_ G = Some (Num c) ->
  cost_ltb (Num c) gn = true ->
  update_neighbors W G (neighbors W (end_ G)) (tags s) (rhs s)
    (<[end_ G := Num c]> (g s)) ol = Ok (st1, rhs'', ol'') ->
  tags_ok G (marked st1 (end_ G))
  /\ rhs'' !! start G = Some (Num 0)
  /\ rhs'' !! end_ G = Some (Num c)
  /\ (forall v z, rhs'' !! v = Some (Num z) ->
                  0 <= z /\ nsteps (adjacent W) (Z.to_nat z) (start G) v)
  /\ (forall v yv, rhs'' !! v = Some (Num yv) -> yv <= c ->
                   is_start (marked st1 (end_ G) v) = false ->
                   exists nb z,
                     nb ∈ neighbors W v
                     /\ is_checked (marked st1 (end_ G) nb)
                        || is_start (marked st1 (end_ G) nb) = true
                     /\ rhs'' !! nb = Some (Num z) /\ z < yv).
Proof.
  intros Hgrid Hsearch Hso Hfc Hpop Hgn Hrn Hlt Hnb.
  pose proof Hsearch as [Hq Hs Ht Hgoal _ Hopen Hqd Hfr].
  assert (Hbr : branch W G (tags s) (end_ G) (rhs s) (g s) ol gn (Num c)
                  (<[end_ G := Num c]> (g s)) (rhs s) ol) by (by left).
  destruct (round_sound _ _ _ _ _ _ _ _ _ _ _ _ Hgrid Hsearch Hso Hfc
              Hpop Hgn Hrn Hbr Hnb)
    as (_ & _ & _ & _ & Hun & Htr & Hks & _ & Hfc').
  destruct (branch_queue_ok W G _ _ _ _ _ _ _ _ _ _ _ _ Hq Hs Hpop Hgn Hrn Hbr)
    as [Hq1 [Hrs1 _]].
  destruct (branch_searching W G _ _ _ _ _ _ _ _ _ _ _ _ Hgrid Hq Hs Hopen Hqd
              Hfr Hpop Hgn Hrn Hbr) as (Hf1 & Hqo1 & Hfr1).
  destruct (update_neighbors_searching W G _ _ _ _ _ _ _ _ Hq1 Hf1 Hqo1 Hfr1 Hnb)
    as (Hst & _ & Hfr2).
  assert (Ht2 : tags_ok G (marked st1 (end_ G))).
  { eapply tags_step_ok; [apply tags_step_marked|].
    eapply tags_step_ok; [exact Hst|done]. }
  assert (Hrs2 : rhs'' !! start G = Some (Num 0)).
  { rewrite <- Hrs1. by eapply update_neighbors_rhs_start. }
  assert (Hge : <[end_ G := Num c]> (g s) !! end_ G = Some (Num c))
    by apply lookup_insert_eq.
  assert (Hatt : forall v yv, v <> start G -> rhs'' !! v = Some (Num yv) ->
            exists nb, nb ∈ neighbors W v
                       /\ <[end_ G := Num c]> (g s) !! nb = Some (Num (yv - 1))).
  { intros v yv Hv Hyv.
    destruct (Hfr2 v (Num yv) Hv (not_elem_of_nil _) Hyv) as [_ Hatt].
    destruct Hatt as [Hinf|(nb & cnb & Hin & _ & Hg & Hc)]; [done|].
    destruct cnb as [x|]; [|done]. simpl in Hc. injection Hc as ->.
    exists nb. split; [done|]. rewrite Hg. do 2 f_equal. lia. }
  split; [done|]. split; [done|]. split; [|split].
  - rewrite <- Hrn. eapply update_neighbors_rhs_other; [exact Hnb|].
    apply (grid_irreflexive _ Hgrid).
  - intros v z Hv. destruct (decide (v = start G)) as [->|Hvs].
    + rewrite Hrs2 in Hv. injection Hv as <-. split; [lia|apply nsteps_O].
    + destruct (Hatt v z Hvs Hv) as (nb & Hin & Hg).
      destruct (Htr nb _ Hg) as [p Hp].
      pose proof (trail_facts _ _ _ _ Hp) as (H0 & _).
      split; [lia|].
      replace (Z.to_nat z) with (S (Z.to_nat (z - 1))) by lia.
      eapply nsteps_r; [by eapply trail_nsteps|].
      by apply (grid_symmetric _ Hgrid).
  - intros v yv Hv Hyv Hsv.
    assert (Hvs : v <> start G).
    { intros ->. rewrite (proj2 (tag_start _ _ Ht2 (start G)) eq_refl) in Hsv.
      done. }
    destruct (Hatt v yv Hvs Hv) as (nb & Hin & Hg).
    destruct (proj1 (Hks nb)) as [r Hr]; [by eexists|].
    pose proof (Hun nb _ r Hg Hr) as Hle.
    destruct r as [z|]; [|done]. simpl in Hle. apply Z.ltb_ge in Hle.
    exists nb, z. split; [done|]. split; [|split; [done|lia]].
    pose proof (Hfc' nb _ Hg) as Htag.
    destruct (is_end (marked st1 (end_ G) nb)) eqn:He.
    + apply (tag_end _ _ Ht2) in He. subst nb. rewrite Hge in Hg.
      injection Hg as Hg. lia.
    + by rewrite orb_false_r in Htag.
Qed.

Lemma goal_descends s k ol gn c st1 rhs'' ol'' :
  grid_ok W -> grid_closed W G -> searching W G s -> sound W G s ->
  finite_checked (tags s) (g s) -> keyed G (g s) ->
  heappop (open_list s) = Some ((k, end_ G), ol) ->
  g s !! end_ G = Some gn -> rhs s !! end_ G = Some (Num c) ->
  cost_ltb (Num c) gn = true ->
  update_neighbors W G (neighbors W (end_ G)) (tags s) (rhs s)
    (<[end_ G := Num c]> (g s)) ol = Ok (st1, rhs'', ol'') ->
  descends W (marked st1 (end_ G)) rhs'' c
  /\ rhs'' !! end_ G = Some (Num c)
  /\ c < Z.of_nat (length (concat (grid G))).
Proof.
  intros Hgrid Hcl Hsearch Hso Hfc Hkey Hpop Hgn Hrn Hlt Hnb.
  destruct (goal_walk _ _ _ _ _ _ _ _ Hgrid Hsearch Hso Hfc Hpop Hgn Hrn Hlt Hnb)
    as (_ & _ & Hre & Hsound & Hdown).
  assert (Hbr : branch W G (tags s) (end_ G) (rhs s) (g s) ol gn (Num c)
                  (<[end_ G := Num c]> (g s)) (rhs s) ol) by (by left).
  destruct (round_sound _ _ _ _ _ _ _ _ _ _ _ _ Hgrid Hsearch Hso Hfc
              Hpop Hgn Hrn Hbr Hnb)
    as (_ & _ & _ & _ & _ & Htr & Hks & _ & _).
  assert (Hk' : keyed G (<[end_ G := Num c]> (g s))).
  { apply keyed_insert; [by eexists|done]. }
  split; [split|split].
  - exact Hdown.
  - intros v yv Hv. by destruct (Hsound v yv Hv).
  - intros v nb Hv Hin. apply Hks, Hk'.
    eapply (closed_neighbors _ _ Hcl); [|exact Hin]. by apply Hk', Hks.
  - exact Hre.
  - assert (Hge : <[end_ G := Num c]> (g s) !! end_ G = Some (Num c))
      by apply lookup_insert_eq.
    destruct (Htr _ _ Hge) as [p Hp].
    pose proof (trail_bound _ _ _ _ Hp). pose proof (keyed_size _ Hk'). lia.
Qed.

(** *** A round on a closed grid *)

Lemma round_total answer fuel s :
  grid_ok W -> grid_closed W G -> searching W G s -> sound W G s ->
  finite_checked (tags s) (g s) -> keyed G (g s) ->
  open_list s <> [] ->
  (length (concat (grid G)) < fuel)%nat ->
  exists s',
    loop_body W G answer fuel s = Ok (Next s') /\ run s' = answer
    /\ ((searching W G s' /\ sound W G s'
         /\ finite_checked (tags s') (g s') /\ keyed G (g s')
         /\ (potential (length (concat (grid G)))
               (remove_dups (concat (grid G))) (g s')
             < potential (length (concat (grid G)))
                 (remove_dups (concat (grid G))) (g s))%nat)
        \/ unsettled W G s' = Ok false).
Proof.
  intros Hgrid Hcl Hsearch Hso Hfc Hkey Hne Hfuel.
  destruct (heappop_some (open_list s) Hne) as ([k n] & ol & Hpop).
  destruct (popped_lower _ _ _ _ Hsearch Hso Hpop) as (gn & rn & Hgn & Hrn & Hlt).
  assert (Hn : n ∈ concat (grid G)) by (apply Hkey; by eexists).
  assert (Hk' : keyed G (<[n := rn]> (g s))).
  { apply keyed_insert; [by eexists|done]. }
  destruct (update_neighbors_total (neighbors W n) (tags s) (rhs s)
              (<[n := rn]> (g s)) ol Hcl Hk') as [[[st1 rhs''] ol''] Hnb].
  { intros nb Hnb. by eapply (closed_neighbors _ _ Hcl). }
  assert (Hbr : branch W G (tags s) n (rhs s) (g s) ol gn rn
                  (<[n := rn]> (g s)) (rhs s) ol) by (by left).
  destruct (round_sound _ _ _ _ _ _ _ _ _ _ _ _ Hgrid Hsearch Hso Hfc
              Hpop Hgn Hrn Hbr Hnb)
    as (_ & _ & _ & _ & Hun & Htr & Hks & Hclo & Hfc').
  unfold loop_body, check. simpl.
  destruct (open_list s) as [|e0 l0] eqn:Hol; [done|].
  rewrite Hpop, (get_lookup _ _ _ Hgn), (get_lookup _ _ _ Hrn). simpl.
  rewrite Hlt. simpl. rewrite Hnb. simpl.
  destruct (decide (n = end_ G)) as [->|Hnend].
  - destruct rn as [c|]; [|by destruct gn].
    rewrite <- Hol in Hpop.
    destruct (goal_descends _ _ _ _ _ _ _ _ Hgrid Hcl Hsearch Hso Hfc Hkey
                Hpop Hgn Hrn Hlt Hnb) as (Hd & Hre & Hc).
    pose proof (reconstruct_path_descends fuel rhs'' (end_ G)
                  (marked st1 (end_ G)) c Hd Hre ltac:(lia)) as Hret.
    destruct (reconstruct_path fuel W (end_ G) rhs'' (marked st1 (end_ G)))
      as [st' status]. simpl in Hret. subst status.
    eexists. split; [reflexivity|]. split; [reflexivity|]. right.
    match goal with
    | |- unsettled W G ?s' = _ =>
        exact (proj1 (round_settled W G s s' k ol gn (Num c) _ _ _ st1
                        Hgrid Hsearch Hpop Hgn Hrn Hbr Hnb eq_refl eq_refl))
    end.
  - rewrite <- Hol in Hpop.
    eexists. split; [reflexivity|]. split; [reflexivity|]. left.
    split; [|split; [|split; [|split]]].
    + match goal with
      | |- searching W G ?s' =>
          exact (round_searching W G s s' k n ol gn rn _ _ _ st1 Hgrid Hsearch
                   Hpop Hgn Hrn Hbr Hnb eq_refl eq_refl eq_refl Hnend)
      end.
    + by split.
    + done.
    + done.
    + simpl. apply (potential_insert _ _ _ _ _ gn);
        [apply NoDup_remove_dups|by apply elem_of_remove_dups|done|].
      destruct rn as [c|]; [|by destruct gn].
      assert (Hgc : <[n := Num c]> (g s) !! n = Some (Num c))
        by apply lookup_insert_eq.
      destruct (Htr _ _ Hgc) as [p Hp].
      pose proof (trail_facts _ _ _ _ Hp) as (H0 & _).
      pose proof (trail_bound _ _ _ _ Hp). pose proof (keyed_size _ Hk').
      destruct gn as [x|]; simpl in *; [|lia].
      apply Z.ltb_lt in Hlt. lia.
Qed.

(** *** The whole search on a closed grid *)

Lemma searching_unsettled_true s :
  searching W G s -> sound W G s -> unsettled W G s = Ok true.
Proof.
  intros Hsearch Hso.
  assert (Hok : is_Ok (unsettled W G s)).
  { pose proof (s_goal _ _ _ Hsearch) as Hgoal.
    destruct (proj1 (so_keys _ _ _ Hso (end_ G))) as [re Hre]; [by eexists|].
    unfold unsettled. rewrite (calc_key_eq _ _ _ _ _ _ _ Hgoal Hre). simpl.
    destruct (key_ltb _ _); [by eexists|].
    rewrite (get_lookup _ _ _ Hre), (get_lookup _ _ _ Hgoal). simpl.
    by eexists. }
  destruct Hok as [b Hb]. by rewrite (searching_unsettled W G _ _ Hsearch Hb) in Hb.
Qed.

Lemma lpa_loop_converged rounds answers fuel s :
  unsettled W G s = Ok false ->
  lpa_loop W G rounds answers fuel s = Ok (Converged s).
Proof. intros Hu. destruct rounds; simpl; by rewrite Hu. Qed.

Lemma lpa_loop_total fuel rounds : forall answers s,
  grid_ok W -> grid_closed W G -> searching W G s -> sound W G s ->
  finite_checked (tags s) (g s) -> keyed G (g s) ->
  (potential (length (concat (grid G))) (remove_dups (concat (grid G))) (g s)
   < rounds)%nat ->
  (length (concat (grid G)) < fuel)%nat ->
  exists out,
    lpa_loop W G rounds answers fuel s = Ok out /\ out <> Cutoff
    /\ (run s = true -> (forall i, answers i = true) ->
        forall s', out <> Cancelled s').
Proof.
  induction rounds as [|rounds IH];
    intros answers s Hgrid Hcl Hsearch Hso Hfc Hkey Hpot Hfuel; [lia|].
  simpl. rewrite (searching_unsettled_true _ Hsearch Hso). simpl.
  destruct (run s) eqn:Hrun; simpl.
  2:{ eexists. split; [reflexivity|]. split; [done|]. done. }
  destruct (decide (open_list s = [])) as [Hol|Hol].
  - unfold loop_body, check. rewrite Hol. simpl.
    eexists. split; [reflexivity|]. split; [done|]. done.
  - destruct (round_total (answers 0%nat) fuel s Hgrid Hcl Hsearch Hso Hfc Hkey
                Hol Hfuel) as (s' & Hb & Hrun' & Hcase).
    rewrite Hb. simpl.
    destruct Hcase as [(Hs' & Hso' & Hfc' & Hk' & Hlt)|Hu].
    + destruct (IH (fun i => answers (S i)) s' Hgrid Hcl Hs' Hso' Hfc' Hk')
        as (out & Hout & Hne & Hcan); [lia|done|].
      exists out. split; [done|]. split; [done|].
      intros _ Hall. apply Hcan; [by rewrite Hrun'|]. intros i. apply Hall.
    + rewrite (lpa_loop_converged _ _ _ _ Hu).
      eexists. split; [reflexivity|]. split; done.
Qed.

(** X18: on a grid whose neighbour lists are symmetric, free of self loops
    and stay inside [grid.grid], with the Start and End tags on [grid.start]
    and [grid.end], a call of [lpa_star] raises nothing and its loops end:
    within [N * N + 1] rounds, where [N] is the number of nodes of
    [grid.grid], it leaves the [while] loop because the condition is false,
    at the [break], or because the poll answered False, and the walk of
    [reconstruct_path] returns within [N + 1] rounds. *)
Theorem lpa_star_total rounds answers fuel st0 :
  grid_ok W -> tags_ok G st0 -> grid_closed W G ->
  (length (concat (grid G)) * length (concat (grid G)) < rounds)%nat ->
  (length (concat (grid G)) < fuel)%nat ->
  exists out,
    lpa_star W G rounds answers fuel st0 = Ok out /\ out <> Cutoff
    /\ ((forall i, answers i = true) -> forall s, out <> Cancelled s).
Proof.
  intros Hgrid Ht Hcl Hrounds Hfuel. unfold lpa_star.
  destruct (lpa_init W G st0) as [s|e] eqn:Hi.
  2:{ exfalso. unfold lpa_init, calc_key in Hi.
      rewrite (get_lookup _ _ _
                 (all_inf_Some _ _ (closed_start _ _ Hcl))) in Hi.
      simpl in Hi.
      rewrite (get_lookup _ _ (Num 0)) in Hi by apply lookup_insert_eq.
      done. }
  simpl.
  pose proof (lpa_init_keyed _ _ Hi) as Hkey.
  destruct (lpa_init_sound _ _ Hi) as [Hso Hfc].
  assert (Hsearch : searching W G s).
  { eapply lpa_init_searching; [done|done|]. apply Hkey, (closed_end _ _ Hcl). }
  destruct (lpa_loop_total fuel rounds answers s Hgrid Hcl Hsearch Hso Hfc Hkey)
    as (out & Hout & Hne & Hcan); [|done|].
  { pose proof Hi as Hi'. apply lpa_init_inv in Hi' as (_ & -> & _).
    pose proof (potential_init (length (concat (grid G)))
                  (remove_dups (concat (grid G)))) as Hp.
    assert (length (remove_dups (concat (grid G)))
            <= length (concat (grid G)))%nat.
    { apply submseteq_length, NoDup_submseteq; [apply NoDup_remove_dups|].
      intros n Hn. exact (proj1 (elem_of_remove_dups _ n) Hn). }
    nia. }
  exists out. split; [done|]. split; [done|].
  intros Hall. apply Hcan; [|done].
  apply lpa_init_inv in Hi as (_ & _ & _ & _ & _ & Hrun & _). done.
Qed.

End Sound.

(** *** The path that is painted *)

Section Painted.

Context {HQ : HeapQ} {HL : HeapQLaws HQ}.
Variable W : Nodes.
Variable G : Grid.

Lemma min_from_inv (costs : dict) best cbest l m :
  costs !! best = Some cbest ->
  min_from costs best cbest l = Ok m ->
  exists cm,
    costs !! m = Some cm /\ (m = best \/ m ∈ l)
    /\ cost_ltb cbest cm = false
    /\ forall x, x ∈ l ->
         exists cx, costs !! x = Some cx /\ cost_ltb cx cm = false.
Proof.
  revert best cbest. induction l as [|x l IH]; intros best cbest Hb Hm;
    simpl in Hm.
  - simplify_eq. exists cbest. split; [done|]. split; [by left|].
    split; [apply cost_ltb_irrefl|]. intros x Hx. by apply elem_of_nil in Hx.
  - apply bind_Ok_inv in Hm as (c & Hc & Hm). apply get_Ok in Hc.
    destruct (cost_ltb c cbest) eqn:Hlt.
    + destruct (IH x c Hc Hm) as (cm & Hcm & Hin & Hle & Hall).
      exists cm. split; [done|]. split.
      { right. destruct Hin as [->|Hin];
          [apply list_elem_of_here|by apply list_elem_of_further]. }
      split; [revert Hlt Hle; cost_cases|].
      intros y Hy. apply elem_of_cons in Hy as [->|Hy]; [|by apply Hall].
      by exists c.
    + destruct (IH best cbest Hb Hm) as (cm & Hcm & Hin & Hle & Hall).
      exists cm. split; [done|]. split.
      { destruct Hin as [->|Hin]; [by left|right; by apply list_elem_of_further]. }
      split; [done|].
      intros y Hy. apply elem_of_cons in Hy as [->|Hy]; [|by apply Hall].
      exists c. split; [done|]. revert Hlt Hle. cost_cases.
Qed.

Lemma min_by_cost_inv (costs : dict) l m :
  min_by_cost costs l = Ok m ->
  exists cm,
    costs !! m = Some cm /\ m ∈ l
    /\ forall x, x ∈ l ->
         exists cx, costs !! x = Some cx /\ cost_ltb cx cm = false.
Proof.
  destruct l as [|x l]; [done|]. simpl. intros Hm.
  apply bind_Ok_inv in Hm as (c & Hc & Hm). apply get_Ok in Hc.
  destruct (min_from_inv costs x c l m Hc Hm) as (cm & Hcm & Hin & Hle & Hall).
  exists cm. split; [done|]. split.
  { destruct Hin as [->|Hin];
      [apply list_elem_of_here|by apply list_elem_of_further]. }
  intros y Hy. apply elem_of_cons in Hy as [->|Hy]; [|by apply Hall].
  by exists c.
Qed.

(** The walk of [reconstruct_path] over costs that are path lengths, from a
    node [k] steps away from the end node whose cost is [c - k], where no
    path from the start node to the end node has fewer than [c] steps. *)
Lemma walk_exact (costs : dict) c :
  grid_ok W ->
  costs !! start G = Some (Num 0) ->
  (forall v z, costs !! v = Some (Num z) ->
               0 <= z /\ nsteps (adjacent W) (Z.to_nat z) (start G) v) ->
  (forall d, nsteps (adjacent W) d (start G) (end_ G) -> c <= Z.of_nat d) ->
  forall fuel current st st' y k,
    tags_ok G st ->
    (forall v yv, costs !! v = Some (Num yv) -> yv <= y ->
                  is_start (st v) = false ->
                  exists nb z, nb ∈ neighbors W v
                               /\ is_checked (st nb) || is_start (st nb) = true
                               /\ costs !! nb = Some (Num z) /\ z < yv) ->
    costs !! current = Some (Num y) ->
    nsteps (adjacent W) k current (end_ G) ->
    y + Z.of_nat k = c ->
    reconstruct_path fuel W current costs st = (st', Returned) ->
    exists p,
      route W current p (start G) /\ Z.of_nat (length p) = y
      /\ (forall x, x ∈ p -> x <> start G -> st' x = Path)
      /\ (forall x, st x = Path -> st' x = Path).
Proof.
  intros Hgrid Hcs Hsound Hopt.
  induction fuel as [|fuel IH];
    intros current st st' y k Ht Hdown Hc Hk Hyk Hrp; [done|].
  simpl in Hrp. destruct (is_start (st current)) eqn:Hs.
  { apply (tag_start _ _ Ht) in Hs. subst current.
    rewrite Hcs in Hc. injection Hc as <-. injection Hrp as <-.
    exists []. split; [done|]. split; [done|]. split; [|done].
    intros x Hx. by apply elem_of_nil in Hx. }
  destruct (min_by_cost costs (get_checked_neighbors W st current))
    as [m|e] eqn:Hm; [|done].
  destruct (min_by_cost_inv _ _ _ Hm) as (cm & Hcm & Hin & Hall).
  unfold get_checked_neighbors in Hin.
  apply list_elem_of_filter in Hin as [_ Hin].
  destruct (Hdown current y Hc (Z.le_refl _) Hs)
    as (nb & z & Hnb & Htag & Hz & Hzy).
  destruct (Hall nb) as (cx & Hcx & Hle).
  { unfold get_checked_neighbors. apply list_elem_of_filter.
    split; [by rewrite Htag|done]. }
  rewrite Hz in Hcx. injection Hcx as <-.
  destruct cm as [zm|]; [|done]. simpl in Hle. apply Z.ltb_ge in Hle.
  destruct (Hsound m zm Hcm) as [Hzm Hpm].
  assert (Hlow : y <= zm + 1).
  { assert (Hfull : nsteps (adjacent W) (Z.to_nat zm + S k) (start G) (end_ G)).
    { eapply nsteps_trans; [exact Hpm|].
      eapply nsteps_l; [|exact Hk]. by apply (grid_symmetric _ Hgrid). }
    apply Hopt in Hfull. lia. }
  assert (Hzm1 : zm = y - 1) by lia.
  destruct (is_start (st m)) eqn:Hsm.
  { apply (tag_start _ _ Ht) in Hsm. subst m. injection Hrp as <-.
    rewrite Hcs in Hcm. injection Hcm as <-.
    exists [start G]. split; [by split|]. split; [simpl; lia|].
    split; [|done]. intros x Hx Hne.
    by apply list_elem_of_singleton in Hx. }
  assert (Ht' : tags_ok G (make_path st m)).
  { destruct Ht as [Hts Hte].
    assert (Hmp : forall v, v <> m -> make_path st m v = st v).
    { intros v Hv. unfold make_path. by rewrite set_state_other. }
    assert (Hmm : make_path st m m = Path).
    { unfold make_path. by rewrite set_state_same. }
    split; intros v; (destruct (decide (v = m)) as [->|Hv];
      [rewrite Hmm|rewrite (Hmp v Hv)]).
    - split; [done|]. intros ->. by rewrite (proj2 (Hts _) eq_refl) in Hsm.
    - apply Hts.
    - split; [done|]. intros ->.
      assert (Hem : is_end (st (end_ G)) = true) by (by apply Hte).
      assert (Hchk : is_checked (st (end_ G)) || is_start (st (end_ G)) = true).
      { pose proof Hm as Hm'. apply min_by_cost_inv in Hm' as (_ & _ & Hin' & _).
        unfold get_checked_neighbors in Hin'.
        apply list_elem_of_filter in Hin' as [Hc' _]. by apply Is_true_true. }
      destruct (st (end_ G)); done.
    - apply Hte. }
  destruct (IH m (make_path st m) st' zm (S k) Ht') as (p & Hp & Hlen & Hpath & Hkeep).
  - intros v yv Hv Hyv Hsv.
    assert (Hsv' : is_start (st v) = false).
    { unfold make_path, set_state in Hsv.
      destruct (decide (v = m)) as [->|Hne]; [done|done]. }
    destruct (Hdown v yv Hv ltac:(lia) Hsv')
      as (nb' & z' & Hnb' & Htag' & Hz' & Hlt').
    exists nb', z'. split; [done|]. split; [|done].
    assert (Hne : nb' <> m).
    { intros ->. rewrite Hcm in Hz'. injection Hz' as ->. lia. }
    unfold make_path. by rewrite set_state_other.
  - done.
  - eapply nsteps_l; [|exact Hk]. by apply (grid_symmetric _ Hgrid).
  - lia.
  - done.
  - exists (m :: p). split; [by split|]. split; [simpl length; lia|]. split.
    + intros x Hx Hne. apply elem_of_cons in Hx as [->|Hx]; [|by apply Hpath].
      apply Hkeep. unfold make_path. by rewrite set_state_same.
    + intros x Hx. apply Hkeep. unfold make_path, set_state.
      by destruct (decide (x = m)).
Qed.

(** The state in which the loop condition is false, with the round that
    led to it. *)
Lemma last_round st0 s :
  grid_ok W -> tags_ok G st0 ->
  reachable W G st0 s -> unsettled W G s = Ok false ->
  exists s0 k ol gn c st1 fuel,
    searching W G s0 /\ sound W G s0 /\ finite_checked (tags s0) (g s0)
    /\ heappop (open_list s0) = Some ((k, end_ G), ol)
    /\ g s0 !! end_ G = Some gn /\ rhs s0 !! end_ G = Some (Num c)
    /\ cost_ltb (Num c) gn = true
    /\ update_neighbors W G (neighbors W (end_ G)) (tags s0) (rhs s0)
         (<[end_ G := Num c]> (g s0)) ol = Ok (st1, rhs s, open_list s)
    /\ g s = <[end_ G := Num c]> (g s0)
    /\ reconstruct_path fuel W (end_ G) (rhs s) (marked st1 (end_ G))
       = (tags s, Returned).
Proof.
  intros Hgrid Ht Hr Hu. destruct Hr as [s Hi|s0 answer fuel s Hr Htest Hb].
  - exfalso. destruct (g s !! end_ G) as [ge|] eqn:Hge.
    + assert (Hs : searching W G s) by (eapply lpa_init_searching; eauto).
      by apply (searching_unsettled W G _ _ Hs) in Hu.
    + unfold unsettled, calc_key, get in Hu. by rewrite Hge in Hu.
  - pose proof (loop_test_searching W G _ _ Hgrid Ht Hr Htest) as Hsearch.
    destruct (reachable_sound W G _ _ Hgrid Ht Hr) as [Hso Hfc].
    apply loop_body_inv in Hb
      as (k & n & ol & gn & rn & g' & rhs' & ol' & st1 & Hpop & Hgn & Hrn
          & Hbr & Hnb & Hg' & Hk & _ & Htags).
    destruct (round_sound W G _ _ _ _ _ _ _ _ _ _ _ _ Hgrid Hsearch Hso
                (Hfc Hsearch) Hpop Hgn Hrn Hbr Hnb)
      as (Hlt & -> & -> & -> & _).
    destruct Htags as [[Hne Htags]|[-> Hrp]].
    + exfalso.
      assert (Hs : searching W G s) by (eapply round_searching; eauto).
      by apply (searching_unsettled W G _ _ Hs) in Hu.
    + destruct rn as [c|]; [|by destruct gn].
      exists s0, k, ol, gn, c, st1, fuel.
      split; [done|]. split; [done|]. split; [by apply Hfc|].
      split; [done|]. split; [done|]. split; [done|]. split; [done|].
      split; [done|]. split; done.
Qed.

(** X19: when [lpa_star] leaves its loop because the condition is false on
    a grid whose neighbours are one Manhattan step apart, the walk of
    [reconstruct_path] in the last round went from the end node to the start
    node along neighbour lists in exactly [g[end]] steps, the least number
    possible, and the nodes it passed between the two are tagged Path. *)
Theorem painted_path_shortest rounds answers fuel st0 s :
  grid_ok W -> tags_ok G st0 -> unit_steps W ->
  lpa_star W G rounds answers fuel st0 = Ok (Converged s) ->
  exists p,
    route W (end_ G) p (start G)
    /\ g s !! end_ G = Some (Num (Z.of_nat (length p)))
    /\ (forall x, x ∈ p -> x <> start G -> tags s x = Path)
    /\ (forall d, nsteps (adjacent W) d (start G) (end_ G) ->
                  (length p <= d)%nat).
Proof.
  intros Hgrid Ht Hunit Hl. apply lpa_star_outcome in Hl as [Hr Hu].
  destruct (last_round _ _ Hgrid Ht Hr Hu)
    as (s0 & k & ol & gn & c & st1 & fuel' & Hsearch & Hso & Hfc & Hpop & Hgn
        & Hrn & Hlt & Hnb & Hg & Hrp).
  destruct (goal_walk W G _ _ _ _ _ _ _ _ Hgrid Hsearch Hso Hfc Hpop Hgn Hrn Hlt Hnb)
    as (Ht2 & Hrs & Hre & Hsound & Hdown).
  assert (Hopt : forall d, nsteps (adjacent W) d (start G) (end_ G) ->
                           c <= Z.of_nat d).
  { intros d Hd. by eapply (goal_optimal W G s0). }
  destruct (walk_exact (rhs s) c Hgrid Hrs Hsound Hopt fuel' (end_ G)
              (marked st1 (end_ G)) (tags s) c 0%nat Ht2 Hdown Hre
              (nsteps_O _ _) ltac:(lia) Hrp)
    as (p & Hp & Hlen & Hpath & _).
  exists p. split; [done|]. split; [|split; [done|]].
  - rewrite Hg, lookup_insert_eq. by rewrite Hlen.
  - intros d Hd. specialize (Hopt d Hd). lia.
Qed.

End Painted.



(** *** The theorems on concrete grids *)

Lemma reconstruct_path_terminates_witness :
  (reconstruct_path 2 Examples.junction 2%nat Examples.junction_rhs
     Examples.partial_tags).2 <> OutOfFuel.
Proof.
  apply (reconstruct_path_terminates [1%nat] 2 Examples.junction 2%nat
           Examples.junction_rhs Examples.partial_tags).
  - intros n Hn. destruct n as [|[|[|n]]]; try discriminate.
    apply list_elem_of_here.
  - simpl. lia.
Defined.

Lemma lpa_star_missing_endpoint_witness :
  lpa_star (HQ := Scan.heapq) Examples.junction Examples.short_grid
    3 (fun _ => true) 3 Examples.junction_tags = Raise KeyError.
Proof.
  apply (lpa_star_missing_endpoint (HQ := Scan.heapq) Examples.junction
           Examples.short_grid).
  right. simpl. intros Hin.
  repeat (apply elem_of_cons in Hin as [Hin|Hin]; [discriminate|]).
  by apply elem_of_nil in Hin.
Defined.

Lemma rhs_never_above_g_witness :
  exists s,
    reachable (HQ := Scan.heapq) Examples.junction Examples.junction_grid
      Examples.junction_tags s
    /\ forall n gn rn,
         g s !! n = Some gn -> rhs s !! n = Some rn -> cost_ltb gn rn = false.
Proof.
  destruct junction_reachable as (s & Hr & _).
  exists s. split; [exact Hr|].
  exact (proj1 (rhs_never_above_g (HQ := Scan.heapq)
                  (HL := ScanFacts.heapq_laws) Examples.junction
                  Examples.junction_grid _ _
                  junction_grid_ok junction_tags_ok Hr)).
Defined.

Lemma junction_last_state :
  exists s,
    reachable (HQ := Scan.heapq) Examples.junction Examples.junction_grid
      Examples.junction_tags s
    /\ g s !! 2%nat = Some (Num 2).
Proof.
  assert (Hc : exists s,
    lpa_star (HQ := Scan.heapq) Examples.junction Examples.junction_grid
      8 (fun _ => true) 4 Examples.junction_tags = Ok (Converged s)
    /\ g s !! 2%nat = Some (Num 2)).
  { eexists. split; vm_compute; reflexivity. }
  destruct Hc as (s & Hs & Hg). exists s. split; [|exact Hg].
  exact (proj1 (lpa_star_outcome (HQ := Scan.heapq) Examples.junction
                  Examples.junction_grid _ _ _ _ _ Hs)).
Defined.

Lemma finite_g_is_path_length_witness :
  exists s,
    reachable (HQ := Scan.heapq) Examples.junction Examples.junction_grid
      Examples.junction_tags s
    /\ g s !! 2%nat = Some (Num 2)
    /\ 0 <= 2 < Z.of_nat (size (g s))
    /\ nsteps (adjacent Examples.junction) (Z.to_nat 2) 0%nat 2%nat.
Proof.
  destruct junction_last_state as (s & Hr & Hg).
  exists s. split; [exact Hr|]. split; [exact Hg|].
  exact (finite_g_is_path_length (HQ := Scan.heapq)
           (HL := ScanFacts.heapq_laws) Examples.junction
           Examples.junction_grid _ _ _ _
           junction_grid_ok junction_tags_ok Hr Hg).
Defined.

Lemma walled_grid_ok : grid_ok Examples.walled.
Proof.
  split.
  - intros u v Hv. simpl in Hv. by apply elem_of_nil in Hv.
  - intros u Hu. simpl in Hu. by apply elem_of_nil in Hu.
Defined.

Lemma walled_tags_ok : tags_ok Examples.walled_grid Examples.walled_tags.
Proof.
  split; intros n; destruct n as [|[|[|n]]]; simpl; split; intros Hn;
    done || discriminate.
Defined.

Lemma exhausted_no_path_witness :
  exists s,
    lpa_star (HQ := Scan.heapq) Examples.walled Examples.walled_grid
      5 (fun _ => true) 5 Examples.walled_tags = Ok (Exhausted s)
    /\ g s !! 2%nat = Some Inf
    /\ ~ rtc (adjacent Examples.walled) 0%nat 2%nat.
Proof.
  assert (Hc : exists s,
    lpa_star (HQ := Scan.heapq) Examples.walled Examples.walled_grid
      5 (fun _ => true) 5 Examples.walled_tags = Ok (Exhausted s)).
  { eexists. vm_compute. reflexivity. }
  destruct Hc as [s Hs]. exists s. split; [exact Hs|].
  exact (exhausted_no_path (HQ := Scan.heapq) (HL := ScanFacts.heapq_laws)
           Examples.walled Examples.walled_grid _ _ _ _ _
           walled_grid_ok walled_tags_ok Hs).
Defined.

Lemma junction_unit_steps : unit_steps Examples.junction.
Proof.
  intros u v Hv.
  destruct u as [|[|[|[|u]]]]; simpl in Hv;
    repeat (apply elem_of_cons in Hv as [->|Hv]; [vm_compute; discriminate|]);
    by apply elem_of_nil in Hv.
Defined.

Lemma converged_shortest_witness :
  exists s c,
    lpa_star (HQ := Scan.heapq) Examples.junction Examples.junction_grid
      8 (fun _ => true) 4 Examples.junction_tags = Ok (Converged s)
    /\ g s !! 2%nat = Some (Num (Z.of_nat c))
    /\ rhs s !! 2%nat = Some (Num (Z.of_nat c))
    /\ nsteps (adjacent Examples.junction) c 0%nat 2%nat
    /\ forall d, nsteps (adjacent Examples.junction) d 0%nat 2%nat ->
                 (c <= d)%nat.
Proof.
  assert (Hc : exists s,
    lpa_star (HQ := Scan.heapq) Examples.junction Examples.junction_grid
      8 (fun _ => true) 4 Examples.junction_tags = Ok (Converged s)).
  { eexists. vm_compute. reflexivity. }
  destruct Hc as [s Hs].
  destruct (converged_shortest (HQ := Scan.heapq) (HL := ScanFacts.heapq_laws)
              Examples.junction Examples.junction_grid _ _ _ _ _
              junction_grid_ok junction_tags_ok Hs)
    as (c & Hg & Hrhs & Hpath & Hleast).
  exists s, c. split; [exact Hs|]. split; [exact Hg|]. split; [exact Hrhs|].
  split; [exact Hpath|]. exact (Hleast junction_unit_steps).
Defined.

Lemma junction_grid_closed :
  grid_closed Examples.junction Examples.junction_grid.
Proof.
  split.
  - apply list_elem_of_here.
  - simpl. repeat constructor.
  - exact RPExtra.junction_closed.
Defined.

Lemma lpa_star_total_witness :
  exists out,
    lpa_star (HQ := Scan.heapq) Examples.junction Examples.junction_grid
      17 (fun _ => true) 5 Examples.junction_tags = Ok out
    /\ out <> Cutoff
    /\ ((forall i : nat, (fun _ : nat => true) i = true) ->
        forall s, out <> Cancelled s).
Proof.
  apply (lpa_star_total (HQ := Scan.heapq) (HL := ScanFacts.heapq_laws)
           Examples.junction Examples.junction_grid 17 (fun _ => true) 5
           Examples.junction_tags junction_grid_ok junction_tags_ok
           junction_grid_closed); simpl; lia.
Defined.

Lemma painted_path_shortest_witness :
  exists s p,
    lpa_star (HQ := Scan.heapq) Examples.junction Examples.junction_grid
      8 (fun _ => true) 4 Examples.junction_tags = Ok (Converged s)
    /\ route Examples.junction 2%nat p 0%nat
    /\ g s !! 2%nat = Some (Num (Z.of_nat (length p)))
    /\ (forall x, x ∈ p -> x <> 0%nat -> tags s x = Path)
    /\ (forall d, nsteps (adjacent Examples.junction) d 0%nat 2%nat ->
                  (length p <= d)%nat).
Proof.
  assert (Hc : exists s,
    lpa_star (HQ := Scan.heapq) Examples.junction Examples.junction_grid
      8 (fun _ => true) 4 Examples.junction_tags = Ok (Converged s)).
  { eexists. vm_compute. reflexivity. }
  destruct Hc as [s Hs].
  destruct (painted_path_shortest (HQ := Scan.heapq)
              (HL := ScanFacts.heapq_laws) Examples.junction
              Examples.junction_grid _ _ _ _ _
              junction_grid_ok junction_tags_ok junction_unit_steps Hs)
    as (p & Hp).
  exists s, p. split; [exact Hs|]. exact Hp.
Defined.

End LPAStarExtra.
